(** * An explicit-free-list allocator (mm.c): shallow embedding and proofs

    The allocator of [mm.c] manages one growable arena with boundary tags
    and a doubly linked list of free blocks threaded through the free
    blocks' own payload.  The code is written for the ILP32 model the
    malloc lab is built in: a pointer and a [size_t] are both 4 bytes
    (the link fields [NEXT] and [PREV] lie 4 bytes apart and a minimum
    block of 16 bytes holds header, two links and footer).

    - memory is a byte store [Z -> Z]; a word access is four bytes,
      little endian; an access outside the arena [mem_lo, mem_brk) has no
      defined result (the monad returns [None]);
    - [size_t] arithmetic wraps modulo 2^32 and the wrap is written out;
    - the C functions are monadic functions over the allocator state, one
      definition per C function or macro, under the C names. *)

From Stdlib Require Import ZArith List Lia Bool String Permutation.
Import ListNotations.
Local Open Scope Z_scope.

(** ** Allocator state *)

Record heap : Type := mkHeap {
  mem     : Z -> Z;        (* byte contents, one byte per address *)
  mem_lo  : Z;             (* first byte of the arena *)
  mem_brk : Z;             (* one past the last byte of the arena *)
  mem_max : Z;             (* the arena can never grow past this address *)
  heap_p  : Z;             (* the global [heap_p] of mm.c *)
  out     : list string    (* what the code has printed, latest first *)
}.

Definition set_mem (s : heap) (m : Z -> Z) : heap :=
  mkHeap m (mem_lo s) (mem_brk s) (mem_max s) (heap_p s) (out s).

Definition set_brk (s : heap) (b : Z) : heap :=
  mkHeap (mem s) (mem_lo s) b (mem_max s) (heap_p s) (out s).

Definition set_heap_p (s : heap) (p : Z) : heap :=
  mkHeap (mem s) (mem_lo s) (mem_brk s) (mem_max s) p (out s).

Definition add_out (s : heap) (msg : string) : heap :=
  mkHeap (mem s) (mem_lo s) (mem_brk s) (mem_max s) (heap_p s) (msg :: out s).

(** ** The monad: state plus undefined behaviour *)

Definition M (A : Type) : Type := heap -> option (A * heap).

Definition ret {A} (x : A) : M A := fun s => Some (x, s).

Definition bind {A B} (c : M A) (k : A -> M B) : M B :=
  fun s => match c s with
           | Some (x, s') => k x s'
           | None => None
           end.

Notation "x <- c ;; k" := (bind c (fun x => k))
  (at level 61, c at next level, right associativity).
Notation "c ;;; k" := (bind c (fun _ => k))
  (at level 61, right associativity).

Definition get_heap_p : M Z := fun s => Some (heap_p s, s).
Definition put_heap_p (p : Z) : M unit := fun s => Some (tt, set_heap_p s p).
Definition printf (msg : string) : M unit := fun s => Some (tt, add_out s msg).

(** ** Bytes and words *)

Definition byte_at (m : Z -> Z) (a : Z) : Z := m a mod 256.

Definition load32 (m : Z -> Z) (p : Z) : Z :=
  byte_at m p + 2 ^ 8 * byte_at m (p + 1)
  + 2 ^ 16 * byte_at m (p + 2) + 2 ^ 24 * byte_at m (p + 3).

Definition store32 (m : Z -> Z) (p v : Z) : Z -> Z :=
  fun a =>
    if a =? p then v mod 256
    else if a =? p + 1 then (v / 2 ^ 8) mod 256
    else if a =? p + 2 then (v / 2 ^ 16) mod 256
    else if a =? p + 3 then (v / 2 ^ 24) mod 256
    else m a.

Definition in_arena (s : heap) (p n : Z) : bool :=
  (mem_lo s <=? p) && (p + n <=? mem_brk s).

(** [size_t] and [unsigned int] are 32 bits wide. *)
Definition wrap (x : Z) : Z := x mod 2 ^ 32.

(** ** Constants and macros of mm.c *)

Definition WSIZE : Z := 4.
Definition DSIZE : Z := 8.
Definition CHUNKSIZE : Z := Z.shiftl 1 8.
Definition MIN_BLKSIZE : Z := 16.
Definition NULL : Z := 0.

Definition MAX (x y : Z) : Z := if x >? y then x else y.

(** [ALIGN(size) = ((size) + (ALIGNMENT-1)) & ~0x7] on a [size_t]. *)
Definition ALIGN (size : Z) : Z := Z.land (wrap (size + (8 - 1))) (Z.lnot 7).

Definition PACK (size alloc : Z) : Z := Z.lor size alloc.

Definition GET (p : Z) : M Z :=
  fun s => if in_arena s p 4 then Some (load32 (mem s) p, s) else None.

Definition PUT (p val : Z) : M unit :=
  fun s => if in_arena s p 4
           then Some (tt, set_mem s (store32 (mem s) p (wrap val)))
           else None.

Definition GET_SIZE (p : Z) : M Z := w <- GET p ;; ret (Z.land w (Z.lnot 7)).
Definition GET_ALLOC (p : Z) : M Z := w <- GET p ;; ret (Z.land w 1).

Definition HDRP (bp : Z) : Z := bp - WSIZE.
Definition FTRP (bp : Z) : M Z :=
  sz <- GET_SIZE (HDRP bp) ;; ret (bp + sz - DSIZE).

Definition NEXT_BLKP (bp : Z) : M Z :=
  sz <- GET_SIZE (HDRP bp) ;; ret (bp + sz).
Definition PREV_BLKP (bp : Z) : M Z :=
  sz <- GET_SIZE (bp - DSIZE) ;; ret (bp - sz).

(** The links of a free block: [NEXT] in its first payload word, [PREV] in
    the word after it. *)
Definition NEXT (bp : Z) : M Z := GET bp.
Definition PREV (bp : Z) : M Z := GET (bp + WSIZE).
Definition SETNEXT (bp nextaddr : Z) : M unit := PUT bp nextaddr.
Definition SETPREV (bp prevaddr : Z) : M unit := PUT (bp + WSIZE) prevaddr.

(** C's [a && b] on two reads: the second is not evaluated when the first
    is zero.  [neg] marks an operand written [!x]. *)
Definition truth (neg : bool) (v : Z) : bool :=
  if neg then v =? 0 else negb (v =? 0).

Definition and2 (n1 : bool) (c1 : M Z) (n2 : bool) (c2 : M Z) : M bool :=
  a <- c1 ;;
  if truth n1 a then (b <- c2 ;; ret (truth n2 b)) else ret false.

(** ** The backing store *)

(** Modelled from the spec: the backing-store provider [mem_sbrk] of
    memlib.c is not part of the sources.  The spec gives it as
    "request N more bytes appended to the arena (returning the new region's
    start address or signaling out-of-memory)"; the result [None] stands
    for the C value [(void * )-1]. *)
Definition mem_sbrk (incr : Z) : M (option Z) :=
  fun s =>
    if mem_brk s + incr <=? mem_max s
    then Some (Some (mem_brk s), set_brk s (mem_brk s + incr))
    else Some (None, s).

(** [memcpy]: both ranges must lie in the arena. *)
Definition memcpy (dst src n : Z) : M unit :=
  fun s =>
    if (n =? 0) || (in_arena s dst n && in_arena s src n)
    then Some (tt, set_mem s (fun a =>
                 if (dst <=? a) && (a <? dst + n)
                 then byte_at (mem s) (a - dst + src)
                 else mem s a))
    else None.

(** ** Free-list splice primitives *)

Definition rmv_from_list (bp : Z) : M unit :=
  c1 <- and2 false (PREV bp) false (NEXT bp) ;;
  if c1 then
    orig_prev <- PREV bp ;;
    orig_next <- NEXT bp ;;
    SETNEXT orig_prev orig_next ;;;
    SETPREV orig_next orig_prev
  else
    c2 <- and2 true (PREV bp) false (NEXT bp) ;;
    if c2 then
      orig_next <- NEXT bp ;;
      hp <- get_heap_p ;;
      SETNEXT hp orig_next ;;;
      SETPREV orig_next 0
    else
      c3 <- and2 false (PREV bp) true (NEXT bp) ;;
      if c3 then
        orig_prev <- PREV bp ;;
        SETNEXT orig_prev 0
      else
        hp <- get_heap_p ;;
        SETNEXT hp 0.

Definition insert_front_list (bp : Z) : M unit :=
  hp <- get_heap_p ;;
  first <- NEXT hp ;;
  (if negb (first =? 0) then
     orig_first <- NEXT hp ;;
     SETNEXT bp orig_first ;;;
     SETPREV orig_first bp
   else
     SETNEXT bp 0) ;;;
  SETNEXT hp bp ;;;
  SETPREV bp 0.

(** ** Coalescing *)

Definition coalesce (bp : Z) : M Z :=
  pb <- PREV_BLKP bp ;;
  pf <- FTRP pb ;;
  prev_alloc <- GET_ALLOC pf ;;
  nb <- NEXT_BLKP bp ;;
  next_alloc <- GET_ALLOC (HDRP nb) ;;
  size <- GET_SIZE (HDRP bp) ;;
  if negb (prev_alloc =? 0) && negb (next_alloc =? 0) then
    insert_front_list bp ;;;
    ret bp
  else if negb (prev_alloc =? 0) && (next_alloc =? 0) then
    nb <- NEXT_BLKP bp ;;
    nsz <- GET_SIZE (HDRP nb) ;;
    let size := wrap (size + nsz) in
    nb <- NEXT_BLKP bp ;;
    rmv_from_list nb ;;;
    PUT (HDRP bp) (PACK size 0) ;;;
    f <- FTRP bp ;;
    PUT f (PACK size 0) ;;;
    insert_front_list bp ;;;
    ret bp
  else if (prev_alloc =? 0) && negb (next_alloc =? 0) then
    pb <- PREV_BLKP bp ;;
    psz <- GET_SIZE (HDRP pb) ;;
    let size := wrap (size + psz) in
    bp <- PREV_BLKP bp ;;
    rmv_from_list bp ;;;
    PUT (HDRP bp) (PACK size 0) ;;;
    f <- FTRP bp ;;
    PUT f (PACK size 0) ;;;
    insert_front_list bp ;;;
    ret bp
  else
    pb <- PREV_BLKP bp ;;
    psz <- GET_SIZE (HDRP pb) ;;
    nb <- NEXT_BLKP bp ;;
    nsz <- GET_SIZE (HDRP nb) ;;
    let size := wrap (size + wrap (psz + nsz)) in
    pb <- PREV_BLKP bp ;;
    rmv_from_list pb ;;;
    nb <- NEXT_BLKP bp ;;
    rmv_from_list nb ;;;
    bp <- PREV_BLKP bp ;;
    PUT (HDRP bp) (PACK size 0) ;;;
    f <- FTRP bp ;;
    PUT f (PACK size 0) ;;;
    insert_front_list bp ;;;
    ret bp.

Definition extend_heap (words : Z) : M Z :=
  let size := if negb (words mod 2 =? 0)
              then wrap ((words + 1) * WSIZE)
              else wrap (words * WSIZE) in
  r <- mem_sbrk size ;;
  match r with
  | None => ret NULL
  | Some bp =>
      PUT (HDRP bp) (PACK size 0) ;;;
      f <- FTRP bp ;;
      PUT f (PACK size 0) ;;;
      nb <- NEXT_BLKP bp ;;
      PUT (HDRP nb) (PACK 0 1) ;;;
      coalesce bp
  end.

(** ** Placement and fit search *)

Definition place (bp asize : Z) : M unit :=
  csize <- GET_SIZE (HDRP bp) ;;
  if wrap (csize - asize) >=? MIN_BLKSIZE then
    PUT (HDRP bp) (PACK asize 1) ;;;
    f <- FTRP bp ;;
    PUT f (PACK asize 1) ;;;
    nfbp <- NEXT_BLKP bp ;;
    c1 <- and2 false (PREV bp) false (NEXT bp) ;;
    (if c1 then
       orig_next <- NEXT bp ;;
       orig_prev <- PREV bp ;;
       SETNEXT nfbp orig_next ;;;
       SETPREV nfbp orig_prev ;;;
       SETNEXT orig_prev nfbp ;;;
       SETPREV orig_next nfbp
     else
       c2 <- and2 true (PREV bp) false (NEXT bp) ;;
       if c2 then
         orig_next <- NEXT bp ;;
         hp <- get_heap_p ;;
         SETNEXT hp nfbp ;;;
         SETPREV nfbp 0 ;;;
         SETNEXT nfbp orig_next ;;;
         SETPREV orig_next nfbp
       else
         c3 <- and2 false (PREV bp) true (NEXT bp) ;;
         if c3 then
           orig_prev <- PREV bp ;;
           SETNEXT orig_prev nfbp ;;;
           SETNEXT nfbp 0 ;;;
           SETPREV nfbp orig_prev
         else
           hp <- get_heap_p ;;
           SETNEXT hp nfbp ;;;
           SETNEXT nfbp 0 ;;;
           SETPREV nfbp 0) ;;;
    PUT (HDRP nfbp) (PACK (wrap (csize - asize)) 0) ;;;
    f <- FTRP nfbp ;;
    PUT f (PACK (wrap (csize - asize)) 0)
  else
    rmv_from_list bp ;;;
    PUT (HDRP bp) (PACK csize 1) ;;;
    f <- FTRP bp ;;
    PUT f (PACK csize 1).

(** The [do ... while (done != 1)] loop of [find_fit].  A free list that
    lies in the arena and has no cycle has fewer nodes than the arena has
    bytes, so the loop is unrolled that many times; on a cyclic list the C
    loop never ends and the model has no result. *)
Fixpoint find_fit_loop (fuel : nat) (asize bp : Z) : M Z :=
  match fuel with
  | O => fun _ => None
  | S fuel' =>
      sz <- GET_SIZE (HDRP bp) ;;
      if asize <=? sz then ret bp
      else
        n <- NEXT bp ;;
        if negb (n =? 0) then
          bp' <- NEXT bp ;;
          find_fit_loop fuel' asize bp'
        else ret NULL
  end.

Definition find_fit (asize : Z) : M Z :=
  hp <- get_heap_p ;;
  first <- NEXT hp ;;
  if first =? 0 then ret NULL
  else
    bp <- NEXT hp ;;
    fun s => find_fit_loop (Z.to_nat (mem_brk s - mem_lo s)) asize bp s.

(** ** The public operations *)

(** [heap_p] is assigned before the result of [mem_sbrk] is tested: when
    the call fails it holds [(char * )-1]. *)
Definition mm_init : M Z :=
  r <- mem_sbrk (6 * WSIZE) ;;
  match r with
  | None => put_heap_p (wrap (-1)) ;;; ret (-1)
  | Some p =>
      put_heap_p p ;;;
      PUT p 0 ;;;
      PUT (p + 1 * WSIZE) (PACK MIN_BLKSIZE 1) ;;;
      PUT (p + 2 * WSIZE) 0 ;;;
      PUT (p + 3 * WSIZE) 0 ;;;
      PUT (p + 4 * WSIZE) (PACK MIN_BLKSIZE 1) ;;;
      PUT (p + 5 * WSIZE) (PACK 0 1) ;;;
      put_heap_p (p + DSIZE) ;;;
      e <- extend_heap (CHUNKSIZE / WSIZE) ;;
      if e =? NULL then ret (-1)
      else
        hp <- get_heap_p ;;
        nb <- NEXT_BLKP hp ;;
        SETNEXT hp nb ;;;
        bp <- NEXT hp ;;
        SETNEXT bp 0 ;;;
        SETPREV bp 0 ;;;
        ret 0
  end.

(** What [mm_malloc] prints when the heap cannot grow: the text and a
    newline. *)
Definition extend_heap_failed : string :=
  String.append "extend_heap failed " (String (Ascii.ascii_of_nat 10) EmptyString).

Definition mm_malloc (size : Z) : M Z :=
  if size =? 0 then ret NULL
  else
    let adjsize :=
      if size <=? DSIZE then 2 * DSIZE
      else wrap (DSIZE * (wrap (size + DSIZE + (DSIZE - 1)) / DSIZE)) in
    bp <- find_fit adjsize ;;
    if negb (bp =? NULL) then
      place bp adjsize ;;;
      ret bp
    else
      let extsize := MAX adjsize CHUNKSIZE in
      bp <- extend_heap (extsize / WSIZE) ;;
      if bp =? NULL then
        printf extend_heap_failed ;;;
        ret NULL
      else
        place bp adjsize ;;;
        ret bp.

Definition mm_free (bp : Z) : M unit :=
  size <- GET_SIZE (HDRP bp) ;;
  PUT (HDRP bp) (PACK size 0) ;;;
  f <- FTRP bp ;;
  PUT f (PACK size 0) ;;;
  r <- coalesce bp ;;
  ret tt.

Definition mm_realloc (ptr size : Z) : M Z :=
  let oldptr := ptr in
  let adjsize := ALIGN size in
  newptr <- mm_malloc size ;;
  if newptr =? NULL then ret NULL
  else
    copySize <- GET_SIZE (HDRP oldptr) ;;
    let copySize := if adjsize <? copySize then adjsize else copySize in
    memcpy newptr oldptr copySize ;;;
    mm_free oldptr ;;;
    ret newptr.

(** ** The abstract view of a heap state *)

Definition b2z (a : bool) : Z := if a then 1 else 0.

(** A block is known by its size and its allocated flag; a heap is the
    list of its blocks in address order, prologue and epilogue apart. *)
Definition block : Type := (Z * bool)%type.

Fixpoint total (l : list block) : Z :=
  match l with
  | [] => 0
  | b :: r => fst b + total r
  end.

(** [seg m p l e]: the blocks [l] lie back to back from block pointer [p]
    to block pointer [e], each with header and footer holding its size and
    flag. *)
Fixpoint seg (m : Z -> Z) (p : Z) (l : list block) (e : Z) : Prop :=
  match l with
  | [] => p = e
  | b :: r =>
      MIN_BLKSIZE <= fst b /\ fst b mod 8 = 0 /\
      load32 m (p - 4) = PACK (fst b) (b2z (snd b)) /\
      load32 m (p + fst b - 8) = PACK (fst b) (b2z (snd b)) /\
      seg m (p + fst b) r e
  end.

Fixpoint free_ptrs (p : Z) (l : list block) : list Z :=
  match l with
  | [] => []
  | b :: r => if snd b then free_ptrs (p + fst b) r
              else p :: free_ptrs (p + fst b) r
  end.

Fixpoint alloc_ptrs (p : Z) (l : list block) : list Z :=
  match l with
  | [] => []
  | b :: r => if snd b then p :: alloc_ptrs (p + fst b) r
              else alloc_ptrs (p + fst b) r
  end.

(** [lseg m h prev l t]: following next-links from [h] visits exactly the
    nodes [l] and then reaches [t]; the prev-link of each node is the node
    before it, [prev] for the first. *)
Fixpoint lseg (m : Z -> Z) (h prev : Z) (l : list Z) (t : Z) : Prop :=
  match l with
  | [] => h = t
  | x :: r =>
      h = x /\ x <> 0 /\ load32 m (x + 4) = prev /\
      lseg m (load32 m x) x r t
  end.

(** No two neighbours in address order are both free. *)
Fixpoint no_adj (l : list block) : Prop :=
  match l with
  | [] => True
  | b :: r => (snd b = false -> forall b', hd_error r = Some b' -> snd b' = true)
              /\ no_adj r
  end.

(** The representation invariant: state [s] holds the blocks [bl] and the
    free list [fl] (in list order). *)
Record rep (s : heap) (bl : list block) (fl : list Z) : Prop := mkRep {
  rep_lo    : 0 < mem_lo s;
  rep_align : mem_lo s mod 8 = 0;
  rep_hp    : heap_p s = mem_lo s + 8;
  rep_brk   : mem_brk s <= mem_max s;
  rep_max   : mem_max s < 2 ^ 32;
  rep_pro_h : load32 (mem s) (mem_lo s + 4) = PACK MIN_BLKSIZE 1;
  rep_pro_f : load32 (mem s) (mem_lo s + 16) = PACK MIN_BLKSIZE 1;
  rep_seg   : seg (mem s) (mem_lo s + 24) bl (mem_brk s);
  rep_epi   : load32 (mem s) (mem_brk s - 4) = PACK 0 1;
  rep_list  : lseg (mem s) (load32 (mem s) (heap_p s)) 0 fl 0;
  rep_incl  : incl fl (free_ptrs (mem_lo s + 24) bl)
}.

(** Every free block is on the list. *)
Definition complete (s : heap) (bl : list block) (fl : list Z) : Prop :=
  incl (free_ptrs (mem_lo s + 24) bl) fl.

(** The state after [PUT p v]. *)
Definition put (s : heap) (p v : Z) : heap :=
  set_mem s (store32 (mem s) p (wrap v)).

(** Total correctness of a computation from state [s]. *)
Definition wp {A} (c : M A) (s : heap) (Q : A -> heap -> Prop) : Prop :=
  exists x s', c s = Some (x, s') /\ Q x s'.

(** The fields of the state that only [mem_sbrk] and [mm_init] touch. *)
Definition same_meta (s s' : heap) : Prop :=
  mem_lo s' = mem_lo s /\ mem_brk s' = mem_brk s /\ mem_max s' = mem_max s /\
  heap_p s' = heap_p s /\ out s' = out s.

Definition sizes_ok (l : list block) : Prop :=
  Forall (fun b => MIN_BLKSIZE <= fst b /\ fst b mod 8 = 0) l.

(** Bytes that are payload of some block: everything but headers and
    footers. *)
Fixpoint in_payload (p : Z) (l : list block) (a : Z) : Prop :=
  match l with
  | [] => False
  | b :: r => p <= a < p + fst b - 8 \/ in_payload (p + fst b) r a
  end.

(** Bytes the splice primitives may write: payload bytes and the root. *)
Definition soft (lo : Z) (bl : list block) (a : Z) : Prop :=
  in_payload (lo + 24) bl a \/ lo + 8 <= a < lo + 12.

Definition soft_step (bl : list block) (s s' : heap) : Prop :=
  same_meta s s' /\ forall a, soft (mem_lo s) bl a \/ mem s' a = mem s a.

(** The neighbours of a block that lies between the blocks [l1] and [l2]:
    the prologue stands before the first block and the epilogue after the
    last, both allocated. *)
Definition prev_is_free (l1 : list block) : bool :=
  match rev l1 with
  | [] => false
  | b :: _ => negb (snd b)
  end.

Definition next_is_free (l2 : list block) : bool :=
  match l2 with
  | [] => false
  | b :: _ => negb (snd b)
  end.

Definition prev_size (l1 : list block) : Z := fst (last l1 (MIN_BLKSIZE, true)).
Definition next_size (l2 : list block) : Z := fst (hd (0, true) l2).

(** The four cases of [coalesce] on the abstract view, for the free block
    of size [sz] at [bp] between [l1] and [l2]: the new blocks, the new
    free list and the block returned. *)
Definition coalesce_result (l1 : list block) (sz : Z) (l2 : list block)
    (bp : Z) (fl : list Z) : list block * list Z * Z :=
  let psz := prev_size l1 in
  let nsz := next_size l2 in
  match prev_is_free l1, next_is_free l2 with
  | false, false =>
      (l1 ++ (sz, false) :: l2, bp :: fl, bp)
  | false, true =>
      (l1 ++ (sz + nsz, false) :: tl l2,
       bp :: remove Z.eq_dec (bp + sz) fl, bp)
  | true, false =>
      (removelast l1 ++ (sz + psz, false) :: l2,
       (bp - psz) :: remove Z.eq_dec (bp - psz) fl, bp - psz)
  | true, true =>
      (removelast l1 ++ (sz + (psz + nsz), false) :: tl l2,
       (bp - psz) :: remove Z.eq_dec (bp + sz)
                       (remove Z.eq_dec (bp - psz) fl), bp - psz)
  end.

(** The precondition of [coalesce bp]: [bp] is a free block (tags written)
    that is not on the list, and its free neighbours are. *)
Definition coalesce_pre (s : heap) (l1 : list block) (sz : Z) (l2 : list block)
    (fl : list Z) (bp : Z) : Prop :=
  rep s (l1 ++ (sz, false) :: l2) fl /\
  bp = mem_lo s + 24 + total l1 /\
  ~ In bp fl /\
  (prev_is_free l1 = true -> In (bp - prev_size l1) fl) /\
  (next_is_free l2 = true -> In (bp + sz) fl).

(** The size field of the header of block [q]: [GET_SIZE(HDRP(q))]. *)
Definition size_at (m : Z -> Z) (q : Z) : Z :=
  Z.land (load32 m (q - 4)) (Z.lnot 7).

(** First fit over the nodes of the free list, in list order. *)
Definition first_fit (m : Z -> Z) (asize : Z) (fl : list Z) : Z :=
  match find (fun q => asize <=? size_at m q) fl with
  | Some q => q
  | None => NULL
  end.

(** The whole invariant of the heap between two public operations. *)
Definition heap_inv (s : heap) (bl : list block) (fl : list Z) : Prop :=
  rep s bl fl /\ complete s bl fl /\ no_adj bl.

(** The arena may have grown between [s] and [s']; nothing else of the
    bookkeeping changed. *)
Definition grows (s s' : heap) : Prop :=
  mem_lo s' = mem_lo s /\ mem_brk s <= mem_brk s' /\ mem_max s' = mem_max s /\
  heap_p s' = heap_p s /\ out s' = out s.

(** The block size [mm_malloc] asks for, before any wrap-around: payload
    plus header and footer, rounded up to a multiple of 8, at least the
    minimum block. *)
Definition adj_size (n : Z) : Z :=
  if n <=? DSIZE then 2 * DSIZE
  else DSIZE * ((n + DSIZE + (DSIZE - 1)) / DSIZE).

(** ** Walking the arena, and the reachable states *)

(** The loop of the checker at the end of mm.c, from the first block after
    the prologue: block pointers with size and allocated bit, until a
    header of size 0 (the epilogue). *)
Fixpoint walk (fuel : nat) (m : Z -> Z) (bp : Z) : list (Z * block) :=
  match fuel with
  | O => []
  | S fuel' =>
      let w := load32 m (HDRP bp) in
      let sz := Z.land w (Z.lnot 7) in
      if sz =? 0 then []
      else (bp, (sz, negb (Z.land w 1 =? 0))) :: walk fuel' m (bp + sz)
  end.

Definition heap_blocks (s : heap) : list (Z * block) :=
  walk (Z.to_nat (mem_brk s - mem_lo s)) (mem s) (heap_p s + MIN_BLKSIZE).

Fixpoint layout (p : Z) (l : list block) : list (Z * block) :=
  match l with
  | [] => []
  | b :: r => (p, b) :: layout (p + fst b) r
  end.

(** The backing store before [mm_init]: an empty arena that starts at a
    positive, 8-aligned address and cannot grow past 2^32. *)
Definition fresh (s : heap) : Prop :=
  0 < mem_lo s /\ mem_lo s mod 8 = 0 /\ mem_brk s = mem_lo s /\
  mem_max s < 2 ^ 32.

(** A request the size rounding of [mm_malloc] does not wrap on. *)
Definition request_ok (n : Z) : Prop := 0 <= n /\ n + 15 < 2 ^ 32.

(** A user write of one byte. *)
Definition poke (s : heap) (a b : Z) : heap :=
  set_mem s (fun x => if x =? a then b else mem s x).

(** The states the public operations reach from a fresh arena, each
    operation called within its precondition: sizes that do not wrap, and
    for [mm_free] and [mm_realloc] a pointer to a block that is allocated
    now.  Between calls the user may write the payload of the allocated
    blocks. *)
Inductive reachable : heap -> Prop :=
| reach_init s0 s :
    fresh s0 -> mm_init s0 = Some (0, s) -> reachable s
| reach_malloc s n p s' :
    reachable s -> request_ok n -> mm_malloc n s = Some (p, s') -> reachable s'
| reach_free s p sz s' :
    reachable s -> In (p, (sz, true)) (heap_blocks s) ->
    mm_free p s = Some (tt, s') -> reachable s'
| reach_realloc s p sz n r s' :
    reachable s -> In (p, (sz, true)) (heap_blocks s) -> request_ok n ->
    mm_realloc p n s = Some (r, s') -> reachable s'
| reach_write s p sz i b :
    reachable s -> In (p, (sz, true)) (heap_blocks s) -> 0 <= i < sz - DSIZE ->
    reachable (poke s (p + i) b).

(** ** Concrete runs *)

(** The state a computation leaves (the state itself when it has none). *)
Definition exec {A} (c : M A) (s : heap) : heap :=
  match c s with
  | Some (_, s') => s'
  | None => s
  end.

(** A zeroed arena of 64 KiB at address 4096, and one that has room for
    the first chunk only. *)
Definition demo_fresh : heap :=
  mkHeap (fun _ => 0) 4096 4096 (4096 + 65536) 0 [].
Definition demo_small_fresh : heap :=
  mkHeap (fun _ => 0) 4096 4096 (4096 + 280) 0 [].

Definition demo_init : heap := exec mm_init demo_fresh.
Definition demo_small : heap := exec mm_init demo_small_fresh.
Definition demo_oom : heap := exec (mm_malloc 1000) demo_small.

(** [a = mm_malloc(1)] at 4120, [b = mm_malloc(1)] at 4136, [mm_free(a)]:
    a free block of 16 bytes is first on the list. *)
Definition demo_a : heap := exec (mm_malloc 1) demo_init.
Definition demo_ab : heap := exec (mm_malloc 1) demo_a.
Definition demo_hole : heap := exec (mm_free 4120) demo_ab.

(** [mm_free(a)] from [demo_a], stopped before its call of [coalesce]. *)
Definition demo_pre : heap :=
  put (put demo_a (HDRP 4120) (PACK 16 0)) (4120 + 16 - DSIZE) (PACK 16 0).

(** The largest [size_t]. *)
Definition SIZE_MAX : Z := 2 ^ 32 - 1.

Definition demo_short : heap := exec (mm_malloc SIZE_MAX) demo_hole.

Definition read_bytes (m : Z -> Z) (p : Z) (n : nat) : list Z :=
  map (fun i => byte_at m (p + Z.of_nat i)) (seq 0 n).

Fixpoint write_bytes (s : heap) (p : Z) (bs : list Z) : heap :=
  match bs with
  | [] => s
  | b :: r => write_bytes (poke s p b) (p + 1) r
  end.

(** Allocate [n] bytes, write the pattern [pat], reallocate to [m] bytes,
    read the first [n] bytes back: the round trip of the spec. *)
Definition roundtrip (s : heap) (n m : Z) (pat : list Z) : option (Z * list Z) :=
  match mm_malloc n s with
  | Some (p, s1) =>
      if p =? NULL then None
      else match mm_realloc p m (write_bytes s1 p pat) with
           | Some (q, s3) =>
               if q =? NULL then None
               else Some (q, read_bytes (mem s3) q (List.length pat))
           | None => None
           end
  | None => None
  end.


(** ** What belongs to the user *)

(** The allocated blocks in address order: block pointer and block size. *)
Fixpoint alloc_blocks (p : Z) (l : list block) : list (Z * Z) :=
  match l with
  | [] => []
  | b :: r => if snd b then (p, fst b) :: alloc_blocks (p + fst b) r
              else alloc_blocks (p + fst b) r
  end.

(** The payload bytes of the allocated blocks. *)
Definition in_use (p : Z) (l : list block) (a : Z) : Prop :=
  exists q sz, In (q, sz) (alloc_blocks p l) /\ q <= a < q + sz - DSIZE.

(** [s'] holds in the payload of every allocated block of [bl] what [s]
    holds there. *)
Definition keeps (bl : list block) (s s' : heap) : Prop :=
  forall a, in_use (mem_lo s + 24) bl a -> mem s' a = mem s a.

(** The free list of a state, as the list of its nodes. *)
Definition free_list (s : heap) (fl : list Z) : Prop :=
  lseg (mem s) (load32 (mem s) (heap_p s)) 0 fl 0.

(** What a successful [mm_malloc n] leaves: the block returned is an
    allocated block of the new state, large enough for the request and
    with less than a minimum block to spare; the blocks allocated before
    are the other allocated blocks, and their payload is as it was. *)
Definition placed (s : heap) (bl : list block) (n p : Z) (s' : heap) : Prop :=
  keeps bl s s' /\
  exists la sz lb fl',
    heap_inv s' (la ++ (sz, true) :: lb) fl' /\
    p = mem_lo s + 24 + total la /\
    adj_size n <= sz < adj_size n + MIN_BLKSIZE /\
    alloc_blocks (mem_lo s + 24) bl =
    alloc_blocks (mem_lo s + 24) la ++ alloc_blocks (p + sz) lb.

(** One block allocated in the arena that cannot grow, and a reallocation
    that fails there. *)
Definition demo_small_a : heap := exec (mm_malloc 1) demo_small.
Definition demo_small_fail : heap := exec (mm_realloc 4120 1000) demo_small_a.

(** A run with a request whose size rounding wraps around: [a = mm_malloc(1)]
    at 4120, [b = mm_malloc(200)] at 4136, [mm_free(a)], then
    [mm_malloc(2^32 - 15)], for which the adjusted size comes out as 0, then
    [mm_malloc(1)], one byte written into the payload of [b], and
    [mm_free(4120)]. *)
Definition WRAP_SIZE : Z := 2 ^ 32 - 15.
Definition demo_wrap_b : heap := exec (mm_malloc 200) demo_a.
Definition demo_wrap_hole : heap := exec (mm_free 4120) demo_wrap_b.
Definition demo_wrap_zero : heap := exec (mm_malloc WRAP_SIZE) demo_wrap_hole.
Definition demo_wrap_again : heap := exec (mm_malloc 1) demo_wrap_zero.
Definition demo_wrap_byte : heap := poke demo_wrap_again 4148 16.
Definition demo_wrap_broken : heap := exec (mm_free 4120) demo_wrap_byte.
(** * Proofs *)

Arguments load32 : simpl never.
Arguments store32 : simpl never.
Arguments wrap : simpl never.
Arguments PACK : simpl never.
Arguments Z.pow : simpl never.
Arguments Z.add : simpl never.
Arguments Z.sub : simpl never.
Arguments Z.mul : simpl never.
Arguments Z.modulo : simpl never.
Arguments Z.land : simpl never.
Arguments Z.lnot : simpl never.

(** ** Bits and bytes *)

Lemma land_lnot7 w : Z.land w (Z.lnot 7) = 8 * (w / 8).
Proof.
  rewrite <- Z.ldiff_land. change 7 with (Z.ones 3).
  rewrite Z.ldiff_ones_r by lia.
  rewrite Z.shiftr_div_pow2, Z.shiftl_mul_pow2 by lia.
  change (2 ^ 3) with 8. lia.
Qed.

Lemma land_1 w : Z.land w 1 = w mod 2.
Proof. change 1 with (Z.ones 1). rewrite Z.land_ones by lia. reflexivity. Qed.

Lemma PACK_add sz a : sz mod 8 = 0 -> PACK sz (b2z a) = sz + b2z a.
Proof.
  intros Hs. unfold PACK. pose proof (Z.add_lor_land sz (b2z a)) as H.
  assert (Z.land sz (b2z a) = 0); [|lia].
  destruct a; cbn [b2z]; [|apply Z.land_0_r].
  rewrite land_1.
  rewrite (Z.div_mod sz 8) by lia. rewrite Hs.
  replace (8 * (sz / 8) + 0) with ((sz / 8 * 4) * 2) by lia.
  apply Z.mod_mul. lia.
Qed.

Lemma PACK_size sz a :
  sz mod 8 = 0 -> Z.land (PACK sz (b2z a)) (Z.lnot 7) = sz.
Proof.
  intros Hs. rewrite PACK_add by assumption. rewrite land_lnot7.
  pose proof (Z.div_mod sz 8 ltac:(lia)).
  assert (b2z a = 0 \/ b2z a = 1) as [-> | ->] by (destruct a; cbn; lia).
  - rewrite Z.add_0_r. lia.
  - replace (sz + 1) with (sz / 8 * 8 + 1) by lia.
    rewrite Z.div_add_l by lia. change (1 / 8) with 0. lia.
Qed.

Lemma PACK_alloc sz a :
  sz mod 8 = 0 -> Z.land (PACK sz (b2z a)) 1 = b2z a.
Proof.
  intros Hs. rewrite PACK_add by assumption. rewrite land_1.
  pose proof (Z.div_mod sz 8 ltac:(lia)).
  replace (sz + b2z a) with (b2z a + (sz / 8 * 4) * 2) by lia.
  rewrite Z.mod_add by lia. destruct a; reflexivity.
Qed.

Lemma wrap_small x : 0 <= x < 2 ^ 32 -> wrap x = x.
Proof. intros H. unfold wrap. apply Z.mod_small. assumption. Qed.

Lemma wrap_PACK sz a :
  sz mod 8 = 0 -> 0 <= sz < 2 ^ 32 - 8 -> wrap (PACK sz (b2z a)) = PACK sz (b2z a).
Proof.
  intros Hs Hr. rewrite PACK_add by assumption. apply wrap_small.
  destruct a; cbn [b2z]; lia.
Qed.

Lemma byte_at_range m a : 0 <= byte_at m a < 256.
Proof. unfold byte_at. apply Z.mod_pos_bound. lia. Qed.

Lemma load32_range m p : 0 <= load32 m p < 2 ^ 32.
Proof.
  unfold load32.
  pose proof (byte_at_range m p). pose proof (byte_at_range m (p + 1)).
  pose proof (byte_at_range m (p + 2)). pose proof (byte_at_range m (p + 3)).
  change (2 ^ 8) with 256. change (2 ^ 16) with 65536.
  change (2 ^ 24) with 16777216. change (2 ^ 32) with 4294967296. lia.
Qed.

Lemma store32_out m p v a : a < p \/ p + 4 <= a -> store32 m p v a = m a.
Proof.
  intros H. unfold store32.
  repeat match goal with
         | |- context [?x =? ?y] => destruct (Z.eqb_spec x y); [lia|]
         end.
  reflexivity.
Qed.

Lemma load32_ext m m' p :
  (forall a, p <= a < p + 4 -> m' a = m a) -> load32 m' p = load32 m p.
Proof.
  intros H. unfold load32, byte_at.
  rewrite (H p), (H (p + 1)), (H (p + 2)), (H (p + 3)) by lia. reflexivity.
Qed.

Lemma load32_store32_other m p v q :
  q + 4 <= p \/ p + 4 <= q -> load32 (store32 m p v) q = load32 m q.
Proof. intros H. apply load32_ext. intros a Ha. apply store32_out. lia. Qed.

Lemma load32_store32_same m p v :
  0 <= v < 2 ^ 32 -> load32 (store32 m p v) p = v.
Proof.
  intros Hv. unfold load32, byte_at, store32.
  rewrite Z.eqb_refl.
  destruct (Z.eqb_spec (p + 1) p); [lia|]. rewrite Z.eqb_refl.
  destruct (Z.eqb_spec (p + 2) p); [lia|].
  destruct (Z.eqb_spec (p + 2) (p + 1)); [lia|]. rewrite Z.eqb_refl.
  destruct (Z.eqb_spec (p + 3) p); [lia|].
  destruct (Z.eqb_spec (p + 3) (p + 1)); [lia|].
  destruct (Z.eqb_spec (p + 3) (p + 2)); [lia|]. rewrite Z.eqb_refl.
  rewrite !Z.mod_mod by lia.
  change (2 ^ 8) with 256 in *. change (2 ^ 16) with 65536 in *.
  change (2 ^ 24) with 16777216 in *. change (2 ^ 32) with 4294967296 in *.
  pose proof (Z.div_mod v 256 ltac:(lia)).
  pose proof (Z.div_mod (v / 256) 256 ltac:(lia)).
  pose proof (Z.div_mod (v / 256 / 256) 256 ltac:(lia)).
  rewrite Z.div_div in * by lia.
  change (256 * 256) with 65536 in *.
  rewrite Z.div_div in * by lia. change (65536 * 256) with 16777216 in *.
  assert (0 <= v / 16777216 < 256)
    by (split; [apply Z.div_pos; lia | apply Z.div_lt_upper_bound; lia]).
  rewrite (Z.mod_small (v / 16777216)) by lia.
  lia.
Qed.

Lemma wrap_range x : 0 <= wrap x < 2 ^ 32.
Proof. unfold wrap. apply Z.mod_pos_bound. reflexivity. Qed.

Lemma load_put_same s p v : load32 (mem (put s p v)) p = wrap v.
Proof. cbn. apply load32_store32_same. apply wrap_range. Qed.

Lemma load_put_other s p v q :
  q + 4 <= p \/ p + 4 <= q -> load32 (mem (put s p v)) q = load32 (mem s) q.
Proof. intros H. cbn. apply load32_store32_other. assumption. Qed.

Lemma mem_put_out s p v a :
  a < p \/ p + 4 <= a -> mem (put s p v) a = mem s a.
Proof. intros H. cbn. apply store32_out. assumption. Qed.

Lemma same_meta_refl s : same_meta s s.
Proof. repeat split. Qed.

Lemma same_meta_trans s1 s2 s3 :
  same_meta s1 s2 -> same_meta s2 s3 -> same_meta s1 s3.
Proof. unfold same_meta. intuition congruence. Qed.

Lemma same_meta_put s p v : same_meta s (put s p v).
Proof. repeat split. Qed.

(** ** Running the monad *)

Lemma wp_ret {A} (x : A) s Q : Q x s -> wp (ret x) s Q.
Proof. intros H. exists x, s. split; [reflexivity | assumption]. Qed.

Lemma wp_bind {A B} (c : M A) (k : A -> M B) s Q :
  wp c s (fun x s' => wp (k x) s' Q) -> wp (bind c k) s Q.
Proof.
  intros (x & s' & Hc & y & s'' & Hk & HQ).
  exists y, s''. split; [|assumption]. unfold bind. rewrite Hc. assumption.
Qed.

Lemma wp_conseq {A} (c : M A) s (Q Q' : A -> heap -> Prop) :
  wp c s Q -> (forall x s', Q x s' -> Q' x s') -> wp c s Q'.
Proof. intros (x & s' & Hc & HQ) H. exists x, s'. auto. Qed.

Lemma in_arena_ok s p n :
  mem_lo s <= p -> p + n <= mem_brk s -> in_arena s p n = true.
Proof.
  intros H1 H2. unfold in_arena. apply andb_true_intro. split; apply Z.leb_le; assumption.
Qed.

Lemma wp_GET p s Q :
  mem_lo s <= p -> p + 4 <= mem_brk s ->
  Q (load32 (mem s) p) s -> wp (GET p) s Q.
Proof.
  intros H1 H2 HQ. exists (load32 (mem s) p), s. split; [|assumption].
  unfold GET. rewrite in_arena_ok by assumption. reflexivity.
Qed.

Lemma wp_PUT p v s Q :
  mem_lo s <= p -> p + 4 <= mem_brk s ->
  Q tt (put s p v) -> wp (PUT p v) s Q.
Proof.
  intros H1 H2 HQ. exists tt, (put s p v). split; [|assumption].
  unfold PUT. rewrite in_arena_ok by assumption. reflexivity.
Qed.

Lemma wp_GET_SIZE p s Q :
  mem_lo s <= p -> p + 4 <= mem_brk s ->
  Q (Z.land (load32 (mem s) p) (Z.lnot 7)) s -> wp (GET_SIZE p) s Q.
Proof.
  intros H1 H2 HQ. unfold GET_SIZE. apply wp_bind. apply wp_GET; try assumption.
  apply wp_ret. assumption.
Qed.

Lemma wp_GET_ALLOC p s Q :
  mem_lo s <= p -> p + 4 <= mem_brk s ->
  Q (Z.land (load32 (mem s) p) 1) s -> wp (GET_ALLOC p) s Q.
Proof.
  intros H1 H2 HQ. unfold GET_ALLOC. apply wp_bind. apply wp_GET; try assumption.
  apply wp_ret. assumption.
Qed.

Lemma wp_get_heap_p s Q : Q (heap_p s) s -> wp get_heap_p s Q.
Proof. intros H. exists (heap_p s), s. split; [reflexivity | assumption]. Qed.

(** ** Block layout *)

Lemma total_app l1 l2 : total (l1 ++ l2) = total l1 + total l2.
Proof. induction l1 as [|b l1 IH]; cbn [total app]; lia. Qed.

Lemma sizes_ok_total l : sizes_ok l -> 0 <= total l.
Proof.
  induction 1 as [|b l [Hb _] _ IH]; cbn [total]; unfold MIN_BLKSIZE in *; lia.
Qed.

Lemma sizes_ok_app l1 l2 : sizes_ok (l1 ++ l2) <-> sizes_ok l1 /\ sizes_ok l2.
Proof. apply Forall_app. Qed.

Lemma seg_sizes m p l e : seg m p l e -> sizes_ok l.
Proof.
  revert p. induction l as [|b l IH]; intros p H; [constructor|].
  destruct H as (H1 & H2 & _ & _ & H5). constructor; [split; assumption|].
  eapply IH; eassumption.
Qed.

Lemma seg_end m p l e : seg m p l e -> e = p + total l.
Proof.
  revert p. induction l as [|b l IH]; intros p H; cbn [seg total] in *.
  - lia.
  - destruct H as (_ & _ & _ & _ & H). apply IH in H. lia.
Qed.

Lemma seg_app m p l1 l2 e :
  seg m p (l1 ++ l2) e <->
  seg m p l1 (p + total l1) /\ seg m (p + total l1) l2 e.
Proof.
  revert p. induction l1 as [|b l1 IH]; intros p; cbn [seg total app].
  - rewrite Z.add_0_r. tauto.
  - rewrite IH. replace (p + fst b + total l1) with (p + (fst b + total l1)) by lia.
    tauto.
Qed.

Lemma seg_frame m m' p l e :
  (forall a, p - 4 <= a < e - 4 -> m' a = m a) ->
  seg m p l e -> seg m' p l e.
Proof.
  revert p. induction l as [|b l IH]; intros p Hf H; cbn [seg] in *; [assumption|].
  destruct H as (H1 & H2 & H3 & H4 & H5).
  pose proof (seg_end _ _ _ _ H5) as He.
  pose proof (sizes_ok_total _ (seg_sizes _ _ _ _ H5)) as Ht.
  unfold MIN_BLKSIZE in *.
  repeat split; try assumption.
  - rewrite <- H3. apply load32_ext. intros a Ha. apply Hf. lia.
  - rewrite <- H4. apply load32_ext. intros a Ha. apply Hf. lia.
  - apply IH; [|assumption]. intros a Ha. apply Hf. lia.
Qed.

Lemma free_ptrs_app p l1 l2 :
  free_ptrs p (l1 ++ l2) = free_ptrs p l1 ++ free_ptrs (p + total l1) l2.
Proof.
  revert p. induction l1 as [|b l1 IH]; intros p; cbn [free_ptrs total app].
  - rewrite Z.add_0_r. reflexivity.
  - rewrite IH. replace (p + fst b + total l1) with (p + (fst b + total l1)) by lia.
    destruct (snd b); reflexivity.
Qed.

Lemma alloc_ptrs_app p l1 l2 :
  alloc_ptrs p (l1 ++ l2) = alloc_ptrs p l1 ++ alloc_ptrs (p + total l1) l2.
Proof.
  revert p. induction l1 as [|b l1 IH]; intros p; cbn [alloc_ptrs total app].
  - rewrite Z.add_0_r. reflexivity.
  - rewrite IH. replace (p + fst b + total l1) with (p + (fst b + total l1)) by lia.
    destruct (snd b); reflexivity.
Qed.

Lemma free_ptrs_range p l q :
  sizes_ok l -> In q (free_ptrs p l) -> p <= q /\ q + 16 <= p + total l.
Proof.
  intros Hs. revert p. induction Hs as [|b l [Hb _] Hs IH]; intros p Hq;
    cbn [free_ptrs total] in *; [contradiction|].
  pose proof (sizes_ok_total _ Hs). unfold MIN_BLKSIZE in *.
  destruct (snd b).
  - apply IH in Hq. lia.
  - destruct Hq as [<- | Hq]; [lia|]. apply IH in Hq. lia.
Qed.

Lemma alloc_ptrs_range p l q :
  sizes_ok l -> In q (alloc_ptrs p l) -> p <= q /\ q + 16 <= p + total l.
Proof.
  intros Hs. revert p. induction Hs as [|b l [Hb _] Hs IH]; intros p Hq;
    cbn [alloc_ptrs total] in *; [contradiction|].
  pose proof (sizes_ok_total _ Hs). unfold MIN_BLKSIZE in *.
  destruct (snd b).
  - destruct Hq as [<- | Hq]; [lia|]. apply IH in Hq. lia.
  - apply IH in Hq. lia.
Qed.

(** Where a free block of [l1 ++ b :: l2] lies relative to [b]. *)
Lemma free_ptrs_around p l1 b l2 q :
  sizes_ok (l1 ++ b :: l2) ->
  In q (free_ptrs p (l1 ++ b :: l2)) ->
  (In q (free_ptrs p l1) /\ q + 16 <= p + total l1) \/
  (q = p + total l1 /\ snd b = false) \/
  (In q (free_ptrs (p + total l1 + fst b) l2) /\ p + total l1 + fst b <= q).
Proof.
  intros Hs Hq. apply sizes_ok_app in Hs. destruct Hs as [Hs1 Hs2].
  inversion Hs2 as [|? ? Hb Hs3]; subst.
  rewrite free_ptrs_app in Hq. apply in_app_or in Hq. destruct Hq as [Hq | Hq].
  - left. split; [assumption|]. apply free_ptrs_range in Hq; [lia | assumption].
  - cbn [free_ptrs] in Hq. destruct (snd b) eqn:Ea.
    + right. right. split; [assumption|].
      apply free_ptrs_range in Hq; [lia | assumption].
    + destruct Hq as [<- | Hq]; [right; left; split; reflexivity|].
      right. right. split; [assumption|].
      apply free_ptrs_range in Hq; [lia | assumption].
Qed.

Lemma free_ptrs_sep p l q q' :
  sizes_ok l -> In q (free_ptrs p l) -> In q' (free_ptrs p l) ->
  q = q' \/ q + 16 <= q' \/ q' + 16 <= q.
Proof.
  intros Hs. revert p. induction Hs as [|b l [Hb _] Hs IH]; intros p Hq Hq';
    cbn [free_ptrs] in *; [contradiction|].
  unfold MIN_BLKSIZE in *.
  destruct (snd b).
  - eapply IH; eassumption.
  - destruct Hq as [<- | Hq], Hq' as [<- | Hq'].
    + left; reflexivity.
    + apply free_ptrs_range in Hq'; [lia | assumption].
    + apply free_ptrs_range in Hq; [lia | assumption].
    + eapply IH; eassumption.
Qed.

Lemma free_ptrs_NoDup p l : sizes_ok l -> NoDup (free_ptrs p l).
Proof.
  intros Hs. revert p. induction Hs as [|b l [Hb _] Hs IH]; intros p;
    cbn [free_ptrs]; [constructor|].
  destruct (snd b); [apply IH|]. constructor; [|apply IH].
  intros Hq. apply free_ptrs_range in Hq; [|assumption].
  unfold MIN_BLKSIZE in *. lia.
Qed.


Lemma in_payload_range p l a :
  sizes_ok l -> in_payload p l a -> p <= a < p + total l - 8.
Proof.
  intros Hs. revert p. induction Hs as [|b l [Hb _] Hs IH]; intros p Ha;
    cbn [in_payload total] in *; [contradiction|].
  pose proof (sizes_ok_total _ Hs). unfold MIN_BLKSIZE in *.
  destruct Ha as [Ha | Ha]; [lia|]. apply IH in Ha. lia.
Qed.

Lemma in_payload_app p l1 l2 a :
  in_payload p (l1 ++ l2) a <->
  in_payload p l1 a \/ in_payload (p + total l1) l2 a.
Proof.
  revert p. induction l1 as [|b l1 IH]; intros p; cbn [in_payload total app].
  - rewrite Z.add_0_r. tauto.
  - rewrite IH. replace (p + fst b + total l1) with (p + (fst b + total l1)) by lia.
    tauto.
Qed.

(** Writing payload bytes, or bytes outside the segment, leaves the block
    structure alone. *)
Lemma seg_payload_frame m m' p l e :
  (forall a, p - 4 <= a < e - 4 -> in_payload p l a \/ m' a = m a) ->
  seg m p l e -> seg m' p l e.
Proof.
  revert p. induction l as [|b l IH]; intros p Hf H; cbn [seg] in *; [assumption|].
  destruct H as (H1 & H2 & H3 & H4 & H5).
  pose proof (seg_sizes _ _ _ _ H5) as Hs.
  pose proof (seg_end _ _ _ _ H5) as He.
  pose proof (sizes_ok_total _ Hs) as Ht.
  unfold MIN_BLKSIZE in *.
  assert (Hout : forall a, p - 4 <= a < p \/ p + fst b - 8 <= a < p + fst b - 4 ->
                           m' a = m a).
  { intros a Ha. destruct (Hf a) as [Hp | Hp]; [lia| |assumption].
    cbn [in_payload] in Hp. destruct Hp as [Hp | Hp]; [lia|].
    apply in_payload_range in Hp; [lia | assumption]. }
  repeat split; try assumption.
  - rewrite <- H3. apply load32_ext. intros a Ha. apply Hout. lia.
  - rewrite <- H4. apply load32_ext. intros a Ha. apply Hout. lia.
  - apply IH; [|assumption]. intros a Ha.
    destruct (Hf a) as [Hp | Hp]; [lia| |right; assumption].
    cbn [in_payload] in Hp. destruct Hp as [Hp | Hp]; [lia | left; assumption].
Qed.

Lemma free_ptr_payload p l q a :
  sizes_ok l -> In q (free_ptrs p l) -> q <= a < q + 8 -> in_payload p l a.
Proof.
  intros Hs. revert p. induction Hs as [|b l [Hb _] Hs IH]; intros p Hq Ha;
    cbn [free_ptrs in_payload] in *; [contradiction|].
  unfold MIN_BLKSIZE in *.
  destruct (snd b).
  - right. eapply IH; eassumption.
  - destruct Hq as [<- | Hq]; [left; lia|]. right. eapply IH; eassumption.
Qed.

Lemma alloc_ptr_payload p l1 sz l2 a :
  p + total l1 <= a < p + total l1 + sz - 8 ->
  in_payload p (l1 ++ (sz, true) :: l2) a.
Proof.
  intros Ha. apply in_payload_app. right. cbn [in_payload fst]. left. lia.
Qed.

(** ** The linked list *)

Lemma last_cons (l : list Z) x d : last (x :: l) d = last l x.
Proof.
  revert x d. induction l as [|y l IH]; intros x d; [reflexivity|].
  change (last (x :: y :: l) d) with (last (y :: l) d).
  rewrite !IH. reflexivity.
Qed.

Lemma lseg_app m h pr l1 l2 t :
  lseg m h pr (l1 ++ l2) t <->
  exists mid, lseg m h pr l1 mid /\ lseg m mid (last l1 pr) l2 t.
Proof.
  revert h pr. induction l1 as [|x l1 IH]; intros h pr.
  - cbn [app lseg last]. split.
    + intros H. exists h. split; [reflexivity | assumption].
    + intros (mid & -> & H). assumption.
  - cbn [app lseg]. rewrite IH.
    assert (Hl : last (x :: l1) pr = last l1 x) by apply last_cons.
    rewrite Hl. split.
    + intros (H1 & H2 & H3 & mid & H4 & H5). exists mid. tauto.
    + intros (mid & (H1 & H2 & H3 & H4) & H5). repeat split; try assumption.
      exists mid. tauto.
Qed.

Lemma lseg_frame m m' h pr l t :
  (forall q, In q l -> load32 m' q = load32 m q /\
                       load32 m' (q + 4) = load32 m (q + 4)) ->
  lseg m h pr l t -> lseg m' h pr l t.
Proof.
  revert h pr. induction l as [|x l IH]; intros h pr Hf H; cbn [lseg] in *;
    [assumption|].
  destruct H as (H1 & H2 & H3 & H4).
  destruct (Hf x (or_introl eq_refl)) as [E1 E2].
  repeat split; try assumption; [congruence|].
  rewrite E1. apply IH; [|assumption]. intros q Hq. apply Hf. right. assumption.
Qed.

Lemma lseg_nonzero m h pr l t q : lseg m h pr l t -> In q l -> q <> 0.
Proof.
  revert h pr. induction l as [|x l IH]; intros h pr H Hq; [contradiction|].
  destruct H as (H1 & H2 & H3 & H4). destruct Hq as [<- | Hq]; [assumption|].
  eapply IH; eassumption.
Qed.

Lemma lseg_hd m h pr l : lseg m h pr l 0 -> h = hd 0 l.
Proof. destruct l; cbn [lseg hd]; tauto. Qed.

Lemma lseg_det m h pr1 pr2 l1 l2 :
  lseg m h pr1 l1 0 -> lseg m h pr2 l2 0 -> l1 = l2.
Proof.
  revert h pr1 pr2 l2. induction l1 as [|x l1 IH]; intros h pr1 pr2 l2 H1 H2.
  - cbn [lseg] in H1. subst h. destruct l2; [reflexivity|].
    destruct H2 as (H & Hz & _). congruence.
  - destruct H1 as (E1 & N1 & P1 & T1). subst h.
    destruct l2 as [|y l2]; [cbn [lseg] in H2; congruence|].
    destruct H2 as (E2 & N2 & P2 & T2). subst y. f_equal.
    eapply IH; eassumption.
Qed.

Lemma lseg_NoDup m h pr l : lseg m h pr l 0 -> NoDup l.
Proof.
  revert h pr. induction l as [|x l IH]; intros h pr H; [constructor|].
  destruct H as (E & N & P & T). constructor; [|eapply IH; eassumption].
  intros Hin. apply in_split in Hin. destruct Hin as (l1 & l2 & ->).
  pose proof T as T'. apply lseg_app in T'. destruct T' as (mid & T1 & T2).
  destruct T2 as (E2 & _ & _ & T2). subst mid.
  pose proof (lseg_det _ _ _ _ _ _ T T2) as Hd.
  apply (f_equal (@List.length Z)) in Hd. rewrite List.length_app in Hd. cbn in Hd. lia.
Qed.

Lemma NoDup_remove_mid (l1 l2 : list Z) q :
  NoDup (l1 ++ q :: l2) -> remove Z.eq_dec q (l1 ++ q :: l2) = l1 ++ l2.
Proof.
  intros H. pose proof (NoDup_remove_2 _ _ _ H) as Hn.
  rewrite remove_app. cbn [remove]. destruct (Z.eq_dec q q); [|congruence].
  rewrite !notin_remove; [reflexivity | |]; intros Hq; apply Hn, in_or_app; tauto.
Qed.

(** ** The payload of the allocated blocks *)

Lemma alloc_blocks_app p l1 l2 :
  alloc_blocks p (l1 ++ l2) = alloc_blocks p l1 ++ alloc_blocks (p + total l1) l2.
Proof.
  revert p. induction l1 as [|b l1 IH]; intros p; cbn [app alloc_blocks total].
  - rewrite Z.add_0_r. reflexivity.
  - rewrite IH. replace (p + fst b + total l1) with (p + (fst b + total l1)) by lia.
    destruct (snd b); reflexivity.
Qed.

Lemma alloc_blocks_ptrs p l : map fst (alloc_blocks p l) = alloc_ptrs p l.
Proof.
  revert p. induction l as [|b l IH]; intros p; cbn [alloc_blocks alloc_ptrs map];
    [reflexivity|].
  destruct (snd b); cbn [map fst]; rewrite IH; reflexivity.
Qed.

Lemma alloc_blocks_range p l q sz :
  sizes_ok l -> In (q, sz) (alloc_blocks p l) ->
  p <= q /\ MIN_BLKSIZE <= sz /\ q + sz <= p + total l.
Proof.
  intros H. revert p. induction H as [|b l [Hb _] Hl IH]; intros p; cbn [alloc_blocks total].
  - intros [].
  - pose proof (sizes_ok_total _ Hl) as T. unfold MIN_BLKSIZE in *.
    destruct (snd b); cbn [In].
    + intros [E | Hq]; [injection E as <- <-; lia|].
      specialize (IH _ Hq). lia.
    + intros Hq. specialize (IH _ Hq). lia.
Qed.

Lemma In_alloc_blocks p l q sz :
  In (q, sz) (alloc_blocks p l) <-> In (q, (sz, true)) (layout p l).
Proof.
  revert p. induction l as [|[z a] l IH]; intros p; cbn [alloc_blocks layout In fst snd].
  - tauto.
  - destruct a; cbn [In]; rewrite IH.
    + split; (intros [E | H]; [left; injection E as -> ->; reflexivity | right; assumption]).
    + split; [intros H; right; assumption | intros [E | H]; [discriminate | assumption]].
Qed.

Lemma in_use_app p l1 l2 a :
  in_use p (l1 ++ l2) a <-> in_use p l1 a \/ in_use (p + total l1) l2 a.
Proof.
  unfold in_use. rewrite alloc_blocks_app. split.
  - intros (q & sz & H & Ha). apply in_app_or in H.
    destruct H; [left | right]; exists q, sz; tauto.
  - intros [(q & sz & H & Ha) | (q & sz & H & Ha)]; exists q, sz;
      (split; [apply in_or_app; tauto | assumption]).
Qed.

Lemma in_use_range p l a :
  sizes_ok l -> in_use p l a -> p <= a < p + total l - 8.
Proof.
  intros H (q & sz & Hq & Ha). apply alloc_blocks_range in Hq; [|assumption].
  unfold DSIZE, MIN_BLKSIZE in *. lia.
Qed.

(** No byte of a free block, from its header to its footer, and no byte of
    the footer before it, is payload of an allocated block. *)
Lemma in_use_free_block p l1 sz l2 a :
  sizes_ok (l1 ++ (sz, false) :: l2) ->
  in_use p (l1 ++ (sz, false) :: l2) a ->
  a < p + total l1 - 8 \/ p + total l1 + sz <= a.
Proof.
  intros H Ha. apply sizes_ok_app in H. destruct H as [H1 H2].
  inversion H2 as [|? ? _ H3]; subst.
  apply in_use_app in Ha. destruct Ha as [Ha | Ha].
  - apply in_use_range in Ha; [lia | assumption].
  - right. destruct Ha as (q & s & Hq & Ha). cbn [alloc_blocks fst snd] in Hq.
    apply alloc_blocks_range in Hq; [lia | assumption].
Qed.

Lemma in_use_free_ptr p l q a :
  sizes_ok l -> In q (free_ptrs p l) -> in_use p l a ->
  a < q - 8 \/ q + 16 <= a.
Proof.
  intros H. revert p. induction H as [|b l [Hb _] Hl IH]; intros p Hq Ha;
    cbn [free_ptrs] in Hq; [destruct Hq|].
  change (b :: l) with ([b] ++ l) in Ha. apply in_use_app in Ha.
  cbn [total] in Ha. rewrite Z.add_0_r in Ha. unfold MIN_BLKSIZE in Hb.
  pose proof (sizes_ok_total _ Hl) as T.
  assert (X : In q (free_ptrs (p + fst b) l) -> a < q - 8 \/ q + 16 <= a).
  { intros Hq'. destruct Ha as [(x & sz & Hx & Hxa) | Ha]; [|apply (IH _ Hq' Ha)].
    apply free_ptrs_range in Hq'; [|assumption].
    cbn [alloc_blocks] in Hx. destruct (snd b); [|destruct Hx].
    destruct Hx as [E | []]. injection E as <- <-. unfold DSIZE in Hxa. lia. }
  destruct (snd b) eqn:Eb; [exact (X Hq)|].
  destruct Hq as [<- | Hq]; [|exact (X Hq)].
  destruct Ha as [(x & sz & Hx & _) | Ha].
  - cbn [alloc_blocks] in Hx. rewrite Eb in Hx. destruct Hx.
  - apply in_use_range in Ha; [lia | assumption].
Qed.

(** The payload of an allocated block. *)
Lemma in_use_block p l1 sz l2 a :
  p + total l1 <= a < p + total l1 + sz - 8 ->
  in_use p (l1 ++ (sz, true) :: l2) a.
Proof.
  intros Ha. apply in_use_app. right. exists (p + total l1), sz.
  split; [left; reflexivity | unfold DSIZE; lia].
Qed.

(** Whether a block is free or allocated, the other blocks' payload is the
    same. *)
Lemma in_use_flip p l1 sz l2 a :
  in_use p (l1 ++ (sz, false) :: l2) a -> in_use p (l1 ++ (sz, true) :: l2) a.
Proof.
  rewrite !in_use_app. intros [H | (q & s & Hq & Ha)]; [left; assumption|].
  right. exists q, s. split; [right; exact Hq | exact Ha].
Qed.

Lemma in_use_eq p l l' a :
  alloc_blocks p l = alloc_blocks p l' -> in_use p l a -> in_use p l' a.
Proof. unfold in_use. intros ->. tauto. Qed.

Lemma in_use_payload p l a : in_use p l a -> in_payload p l a.
Proof.
  revert p. induction l as [|b l IH]; intros p (q & sz & Hq & Ha);
    cbn [alloc_blocks in_payload] in *; [destruct Hq|].
  destruct (snd b).
  - destruct Hq as [E | Hq].
    + injection E as <- <-. left. unfold DSIZE in Ha. lia.
    + right. apply IH. exists q, sz. tauto.
  - right. apply IH. exists q, sz. tauto.
Qed.

Lemma keeps_refl bl s : keeps bl s s.
Proof. intros a _. reflexivity. Qed.

Lemma keeps_trans bl s1 s2 s3 :
  mem_lo s2 = mem_lo s1 -> keeps bl s1 s2 -> keeps bl s2 s3 -> keeps bl s1 s3.
Proof.
  intros E K1 K2 a Ha. rewrite <- (K1 a Ha). apply K2. rewrite E. exact Ha.
Qed.

Lemma keeps_eq bl bl' s s' :
  alloc_blocks (mem_lo s + 24) bl' = alloc_blocks (mem_lo s + 24) bl ->
  keeps bl s s' -> keeps bl' s s'.
Proof. intros E K a Ha. apply K. eapply in_use_eq; eassumption. Qed.

Lemma keeps_add_out bl s msg : keeps bl s (add_out s msg).
Proof. intros a _. reflexivity. Qed.

(** Two allocated blocks are the same block or do not overlap. *)
Lemma alloc_blocks_sep p l q1 z1 q2 z2 :
  sizes_ok l -> In (q1, z1) (alloc_blocks p l) -> In (q2, z2) (alloc_blocks p l) ->
  (q1 = q2 /\ z1 = z2) \/ q1 + z1 <= q2 \/ q2 + z2 <= q1.
Proof.
  intros H. revert p. induction H as [|b l [Hb _] Hl IH]; intros p; cbn [alloc_blocks].
  - intros [].
  - unfold MIN_BLKSIZE in Hb. destruct (snd b); [|apply IH].
    intros [E1 | H1] [E2 | H2].
    + injection E1 as <- <-. injection E2 as <- <-. left. split; reflexivity.
    + injection E1 as <- <-. apply alloc_blocks_range in H2; [lia | assumption].
    + injection E2 as <- <-. apply alloc_blocks_range in H1; [lia | assumption].
    + apply (IH _ H1 H2).
Qed.

(** The allocated blocks without the block in the middle. *)
Lemma alloc_blocks_remove p l1 sz l2 q z :
  sizes_ok (l1 ++ (sz, true) :: l2) ->
  In (q, z) (alloc_blocks p l1 ++ alloc_blocks (p + total l1 + sz) l2) <->
  In (q, z) (alloc_blocks p (l1 ++ (sz, true) :: l2)) /\ q <> p + total l1.
Proof.
  intros H. apply sizes_ok_app in H. destruct H as [H1 H2].
  inversion H2 as [|? ? [Hs _] H3]; subst. cbn [fst] in Hs. unfold MIN_BLKSIZE in Hs.
  rewrite alloc_blocks_app. cbn [alloc_blocks fst snd].
  rewrite !in_app_iff. cbn [In]. split.
  - intros [Hq | Hq].
    + split; [left; exact Hq|]. apply alloc_blocks_range in Hq; [|assumption].
      unfold MIN_BLKSIZE in Hq. lia.
    + split; [right; right; exact Hq|]. apply alloc_blocks_range in Hq; [lia | assumption].
  - intros [[Hq | [E | Hq]] Hn]; [left; exact Hq | | right; exact Hq].
    injection E as E _. congruence.
Qed.

Lemma alloc_blocks_insert p l1 sz l2 q z :
  In (q, z) (alloc_blocks p (l1 ++ (sz, true) :: l2)) <->
  (q = p + total l1 /\ z = sz) \/
  In (q, z) (alloc_blocks p l1 ++ alloc_blocks (p + total l1 + sz) l2).
Proof.
  rewrite alloc_blocks_app. cbn [alloc_blocks fst snd].
  rewrite !in_app_iff. cbn [In]. split.
  - intros [Hq | [E | Hq]]; [right; left; exact Hq | | right; right; exact Hq].
    injection E as <- <-. left. split; reflexivity.
  - intros [[-> ->] | [Hq | Hq]]; [right; left; reflexivity | left; exact Hq |
                                   right; right; exact Hq].
Qed.

(** The payload of the other allocated blocks, when one block is freed. *)
Lemma in_use_other p l1 sz l2 x z a :
  sizes_ok (l1 ++ (sz, true) :: l2) ->
  In (x, z) (alloc_blocks p (l1 ++ (sz, true) :: l2)) -> x <> p + total l1 ->
  x <= a < x + z - 8 ->
  in_use p (l1 ++ (sz, false) :: l2) a.
Proof.
  intros H Hx Hne Ha. exists x, z. split; [|unfold DSIZE; exact Ha].
  rewrite alloc_blocks_app. cbn [alloc_blocks fst snd].
  apply (alloc_blocks_remove p l1 sz l2 x z H). split; assumption.
Qed.

Lemma alloc_blocks_split p l q sz :
  In (q, sz) (alloc_blocks p l) ->
  exists l1 l2, l = l1 ++ (sz, true) :: l2 /\ q = p + total l1.
Proof.
  revert p. induction l as [|[z a] l IH]; intros p; cbn [alloc_blocks fst snd];
    [intros []|].
  assert (X : In (q, sz) (alloc_blocks (p + z) l) ->
              exists l1 l2, (z, a) :: l = l1 ++ (sz, true) :: l2 /\ q = p + total l1).
  { intros H. destruct (IH _ H) as (l1 & l2 & -> & ->).
    exists ((z, a) :: l1), l2. cbn [app total fst]. split; [reflexivity | lia]. }
  destruct a; [|exact X].
  intros [E | H]; [|exact (X H)].
  injection E as <- <-. exists [], l. cbn [app total]. split; [reflexivity | lia].
Qed.

(** ** Frames for the representation invariant *)

Lemma soft_step_refl bl s : soft_step bl s s.
Proof. split; [apply same_meta_refl | right; reflexivity]. Qed.

Lemma soft_step_trans bl s1 s2 s3 :
  soft_step bl s1 s2 -> soft_step bl s2 s3 -> soft_step bl s1 s3.
Proof.
  intros [M1 F1] [M2 F2]. split; [eapply same_meta_trans; eassumption|].
  intros a. destruct (F1 a) as [H1 | H1]; [left; assumption|].
  destruct (F2 a) as [H2 | H2]; [|right; congruence].
  left. unfold soft in *. destruct M1 as (E & _). rewrite E in H2. assumption.
Qed.

Lemma soft_step_put bl s x v :
  (forall a, x <= a < x + 4 -> soft (mem_lo s) bl a) -> soft_step bl s (put s x v).
Proof.
  intros H. split; [apply same_meta_put|]. intros a.
  destruct (Z.lt_ge_cases a x); [right; apply mem_put_out; lia|].
  destruct (Z.lt_ge_cases a (x + 4)); [left; apply H; lia|].
  right; apply mem_put_out; lia.
Qed.

Lemma soft_root lo bl a : lo + 8 <= a < lo + 12 -> soft lo bl a.
Proof. intros H. right. assumption. Qed.

Lemma soft_link lo bl q a :
  sizes_ok bl -> In q (free_ptrs (lo + 24) bl) -> q <= a < q + 8 ->
  soft lo bl a.
Proof. intros Hs Hq Ha. left. eapply free_ptr_payload; eassumption. Qed.

Lemma rep_sizes s bl fl : rep s bl fl -> sizes_ok bl.
Proof. intros R. eapply seg_sizes. apply (rep_seg _ _ _ R). Qed.

Lemma rep_free_bounds s bl fl q :
  rep s bl fl -> In q (free_ptrs (mem_lo s + 24) bl) ->
  mem_lo s + 24 <= q /\ q + 16 <= mem_brk s /\ 0 < q < 2 ^ 32.
Proof.
  intros R Hq. pose proof (rep_seg _ _ _ R) as Hs.
  pose proof (seg_end _ _ _ _ Hs) as He.
  apply free_ptrs_range in Hq; [|eapply seg_sizes; eassumption].
  pose proof (rep_lo _ _ _ R). pose proof (rep_brk _ _ _ R).
  pose proof (rep_max _ _ _ R). lia.
Qed.

Lemma rep_fl_bounds s bl fl q :
  rep s bl fl -> In q fl ->
  mem_lo s + 24 <= q /\ q + 16 <= mem_brk s /\ 0 < q < 2 ^ 32.
Proof.
  intros R Hq. eapply rep_free_bounds; [eassumption|]. apply (rep_incl _ _ _ R). assumption.
Qed.

Lemma rep_free_sep s bl fl q q' :
  rep s bl fl -> In q (free_ptrs (mem_lo s + 24) bl) ->
  In q' (free_ptrs (mem_lo s + 24) bl) ->
  q = q' \/ q + 16 <= q' \/ q' + 16 <= q.
Proof.
  intros R. apply free_ptrs_sep. eapply seg_sizes. apply (rep_seg _ _ _ R).
Qed.

Lemma rep_brk_lo s bl fl : rep s bl fl -> mem_lo s + 24 <= mem_brk s.
Proof.
  intros R. pose proof (rep_seg _ _ _ R) as Hs.
  pose proof (seg_end _ _ _ _ Hs). 
  pose proof (sizes_ok_total _ (seg_sizes _ _ _ _ Hs)). lia.
Qed.

(** Rebuilding the invariant after writes to payload bytes and the root:
    only the list has to be re-established. *)
Lemma rep_soft s s' bl fl fl' :
  rep s bl fl -> soft_step bl s s' ->
  lseg (mem s') (load32 (mem s') (heap_p s')) 0 fl' 0 ->
  incl fl' (free_ptrs (mem_lo s + 24) bl) ->
  rep s' bl fl'.
Proof.
  intros R [(E1 & E2 & E3 & E4 & E5) F] L I.
  pose proof (rep_brk_lo _ _ _ R) as Hb.
  pose proof (seg_sizes _ _ _ _ (rep_seg _ _ _ R)) as Hs.
  pose proof (seg_end _ _ _ _ (rep_seg _ _ _ R)) as He.
  assert (Hout : forall a, mem_lo s <= a < mem_lo s + 8 \/
                           mem_lo s + 12 <= a < mem_lo s + 24 \/
                           mem_brk s - 8 <= a -> mem s' a = mem s a).
  { intros a Ha. destruct (F a) as [[Hp | Hp] | Hp]; [|lia|assumption].
    apply in_payload_range in Hp; [lia | assumption]. }
  destruct R as [r1 r2 r3 r4 r5 rep_pro_h0 rep_pro_f0 r8 rep_epi0 r10 r11]. constructor; rewrite ?E1, ?E2, ?E3, ?E4; try assumption.
  - rewrite <- rep_pro_h0. apply load32_ext. intros a Ha. apply Hout. lia.
  - rewrite <- rep_pro_f0. apply load32_ext. intros a Ha. apply Hout. lia.
  - eapply seg_payload_frame; [|eassumption]. intros a Ha.
    destruct (F a) as [[Hp | Hp] | Hp]; [left; assumption | lia | right; assumption].
  - rewrite <- rep_epi0. apply load32_ext. intros a Ha. apply Hout. lia.
  - rewrite <- E4. assumption.
Qed.

(** ** [insert_front_list] *)

Ltac ld :=
  repeat first [ rewrite load_put_same
               | rewrite load_put_other by lia ].

(** [insert_front_list] puts a free block first on the list; the only
    bytes it writes are link fields of free blocks and the root. *)
Lemma insert_front_list_spec s bl fl q :
  rep s bl fl -> In q (free_ptrs (mem_lo s + 24) bl) -> ~ In q fl ->
  wp (insert_front_list q) s
     (fun _ s' => rep s' bl (q :: fl) /\ same_meta s s' /\ keeps bl s s').
Proof.
  intros R Hq Hn.
  pose proof (rep_sizes _ _ _ R) as SZ.
  pose proof (rep_free_bounds _ _ _ _ R Hq) as Bq.
  pose proof (rep_hp _ _ _ R) as Hhp.
  pose proof (rep_list _ _ _ R) as L.
  pose proof (lseg_hd _ _ _ _ L) as Hh.
  pose proof (lseg_NoDup _ _ _ _ L) as ND.
  unfold insert_front_list, NEXT, SETNEXT, SETPREV, WSIZE.
  apply wp_bind, wp_get_heap_p. apply wp_bind, wp_GET; [lia | lia |].
  rewrite Hh.
  destruct fl as [|h r]; cbn [hd].
  - (* the list was empty *)
    change (negb (0 =? 0)) with false. cbv iota.
    apply wp_bind, wp_PUT; [lia | lia |].
    apply wp_bind, wp_PUT; [cbn; lia | cbn; lia |].
    apply wp_PUT; [cbn; lia | cbn; lia |].
    set (s3 := put _ (q + 4) 0).
    assert (SS : soft_step bl s s3).
    { subst s3. 
      eapply soft_step_trans; [eapply soft_step_trans|];
      [ apply soft_step_put | apply soft_step_put | apply soft_step_put ];
      intros a Ha; cbn [mem_lo put set_mem] in *;
      first [ eapply soft_link; [eapply rep_sizes; eassumption | eassumption | lia]
            | apply soft_root; lia ]. }
    assert (KS : keeps bl s s3).
    { intros a Ha. pose proof (in_use_range _ _ _ SZ Ha).
      pose proof (in_use_free_ptr _ _ _ _ SZ Hq Ha).
      unfold s3. rewrite !mem_put_out by lia. reflexivity. }
    split; [|split; [apply SS | exact KS]].
    eapply rep_soft; [eassumption | exact SS | |].
    + subst s3. cbn [heap_p put set_mem]. rewrite Hhp.
      cbn [lseg]. ld. rewrite !wrap_small by lia.
      repeat split; try lia.
    + intros x [<- | []]. assumption.
  - (* the list had a first node [h] *)
    assert (Hin : In h (h :: r)) by (left; reflexivity).
    pose proof (rep_fl_bounds _ _ _ _ R Hin) as Bh.
    pose proof (rep_free_sep _ _ _ q h R Hq (rep_incl _ _ _ R h Hin)) as Sep.
    assert (q <> h) by (intros ->; apply Hn; assumption).
    destruct (Z.eqb_spec h 0) as [|_]; [lia|]. cbn [negb]. cbv iota.
    apply wp_bind. apply wp_bind, wp_GET; [lia | lia |]. rewrite Hh. cbn [hd].
    apply wp_bind, wp_PUT; [lia | lia |].
    apply wp_PUT; [cbn; lia | cbn; lia |].
    apply wp_bind, wp_PUT; [cbn; lia | cbn; lia |].
    apply wp_PUT; [cbn; lia | cbn; lia |].
    set (s4 := put _ (q + 4) 0).
    assert (SS : soft_step bl s s4).
    { subst s4.
      eapply soft_step_trans; [eapply soft_step_trans; [eapply soft_step_trans|]|];
      [ apply soft_step_put | apply soft_step_put | apply soft_step_put
        | apply soft_step_put ];
      intros a Ha; cbn [mem_lo put set_mem] in *;
      first [ eapply soft_link; [eapply rep_sizes; eassumption | eassumption | lia]
            | eapply soft_link; [eapply rep_sizes; eassumption
                                | apply (rep_incl _ _ _ R); eassumption | lia]
            | apply soft_root; lia ]. }
    assert (KS : keeps bl s s4).
    { intros a Ha. pose proof (in_use_range _ _ _ SZ Ha).
      pose proof (in_use_free_ptr _ _ _ _ SZ Hq Ha).
      pose proof (in_use_free_ptr _ _ _ _ SZ (rep_incl _ _ _ R h Hin) Ha).
      unfold s4. rewrite !mem_put_out by lia. reflexivity. }
    split; [|split; [apply SS | exact KS]].
    eapply rep_soft; [eassumption | exact SS | |].
    + destruct L as (_ & Hz & Hp & L).
      inversion ND as [|? ? Hnr ND']; subst.
      subst s4. cbn [heap_p put set_mem]. rewrite Hhp.
      cbn [lseg]. ld. rewrite !wrap_small by lia.
      repeat split; try lia.
      eapply lseg_frame; [|eassumption].
      intros x Hx.
      assert (Hx' : In x (h :: r)) by (right; assumption).
      pose proof (rep_fl_bounds _ _ _ _ R Hx') as Bx.
      pose proof (rep_free_sep _ _ _ q x R Hq (rep_incl _ _ _ R x Hx')) as Sx.
      pose proof (rep_free_sep _ _ _ h x R (rep_incl _ _ _ R h Hin)
                    (rep_incl _ _ _ R x Hx')) as Sh.
      assert (x <> h) by (intros ->; contradiction).
      assert (x <> q) by (intros ->; contradiction).
      split; ld; reflexivity.
    + intros x [<- | Hx]; [assumption|]. apply (rep_incl _ _ _ R). assumption.
Qed.

Lemma insert_front_list_ok s bl fl q :
  rep s bl fl -> In q (free_ptrs (mem_lo s + 24) bl) -> ~ In q fl ->
  wp (insert_front_list q) s
     (fun _ s' => rep s' bl (q :: fl) /\ same_meta s s').
Proof.
  intros R Hq Hn. eapply wp_conseq; [apply insert_front_list_spec; eassumption|].
  intros [] s' (R' & M & _). split; assumption.
Qed.

(** ** [rmv_from_list] *)

Lemma wp_and2_links n1 n2 q s Q :
  mem_lo s <= q -> q + 8 <= mem_brk s ->
  Q (truth n1 (load32 (mem s) (q + 4)) && truth n2 (load32 (mem s) q)) s ->
  wp (and2 n1 (PREV q) n2 (NEXT q)) s Q.
Proof.
  intros H1 H2 HQ. unfold and2, PREV, NEXT, WSIZE.
  apply wp_bind, wp_GET; [lia | lia |].
  destruct (truth n1 (load32 (mem s) (q + 4))); cbn [andb] in HQ.
  - apply wp_bind, wp_GET; [lia | lia |]. apply wp_ret. assumption.
  - apply wp_ret. assumption.
Qed.

Lemma NoDup_mid_neq (l1 l2 : list Z) a x :
  NoDup (l1 ++ a :: l2) -> In x (l1 ++ l2) -> x <> a.
Proof. intros H Hx ->. apply (NoDup_remove_2 _ _ _ H). assumption. Qed.

Lemma last_snoc (l : list Z) x d : last (l ++ [x]) d = x.
Proof. apply last_last. Qed.

(** A node of the list and its two links. *)
Lemma lseg_mid m h f1 q f2 :
  lseg m h 0 (f1 ++ q :: f2) 0 ->
  lseg m h 0 f1 q /\ q <> 0 /\ load32 m (q + 4) = last f1 0 /\
  load32 m q = hd 0 f2 /\ lseg m (hd 0 f2) q f2 0.
Proof.
  intros H. apply lseg_app in H. destruct H as (mid & H1 & H2).
  destruct H2 as (-> & Hz & Hp & H2).
  pose proof (lseg_hd _ _ _ _ H2) as Hh. rewrite <- Hh. tauto.
Qed.

Lemma lseg_snoc m h pr l x t :
  lseg m h pr (l ++ [x]) t <->
  lseg m h pr l x /\ x <> 0 /\ load32 m (x + 4) = last l pr /\ load32 m x = t.
Proof.
  rewrite lseg_app. cbn [lseg]. split.
  - intros (mid & H1 & -> & H2 & H3 & H4). tauto.
  - intros (H1 & H2 & H3 & H4). exists x. tauto.
Qed.

Ltac tr :=
  cbn [truth last hd];
  repeat first [ rewrite Z.eqb_refl
               | rewrite (proj2 (Z.eqb_neq _ _)) by lia ];
  cbn [negb andb]; cbv iota.

(** [rmv_from_list] takes a node off the list; the only bytes it writes
    are link fields of free blocks and the root. *)
Lemma rmv_from_list_spec s bl f1 q f2 :
  rep s bl (f1 ++ q :: f2) ->
  wp (rmv_from_list q) s
     (fun _ s' => rep s' bl (f1 ++ f2) /\ same_meta s s' /\ keeps bl s s').
Proof.
  intros R.
  pose proof (rep_hp _ _ _ R) as Hhp.
  pose proof (rep_list _ _ _ R) as L.
  pose proof (lseg_NoDup _ _ _ _ L) as ND.
  pose proof (rep_sizes _ _ _ R) as SZ.
  pose proof (rep_incl _ _ _ R) as INC.
  pose proof (rep_brk_lo _ _ _ R) as Hbl.
  assert (Hq : In q (f1 ++ q :: f2)) by (apply in_or_app; right; left; reflexivity).
  pose proof (rep_fl_bounds _ _ _ _ R Hq) as Bq.
  destruct (lseg_mid _ _ _ _ _ L) as (L1 & Hqz & Hprev & Hnext & L2).
  assert (INC' : incl (f1 ++ f2) (free_ptrs (mem_lo s + 24) bl)).
  { intros x Hx. apply INC. apply in_app_or in Hx. apply in_or_app.
    destruct Hx; [left | right; right]; assumption. }
  assert (SEP : forall x y, In x (f1 ++ q :: f2) -> In y (f1 ++ q :: f2) ->
                            x = y \/ x + 16 <= y \/ y + 16 <= x).
  { intros x y Hx Hy. eapply rep_free_sep; [eassumption | apply INC | apply INC];
      assumption. }
  assert (BND : forall x, In x (f1 ++ q :: f2) ->
                          mem_lo s + 24 <= x /\ x + 16 <= mem_brk s /\ 0 < x < 2 ^ 32).
  { intros x Hx. eapply rep_fl_bounds; eassumption. }
  unfold rmv_from_list.
  apply wp_bind, wp_and2_links; [lia | lia |].
  rewrite Hprev, Hnext.
  destruct f1 as [|p0 f1'] using rev_ind; [|clear IHf1'];
    destruct f2 as [|nx f2']; cbn [last hd]; rewrite ?last_snoc.
  - (* only node *)
    tr.
    apply wp_bind, wp_and2_links; [lia | lia |]. rewrite Hprev, Hnext. tr.
    apply wp_bind, wp_and2_links; [lia | lia |]. rewrite Hprev, Hnext. tr.
    apply wp_bind, wp_get_heap_p. unfold SETNEXT.
    apply wp_PUT; [lia | lia |].
    assert (SS : soft_step bl s (put s (heap_p s) 0)).
    { apply soft_step_put. intros a Ha. apply soft_root. lia. }
    assert (KS : keeps bl s (put s (heap_p s) 0)).
    { intros a Ha. pose proof (in_use_range _ _ _ SZ Ha).
      rewrite !mem_put_out by lia. reflexivity. }
    split; [|split; [apply SS | exact KS]].
    eapply rep_soft; [eassumption | exact SS | | exact INC'].
    cbn [heap_p put set_mem app lseg]. ld. reflexivity.
  - (* first node, with a successor *)
    assert (Hnx : In nx ([] ++ q :: nx :: f2')) by (right; left; reflexivity).
    pose proof (BND _ Hnx) as Bn. pose proof (SEP _ _ Hq Hnx) as Sqn.
    assert (nx <> q).
    { apply (NoDup_mid_neq [] (nx :: f2')); [assumption | left; reflexivity]. }
    tr.
    apply wp_bind, wp_and2_links; [lia | lia |]. rewrite Hprev, Hnext. tr.
    unfold NEXT, SETNEXT, SETPREV, WSIZE.
    apply wp_bind, wp_GET; [lia | lia |]. rewrite Hnext. cbn [hd].
    apply wp_bind, wp_get_heap_p.
    apply wp_bind, wp_PUT; [lia | lia |].
    apply wp_PUT; [cbn; lia | cbn; lia |].
    set (s2 := put _ (nx + 4) 0).
    assert (SS : soft_step bl s s2).
    { subst s2. eapply soft_step_trans; apply soft_step_put; intros a Ha;
        cbn [mem_lo put set_mem];
        [ apply soft_root; lia
        | eapply soft_link; [eassumption | apply INC; eassumption | lia] ]. }
    assert (KS : keeps bl s s2).
    { intros a Ha. pose proof (in_use_range _ _ _ SZ Ha).
      pose proof (in_use_free_ptr _ _ _ _ SZ (INC _ Hnx) Ha).
      unfold s2. rewrite !mem_put_out by lia. reflexivity. }
    split; [|split; [apply SS | exact KS]].
    eapply rep_soft; [eassumption | exact SS | | exact INC'].
    subst s2. cbn [heap_p put set_mem app lseg]. ld. rewrite !wrap_small by lia.
    destruct L2 as (_ & _ & _ & L2).
    repeat split; try lia.
    eapply lseg_frame; [|eassumption]. intros x Hx.
    assert (Hx' : In x ([] ++ q :: nx :: f2')) by (right; right; assumption).
    pose proof (BND _ Hx'). pose proof (SEP _ _ Hx' Hnx).
    assert (x <> nx).
    { apply (NoDup_mid_neq [q] f2'); [assumption | right; assumption]. }
    split; ld; reflexivity.
  - (* last node, with a predecessor *)
    assert (Hp0 : In p0 ((f1' ++ [p0]) ++ [q])).
    { apply in_or_app; left; apply in_or_app; right; left; reflexivity. }
    pose proof (BND _ Hp0) as Bp. pose proof (SEP _ _ Hq Hp0) as Sqp.
    assert (p0 <> q).
    { apply (NoDup_mid_neq (f1' ++ [p0]) []); [assumption|].
      rewrite app_nil_r. apply in_or_app; right; left; reflexivity. }
    tr.
    apply wp_bind, wp_and2_links; [lia | lia |]. rewrite Hprev, Hnext.
    rewrite last_snoc. tr.
    apply wp_bind, wp_and2_links; [lia | lia |]. rewrite Hprev, Hnext.
    rewrite last_snoc. tr.
    unfold PREV, SETNEXT, WSIZE.
    apply wp_bind, wp_GET; [lia | lia |]. rewrite Hprev, last_snoc.
    apply wp_PUT; [lia | lia |].
    assert (SS : soft_step bl s (put s p0 0)).
    { apply soft_step_put. intros a Ha.
      eapply soft_link; [eassumption | apply INC; eassumption | lia]. }
    assert (KS : keeps bl s (put s p0 0)).
    { intros a Ha.
      pose proof (in_use_free_ptr _ _ _ _ SZ (INC _ Hp0) Ha).
      rewrite !mem_put_out by lia. reflexivity. }
    split; [|split; [apply SS | exact KS]].
    eapply rep_soft; [eassumption | exact SS | | exact INC'].
    cbn [heap_p put set_mem]. rewrite app_nil_r.
    apply lseg_snoc in L1. destruct L1 as (L1 & _ & Hpp & Hpn).
    ld. apply lseg_snoc. ld.
    repeat split; try lia.
    eapply lseg_frame; [|eassumption]. intros x Hx.
    assert (Hx' : In x ((f1' ++ [p0]) ++ [q])).
    { apply in_or_app; left; apply in_or_app; left; assumption. }
    pose proof (BND _ Hx'). pose proof (SEP _ _ Hx' Hp0).
    assert (x <> p0).
    { rewrite <- app_assoc in ND.
      apply (NoDup_mid_neq f1' ([] ++ [q])); [assumption|].
      apply in_or_app; left; assumption. }
    split; ld; reflexivity.
  - (* interior node *)
    assert (Hp0 : In p0 ((f1' ++ [p0]) ++ q :: nx :: f2')).
    { apply in_or_app; left; apply in_or_app; right; left; reflexivity. }
    assert (Hnx : In nx ((f1' ++ [p0]) ++ q :: nx :: f2')).
    { apply in_or_app; right; right; left; reflexivity. }
    pose proof (BND _ Hp0) as Bp. pose proof (SEP _ _ Hq Hp0) as Sqp.
    pose proof (BND _ Hnx) as Bn. pose proof (SEP _ _ Hq Hnx) as Sqn.
    pose proof (SEP _ _ Hp0 Hnx) as Spn.
    assert (ND' : NoDup (f1' ++ p0 :: q :: nx :: f2')).
    { rewrite <- app_assoc in ND. exact ND. }
    assert (p0 <> q).
    { apply (NoDup_mid_neq (f1' ++ [p0]) (nx :: f2')); [assumption|].
      apply in_or_app; left; apply in_or_app; right; left; reflexivity. }
    assert (nx <> q).
    { apply (NoDup_mid_neq (f1' ++ [p0]) (nx :: f2')); [assumption|].
      apply in_or_app; right; left; reflexivity. }
    assert (nx <> p0).
    { apply (NoDup_mid_neq f1' (q :: nx :: f2')); [assumption|].
      apply in_or_app; right; right; left; reflexivity. }
    tr.
    unfold PREV, NEXT, SETNEXT, SETPREV, WSIZE.
    apply wp_bind, wp_GET; [lia | lia |]. rewrite Hprev, last_snoc.
    apply wp_bind, wp_GET; [lia | lia |]. rewrite Hnext. cbn [hd].
    apply wp_bind, wp_PUT; [lia | lia |].
    apply wp_PUT; [cbn; lia | cbn; lia |].
    set (s2 := put _ (nx + 4) p0).
    assert (SS : soft_step bl s s2).
    { subst s2. eapply soft_step_trans; apply soft_step_put; intros a Ha;
        cbn [mem_lo put set_mem];
        [ apply (soft_link _ _ p0); [assumption | apply INC; assumption | lia]
        | apply (soft_link _ _ nx); [assumption | apply INC; assumption | lia] ]. }
    assert (KS : keeps bl s s2).
    { intros a Ha.
      pose proof (in_use_free_ptr _ _ _ _ SZ (INC _ Hp0) Ha).
      pose proof (in_use_free_ptr _ _ _ _ SZ (INC _ Hnx) Ha).
      unfold s2. rewrite !mem_put_out by lia. reflexivity. }
    split; [|split; [apply SS | exact KS]].
    eapply rep_soft; [eassumption | exact SS | | exact INC'].
    subst s2. cbn [heap_p put set_mem].
    apply lseg_snoc in L1. destruct L1 as (L1 & _ & Hpp & Hpn).
    destruct L2 as (_ & _ & _ & L2).
    rewrite <- app_assoc. cbn [app]. ld.
    apply lseg_app. exists p0. split.
    + eapply lseg_frame; [|eassumption]. intros x Hx.
      assert (Hx' : In x ((f1' ++ [p0]) ++ q :: nx :: f2')).
      { apply in_or_app; left; apply in_or_app; left; assumption. }
      pose proof (BND _ Hx'). pose proof (SEP _ _ Hx' Hp0).
      pose proof (SEP _ _ Hx' Hnx).
      assert (x <> p0).
      { apply (NoDup_mid_neq f1' (q :: nx :: f2')); [assumption|].
        apply in_or_app; left; assumption. }
      assert (x <> nx).
      { apply (NoDup_mid_neq (f1' ++ [p0; q]) f2').
        - rewrite <- app_assoc. exact ND'.
        - apply in_or_app; left; apply in_or_app; left; assumption. }
      split; ld; reflexivity.
    + cbn [lseg]. ld. rewrite !wrap_small by lia.
      repeat split; try lia.
      eapply lseg_frame; [|eassumption]. intros x Hx.
      assert (Hx' : In x ((f1' ++ [p0]) ++ q :: nx :: f2')).
      { apply in_or_app; right; right; right; assumption. }
      pose proof (BND _ Hx'). pose proof (SEP _ _ Hx' Hp0).
      pose proof (SEP _ _ Hx' Hnx).
      assert (x <> p0).
      { apply (NoDup_mid_neq f1' (q :: nx :: f2')); [assumption|].
        apply in_or_app; right; right; right; assumption. }
      assert (x <> nx).
      { apply (NoDup_mid_neq (f1' ++ [p0; q]) f2').
        - rewrite <- app_assoc. exact ND'.
        - apply in_or_app; right; assumption. }
      split; ld; reflexivity.
Qed.

Lemma rmv_from_list_ok s bl f1 q f2 :
  rep s bl (f1 ++ q :: f2) ->
  wp (rmv_from_list q) s
     (fun _ s' => rep s' bl (f1 ++ f2) /\ same_meta s s').
Proof.
  intros R. eapply wp_conseq; [apply rmv_from_list_spec; eassumption|].
  intros [] s' (R' & M & _). split; assumption.
Qed.

(** ** Reading and rewriting boundary tags *)

Lemma wp_GET_SIZE_PACK p s sz a Q :
  mem_lo s <= p -> p + 4 <= mem_brk s ->
  load32 (mem s) p = PACK sz (b2z a) -> sz mod 8 = 0 ->
  Q sz s -> wp (GET_SIZE p) s Q.
Proof.
  intros H1 H2 Hl Hs HQ. apply wp_GET_SIZE; try assumption.
  rewrite Hl, PACK_size by assumption. assumption.
Qed.

Lemma wp_GET_ALLOC_PACK p s sz a Q :
  mem_lo s <= p -> p + 4 <= mem_brk s ->
  load32 (mem s) p = PACK sz (b2z a) -> sz mod 8 = 0 ->
  Q (b2z a) s -> wp (GET_ALLOC p) s Q.
Proof.
  intros H1 H2 Hl Hs HQ. apply wp_GET_ALLOC; try assumption.
  rewrite Hl, PACK_alloc by assumption. assumption.
Qed.

Lemma wp_FTRP bp s sz a Q :
  mem_lo s <= bp - 4 -> bp <= mem_brk s ->
  load32 (mem s) (bp - 4) = PACK sz (b2z a) -> sz mod 8 = 0 ->
  Q (bp + sz - 8) s -> wp (FTRP bp) s Q.
Proof.
  intros H1 H2 Hl Hs HQ. unfold FTRP, HDRP, WSIZE, DSIZE. apply wp_bind.
  eapply wp_GET_SIZE_PACK; try eassumption; try lia. apply wp_ret. assumption.
Qed.

Lemma wp_NEXT_BLKP bp s sz a Q :
  mem_lo s <= bp - 4 -> bp <= mem_brk s ->
  load32 (mem s) (bp - 4) = PACK sz (b2z a) -> sz mod 8 = 0 ->
  Q (bp + sz) s -> wp (NEXT_BLKP bp) s Q.
Proof.
  intros H1 H2 Hl Hs HQ. unfold NEXT_BLKP, HDRP, WSIZE. apply wp_bind.
  eapply wp_GET_SIZE_PACK; try eassumption; try lia. apply wp_ret. assumption.
Qed.

Lemma wp_PREV_BLKP bp s sz a Q :
  mem_lo s <= bp - 8 -> bp - 4 <= mem_brk s ->
  load32 (mem s) (bp - 8) = PACK sz (b2z a) -> sz mod 8 = 0 ->
  Q (bp - sz) s -> wp (PREV_BLKP bp) s Q.
Proof.
  intros H1 H2 Hl Hs HQ. unfold PREV_BLKP, DSIZE. apply wp_bind.
  eapply wp_GET_SIZE_PACK; try eassumption; try lia. apply wp_ret. assumption.
Qed.

(** What the invariant says about one block of the heap. *)
Lemma rep_block s l1 b l2 fl :
  rep s (l1 ++ b :: l2) fl ->
  let bp := mem_lo s + 24 + total l1 in
  MIN_BLKSIZE <= fst b /\ fst b mod 8 = 0 /\
  load32 (mem s) (bp - 4) = PACK (fst b) (b2z (snd b)) /\
  load32 (mem s) (bp + fst b - 8) = PACK (fst b) (b2z (snd b)) /\
  0 <= total l1 /\ 0 <= total l2 /\
  mem_brk s = bp + fst b + total l2.
Proof.
  intros R bp. pose proof (rep_seg _ _ _ R) as S.
  pose proof (seg_sizes _ _ _ _ S) as SZ.
  apply sizes_ok_app in SZ. destruct SZ as [SZ1 SZ2].
  inversion SZ2 as [|? ? _ SZ3]; subst.
  apply seg_app in S. destruct S as [S1 S2].
  destruct S2 as (H1 & H2 & H3 & H4 & S2).
  apply seg_end in S2. fold bp in H3, H4, S2.
  pose proof (sizes_ok_total _ SZ1). pose proof (sizes_ok_total _ SZ3).
  repeat split; try assumption.
Qed.

(** The word before a block: the footer of the block before it, or of
    the prologue. *)
Lemma rep_prev_tag s l1 l2 fl :
  rep s (l1 ++ l2) fl ->
  let bp := mem_lo s + 24 + total l1 in
  match rev l1 with
  | [] => bp = mem_lo s + 24 /\ load32 (mem s) (bp - 8) = PACK MIN_BLKSIZE 1 /\
          load32 (mem s) (bp - MIN_BLKSIZE - 4) = PACK MIN_BLKSIZE 1
  | b :: _ => MIN_BLKSIZE <= fst b /\ fst b mod 8 = 0 /\
              load32 (mem s) (bp - 8) = PACK (fst b) (b2z (snd b)) /\
              load32 (mem s) (bp - fst b - 4) = PACK (fst b) (b2z (snd b)) /\
              mem_lo s + 24 <= bp - fst b
  end.
Proof.
  intros R bp. destruct l1 as [|b0 l1'] using rev_ind; [|clear IHl1'].
  - cbn [rev]. subst bp. cbn [total]. unfold MIN_BLKSIZE.
    replace (mem_lo s + 24 + 0 - 8) with (mem_lo s + 16) by lia.
    replace (mem_lo s + 24 + 0 - 16 - 4) with (mem_lo s + 4) by lia.
    split; [lia|]. split; [apply (rep_pro_f _ _ _ R) | apply (rep_pro_h _ _ _ R)].
  - rewrite rev_app_distr. cbn [rev app].
    rewrite <- app_assoc in R. cbn [app] in R.
    pose proof (rep_block _ _ _ _ _ R) as B. cbv zeta in B.
    destruct B as (B1 & B2 & B3 & B4 & B5 & B6 & B7).
    subst bp. rewrite total_app. cbn [total]. unfold MIN_BLKSIZE in *.
    replace (mem_lo s + 24 + (total l1' + (fst b0 + 0)) - 8)
      with (mem_lo s + 24 + total l1' + fst b0 - 8) by lia.
    replace (mem_lo s + 24 + (total l1' + (fst b0 + 0)) - fst b0 - 4)
      with (mem_lo s + 24 + total l1' - 4) by lia.
    repeat split; try assumption. lia.
Qed.

(** The word after a block: the header of the next block, or of the
    epilogue. *)
Lemma rep_next_tag s l1 b l2 fl :
  rep s (l1 ++ b :: l2) fl ->
  let nb := mem_lo s + 24 + total l1 + fst b in
  match l2 with
  | [] => nb = mem_brk s /\ load32 (mem s) (nb - 4) = PACK 0 1
  | b' :: _ => MIN_BLKSIZE <= fst b' /\ fst b' mod 8 = 0 /\
               load32 (mem s) (nb - 4) = PACK (fst b') (b2z (snd b')) /\
               nb + fst b' <= mem_brk s
  end.
Proof.
  intros R nb. pose proof (rep_block _ _ _ _ _ R) as B. cbv zeta in B.
  destruct B as (B1 & B2 & B3 & B4 & B5 & B6 & B7).
  destruct l2 as [|b' l2'].
  - cbn [total] in B7. subst nb. split; [lia|].
    replace (mem_lo s + 24 + total l1 + fst b - 4) with (mem_brk s - 4) by lia.
    apply (rep_epi _ _ _ R).
  - replace (l1 ++ b :: b' :: l2') with ((l1 ++ [b]) ++ b' :: l2') in R
      by (rewrite <- app_assoc; reflexivity).
    pose proof (rep_block _ _ _ _ _ R) as B'. cbv zeta in B'.
    rewrite total_app in B'. cbn [total] in B'.
    destruct B' as (C1 & C2 & C3 & C4 & C5 & C6 & C7).
    subst nb.
    replace (mem_lo s + 24 + (total l1 + (fst b + 0)) - 4)
      with (mem_lo s + 24 + total l1 + fst b - 4) in C3 by lia.
    repeat split; try assumption. lia.
Qed.

Lemma sizes_ok_total_mod l : sizes_ok l -> total l mod 8 = 0.
Proof.
  induction 1 as [|b l [_ Hb] _ IH]; cbn [total]; [reflexivity|].
  rewrite Z.add_mod, Hb, IH by lia. reflexivity.
Qed.

Lemma sizes_ok_total_min l : sizes_ok l -> l <> [] -> MIN_BLKSIZE <= total l.
Proof.
  intros H Hn. destruct l as [|b l]; [congruence|].
  inversion H as [|? ? [Hb _] Hs]; subst.
  cbn [total]. pose proof (sizes_ok_total _ Hs). lia.
Qed.

(** Rewriting the boundary tags of a run of blocks [mid] as one block of
    their total size. *)
Lemma rep_merge s l1 mid l2 fl a :
  rep s (l1 ++ mid ++ l2) fl -> mid <> [] ->
  let bp := mem_lo s + 24 + total l1 in
  let sz := total mid in
  (forall q, In q fl ->
             In q (free_ptrs (mem_lo s + 24) l1) \/
             In q (free_ptrs (bp + sz) l2) \/ (q = bp /\ a = false)) ->
  rep (put (put s (bp - 4) (PACK sz (b2z a))) (bp + sz - 8) (PACK sz (b2z a)))
      (l1 ++ (sz, a) :: l2) fl.
Proof.
  intros R Hmid bp sz Hfl.
  pose proof (rep_seg _ _ _ R) as S.
  pose proof (seg_sizes _ _ _ _ S) as SZ.
  apply sizes_ok_app in SZ. destruct SZ as [SZ1 SZ2].
  apply sizes_ok_app in SZ2. destruct SZ2 as [SZm SZ2].
  apply seg_app in S. destruct S as [S1 S2]. fold bp in S1, S2.
  apply seg_app in S2. destruct S2 as [Sm S2]. fold sz in Sm, S2.
  pose proof (seg_end _ _ _ _ S2) as E2.
  pose proof (sizes_ok_total _ SZ1) as T1. pose proof (sizes_ok_total _ SZ2) as T2.
  pose proof (sizes_ok_total_min _ SZm Hmid) as Tm. fold sz in Tm.
  pose proof (sizes_ok_total_mod _ SZm) as Mm. fold sz in Mm.
  pose proof (rep_lo _ _ _ R). pose proof (rep_brk _ _ _ R).
  pose proof (rep_max _ _ _ R). pose proof (rep_hp _ _ _ R) as Hhp.
  unfold MIN_BLKSIZE in *.
  assert (W : wrap (PACK sz (b2z a)) = PACK sz (b2z a)) by (apply wrap_PACK; lia).
  assert (FB : forall q, In q fl ->
                 q + 16 <= bp \/ bp + sz <= q \/ (q = bp /\ a = false)).
  { intros q Hq. destruct (Hfl q Hq) as [Hq1 | [Hq2 | Hq3]].
    - apply free_ptrs_range in Hq1; [lia | assumption].
    - apply free_ptrs_range in Hq2; [lia | assumption].
    - tauto. }
  set (s' := put (put s _ _) _ _).
  constructor; cbn [mem_lo mem_brk mem_max heap_p put set_mem s'];
    try (apply R).
  - unfold s'. ld. apply (rep_pro_h _ _ _ R).
  - unfold s'. ld. apply (rep_pro_f _ _ _ R).
  - apply seg_app. fold bp. split.
    + eapply seg_frame; [|exact S1]. intros x Hx. unfold s'.
      rewrite !mem_put_out by lia. reflexivity.
    + cbn [seg fst snd]. unfold s'. ld. rewrite W.
      repeat split; try assumption; try lia.
      eapply seg_frame; [|exact S2]. intros x Hx.
      rewrite !mem_put_out by lia. reflexivity.
  - unfold s'. ld. apply (rep_epi _ _ _ R).
  - unfold s'. rewrite Hhp. ld. rewrite <- Hhp.
    eapply lseg_frame; [|apply (rep_list _ _ _ R)]. intros q Hq.
    pose proof (FB q Hq). split; ld; reflexivity.
  - intros q Hq. rewrite free_ptrs_app. cbn [free_ptrs fst snd]. fold bp.
    apply in_or_app. destruct (Hfl q Hq) as [Hq1 | [Hq2 | [Hq3 Ha]]].
    + left. assumption.
    + right. destruct a; [assumption | right; assumption].
    + right. subst a. left. symmetry. assumption.
Qed.

(** ** [coalesce] *)

Lemma prev_facts s l1 l2 fl :
  rep s (l1 ++ l2) fl ->
  let bp := mem_lo s + 24 + total l1 in
  let psz := prev_size l1 in
  let pa := negb (prev_is_free l1) in
  MIN_BLKSIZE <= psz /\ psz mod 8 = 0 /\
  load32 (mem s) (bp - 8) = PACK psz (b2z pa) /\
  load32 (mem s) (bp - psz - 4) = PACK psz (b2z pa) /\
  mem_lo s + 8 <= bp - psz /\
  (prev_is_free l1 = true -> l1 = removelast l1 ++ [(psz, false)]).
Proof.
  intros R bp psz pa. pose proof (rep_prev_tag _ _ _ _ R) as T. cbv zeta in T.
  fold bp in T. unfold psz, pa, prev_size, prev_is_free.
  destruct l1 as [|b0 l1'] using rev_ind; [|clear IHl1'].
  - cbn [rev] in *. cbn [last fst negb b2z]. unfold MIN_BLKSIZE in *.
    destruct T as (T1 & T2 & T3).
    repeat split; try assumption; try lia; try reflexivity; try discriminate.
  - rewrite rev_app_distr in *. cbn [rev app] in *.
    rewrite last_last, removelast_last. rewrite Bool.negb_involutive.
    destruct T as (T1 & T2 & T3 & T4 & T5).
    repeat split; try assumption; try lia.
    intros Hf. destruct b0 as [z a]. cbn [snd fst] in *. destruct a; [discriminate|].
    reflexivity.
Qed.

Lemma next_facts s l1 b l2 fl :
  rep s (l1 ++ b :: l2) fl ->
  let nb := mem_lo s + 24 + total l1 + fst b in
  let nsz := next_size l2 in
  let na := negb (next_is_free l2) in
  0 <= nsz /\ nsz mod 8 = 0 /\
  load32 (mem s) (nb - 4) = PACK nsz (b2z na) /\
  nb + nsz <= mem_brk s /\
  (next_is_free l2 = true -> l2 = (nsz, false) :: tl l2).
Proof.
  intros R nb nsz na. pose proof (rep_next_tag _ _ _ _ _ R) as T. cbv zeta in T.
  fold nb in T. unfold nsz, na, next_size, next_is_free.
  destruct l2 as [|b' l2'].
  - cbn [hd fst negb b2z]. destruct T as (T1 & T2).
    repeat split; try assumption; try lia; try reflexivity; try discriminate.
  - cbn [hd tl]. rewrite Bool.negb_involutive. unfold MIN_BLKSIZE in *.
    destruct T as (T1 & T2 & T3 & T4).
    repeat split; try assumption; try lia.
    intros Hf. destruct b' as [z a]. cbn [snd fst] in *. destruct a; [discriminate|].
    reflexivity.
Qed.

Lemma remove_notin_eq (l : list Z) x : ~ In x l -> remove Z.eq_dec x l = l.
Proof. apply notin_remove. Qed.

(** The common tail of the three merging cases. *)
Lemma merge_tail s l1 mid l2 fl bp sz :
  rep s (l1 ++ mid ++ l2) fl -> mid <> [] ->
  bp = mem_lo s + 24 + total l1 -> sz = total mid ->
  (forall q, In q fl ->
             In q (free_ptrs (mem_lo s + 24) l1) \/
             In q (free_ptrs (bp + sz) l2)) ->
  wp (PUT (HDRP bp) (PACK sz 0) ;;;
      f <- FTRP bp ;;
      PUT f (PACK sz 0) ;;;
      insert_front_list bp ;;;
      ret bp) s
     (fun r s' => r = bp /\ rep s' (l1 ++ (sz, false) :: l2) (bp :: fl) /\
                  same_meta s s' /\ keeps (l1 ++ (sz, false) :: l2) s s').
Proof.
  intros R Hmid Hbp Hsz Hfl.
  pose proof (rep_seg _ _ _ R) as S.
  pose proof (seg_sizes _ _ _ _ S) as SZ.
  apply sizes_ok_app in SZ. destruct SZ as [SZ1 SZ2].
  apply sizes_ok_app in SZ2. destruct SZ2 as [SZm SZ2].
  pose proof (seg_end _ _ _ _ S) as E. rewrite !total_app in E.
  pose proof (sizes_ok_total _ SZ1) as T1. pose proof (sizes_ok_total _ SZ2) as T2.
  pose proof (sizes_ok_total_min _ SZm Hmid) as Tm.
  pose proof (sizes_ok_total_mod _ SZm) as Mm.
  pose proof (rep_lo _ _ _ R). pose proof (rep_brk _ _ _ R).
  pose proof (rep_max _ _ _ R).
  unfold MIN_BLKSIZE in *. rewrite <- Hsz in *.
  assert (W : wrap (PACK sz (b2z false)) = PACK sz (b2z false))
    by (apply wrap_PACK; lia).
  pose proof (rep_merge s l1 mid l2 fl false R Hmid) as RM. cbv zeta in RM.
  rewrite <- Hbp, <- Hsz in RM. cbn [b2z] in RM, W.
  assert (Hn : ~ In bp fl).
  { intros Hq. destruct (Hfl _ Hq) as [Hq1 | Hq2];
      apply free_ptrs_range in Hq1 || apply free_ptrs_range in Hq2;
      try assumption; lia. }
  unfold HDRP, WSIZE.
  apply wp_bind, wp_PUT; [lia | lia |].
  apply wp_bind. eapply (wp_FTRP _ _ sz false); cbn [mem_lo mem_brk put set_mem];
    [lia | lia | rewrite load_put_same; exact W | assumption |].
  apply wp_bind, wp_PUT; [cbn; lia | cbn; lia |].
  assert (R2 : rep (put (put s (bp - 4) (PACK sz 0)) (bp + sz - 8) (PACK sz 0))
                   (l1 ++ (sz, false) :: l2) fl).
  { apply RM. intros q Hq. destruct (Hfl q Hq); tauto. }
  assert (K2 : keeps (l1 ++ (sz, false) :: l2) s
                 (put (put s (bp - 4) (PACK sz 0)) (bp + sz - 8) (PACK sz 0))).
  { intros a Ha.
    pose proof (in_use_free_block _ _ _ _ _ (rep_sizes _ _ _ R2) Ha).
    rewrite !mem_put_out by lia. reflexivity. }
  apply wp_bind. eapply wp_conseq.
  - apply insert_front_list_spec.
    + exact R2.
    + cbn [mem_lo put set_mem]. rewrite free_ptrs_app. apply in_or_app. right.
      cbn [free_ptrs snd]. left. symmetry. assumption.
    + exact Hn.
  - intros [] s' (R' & M & K). apply wp_ret.
    split; [reflexivity|]. split; [exact R'|]. split; [exact M|].
    eapply keeps_trans; [|exact K2 | exact K]. reflexivity.
Qed.

Lemma rep_block_at s bl fl la b lb :
  rep s bl fl -> bl = la ++ b :: lb ->
  let bp := mem_lo s + 24 + total la in
  MIN_BLKSIZE <= fst b /\ fst b mod 8 = 0 /\
  load32 (mem s) (bp - 4) = PACK (fst b) (b2z (snd b)) /\
  load32 (mem s) (bp + fst b - 8) = PACK (fst b) (b2z (snd b)) /\
  0 <= total la /\ 0 <= total lb /\
  mem_brk s = bp + fst b + total lb.
Proof. intros R ->. apply (rep_block _ _ _ _ _ R). Qed.

Ltac ab :=
  rewrite ?alloc_blocks_app; cbn [alloc_blocks total fst snd];
  apply (f_equal (app _)); apply (f_equal (fun x => alloc_blocks x _)); lia.

(** [coalesce] follows its four cases, and writes no payload byte of an
    allocated block. *)
Lemma coalesce_spec s l1 sz l2 fl bp :
  coalesce_pre s l1 sz l2 fl bp ->
  wp (coalesce bp) s
     (fun r s' =>
        let '(bl', fl', r') := coalesce_result l1 sz l2 bp fl in
        r = r' /\ rep s' bl' fl' /\ same_meta s s' /\
        keeps (l1 ++ (sz, false) :: l2) s s').
Proof.
  intros (R & Hbp & Hn & Hpf & Hnf).
  pose proof (rep_block _ _ _ _ _ R) as B. cbv zeta in B. cbn [fst snd b2z] in B.
  rewrite <- Hbp in B. destruct B as (B1 & B2 & B3 & B4 & B5 & B6 & B7).
  pose proof (prev_facts _ _ _ _ R) as P. cbv zeta in P. rewrite <- Hbp in P.
  destruct P as (P1 & P2 & P3 & P4 & P5 & P6).
  pose proof (next_facts _ _ _ _ _ R) as N. cbv zeta in N. cbn [fst] in N.
  rewrite <- Hbp in N. destruct N as (N1 & N2 & N3 & N4 & N5).
  pose proof (rep_lo _ _ _ R) as Hlo. pose proof (rep_brk _ _ _ R) as Hbrk.
  pose proof (rep_max _ _ _ R) as Hmax. pose proof (rep_hp _ _ _ R) as Hhp.
  pose proof (rep_sizes _ _ _ R) as SZ.
  pose proof (rep_incl _ _ _ R) as INC.
  pose proof (lseg_NoDup _ _ _ _ (rep_list _ _ _ R)) as ND.
  unfold MIN_BLKSIZE in *.
  set (psz := prev_size l1) in *. set (nsz := next_size l2) in *.
  unfold coalesce.
  apply wp_bind. eapply wp_PREV_BLKP; [| | exact P3 | exact P2 |]; [lia | lia |].
  apply wp_bind. eapply wp_FTRP; [| | exact P4 | exact P2 |]; [lia | lia |].
  replace (bp - psz + psz - 8) with (bp - 8) by lia.
  apply wp_bind. eapply wp_GET_ALLOC_PACK; [| | exact P3 | exact P2 |]; [lia | lia |].
  apply wp_bind. eapply (wp_NEXT_BLKP _ _ _ false); [| | exact B3 | exact B2 |]; [lia | lia |].
  apply wp_bind. unfold HDRP, WSIZE.
  eapply wp_GET_ALLOC_PACK; [| | exact N3 | exact N2 |]; [lia | lia |].
  apply wp_bind. eapply (wp_GET_SIZE_PACK _ _ _ false); [| | exact B3 | exact B2 |]; [lia | lia |].
  unfold coalesce_result. fold psz nsz.
  destruct (prev_is_free l1) eqn:Epf; destruct (next_is_free l2) eqn:Enf;
    cbn [negb b2z andb Z.eqb]; cbv iota.
  - (* both neighbours free *)
    specialize (P6 eq_refl). specialize (Hpf eq_refl).
    specialize (N5 eq_refl). specialize (Hnf eq_refl).
    clearbody psz nsz.
    remember (removelast l1) as l1' eqn:El1. clear El1 Epf.
    remember (tl l2) as l2' eqn:El2. clear El2 Enf. subst l1 l2.
    rewrite total_app in Hbp. cbn [total fst] in Hbp.
    rewrite <- app_assoc in R, INC, SZ. cbn [app] in R, INC, SZ.
    cbn [negb b2z] in *.
    apply wp_bind. eapply (wp_PREV_BLKP _ _ _ false); [| | exact P3 | exact P2 |]; [lia | lia |].
    apply wp_bind. unfold HDRP, WSIZE.
    eapply (wp_GET_SIZE_PACK _ _ _ false); [| | exact P4 | exact P2 |]; [lia | lia |].
    apply wp_bind. eapply (wp_NEXT_BLKP _ _ _ false); [| | exact B3 | exact B2 |]; [lia | lia |].
    apply wp_bind.
    eapply (wp_GET_SIZE_PACK _ _ _ false); [| | exact N3 | exact N2 |]; [lia | lia |].
    rewrite (wrap_small (psz + nsz)) by lia. rewrite wrap_small by lia.
    apply wp_bind. eapply (wp_PREV_BLKP _ _ _ false); [| | exact P3 | exact P2 |]; [lia | lia |].
    assert (Hpn : bp - psz <> bp + sz) by lia.
    apply in_split in Hpf. destruct Hpf as (f1 & f2 & ->).
    apply wp_bind. eapply wp_conseq; [apply rmv_from_list_spec; exact R|].
    intros [] s1 (R1 & M1 & K1). cbv beta.
    pose proof M1 as (E1 & E2 & E3 & E4 & E5).
    assert (Hnf1 : In (bp + sz) (f1 ++ f2)).
    { apply in_app_or in Hnf. apply in_or_app.
      destruct Hnf as [Hnf | [Hnf | Hnf]]; [left; assumption | lia | right; assumption]. }
    pose proof (rep_block_at s1 _ _ (l1' ++ [(psz, false)]) (sz, false)
                  ((nsz, false) :: l2') R1) as B'.
    rewrite <- app_assoc in B'. specialize (B' eq_refl). cbv zeta in B'.
    rewrite total_app in B'. cbn [total fst snd b2z] in B'.
    replace (mem_lo s1 + 24 + (total l1' + (psz + 0))) with bp in B' by lia.
    destruct B' as (_ & _ & B3' & _).
    apply wp_bind. eapply (wp_NEXT_BLKP _ _ _ false); [| | exact B3' | exact B2 |]; [lia | lia |].
    pose proof (lseg_NoDup _ _ _ _ (rep_list _ _ _ R1)) as ND1.
    apply in_split in Hnf1. destruct Hnf1 as (g1 & g2 & Eg).
    rewrite Eg in R1, ND1.
    apply wp_bind. eapply wp_conseq; [apply rmv_from_list_spec; exact R1|].
    intros [] s2 (R2 & M2 & K2). cbv beta.
    pose proof M2 as (F1 & F2 & F3 & F4 & F5).
    pose proof (rep_block_at s2 _ _ l1' (psz, false)
                  ((sz, false) :: (nsz, false) :: l2') R2 eq_refl) as B''.
    cbv zeta in B''. cbn [fst snd b2z] in B''.
    destruct B'' as (_ & _ & _ & B4'' & _).
    replace (mem_lo s2 + 24 + total l1' + psz - 8) with (bp - 8) in B4'' by lia.
    apply wp_bind. eapply (wp_PREV_BLKP _ _ _ false); [| | exact B4'' | exact P2 |]; [lia | lia |].
    eapply wp_conseq.
    + apply (merge_tail s2 l1' [(psz, false); (sz, false); (nsz, false)] l2'
               (g1 ++ g2) (bp - psz) (sz + (psz + nsz))).
      * exact R2.
      * discriminate.
      * lia.
      * cbn [total fst]. lia.
      * intros q Hq.
        assert (Hq1 : In q (f1 ++ f2)).
        { rewrite Eg. apply in_app_or in Hq. apply in_or_app.
          destruct Hq; [left | right; right]; assumption. }
        assert (Hq0 : In q (f1 ++ (bp - psz) :: f2)).
        { apply in_app_or in Hq1. apply in_or_app.
          destruct Hq1; [left | right; right]; assumption. }
        assert (q <> bp + sz) by (apply (NoDup_mid_neq g1 g2); assumption).
        assert (q <> bp - psz) by (apply (NoDup_mid_neq f1 f2); assumption).
        assert (q <> bp) by (intros ->; contradiction).
        apply INC in Hq0. rewrite free_ptrs_app in Hq0. cbn [free_ptrs fst snd] in Hq0.
        rewrite F1, E1.
        replace (bp - psz + (sz + (psz + nsz)))
          with (mem_lo s + 24 + total l1' + psz + sz + nsz) by lia.
        apply in_app_or in Hq0.
        destruct Hq0 as [Hq0 | [Hq0 | [Hq0 | [Hq0 | Hq0]]]];
          [left; assumption | lia | lia | lia | right; assumption].
    + intros r s' (Hr & R' & M' & K').
      rewrite (NoDup_remove_mid f1 f2) by exact ND.
      rewrite Eg. rewrite (NoDup_remove_mid g1 g2) by exact ND1.
      split; [exact Hr|]. split; [exact R'|].
      split; [eapply same_meta_trans; [exact M1|]; eapply same_meta_trans; eassumption|].
      rewrite <- app_assoc. cbn [app].
      eapply keeps_trans; [exact E1 | exact K1 |].
      eapply keeps_trans; [exact F1 | exact K2 |].
      eapply keeps_eq; [|exact K']. ab.
  - (* the block before is free *)
    specialize (P6 eq_refl). specialize (Hpf eq_refl).
    clearbody psz nsz.
    remember (removelast l1) as l1' eqn:El1. clear El1 Epf. subst l1.
    rewrite total_app in Hbp. cbn [total fst] in Hbp.
    rewrite <- app_assoc in R, INC, SZ. cbn [app] in R, INC, SZ.
    cbn [negb b2z] in *.
    apply wp_bind. eapply (wp_PREV_BLKP _ _ _ false); [| | exact P3 | exact P2 |]; [lia | lia |].
    apply wp_bind. unfold HDRP, WSIZE.
    eapply (wp_GET_SIZE_PACK _ _ _ false); [| | exact P4 | exact P2 |]; [lia | lia |].
    rewrite wrap_small by lia.
    apply wp_bind. eapply (wp_PREV_BLKP _ _ _ false); [| | exact P3 | exact P2 |]; [lia | lia |].
    apply in_split in Hpf. destruct Hpf as (f1 & f2 & ->).
    apply wp_bind. eapply wp_conseq; [apply rmv_from_list_spec; exact R|].
    intros [] s1 (R1 & M1 & K1). cbv beta.
    pose proof M1 as (E1 & E2 & E3 & E4 & E5).
    eapply wp_conseq.
    + apply (merge_tail s1 l1' [(psz, false); (sz, false)] l2
               (f1 ++ f2) (bp - psz) (sz + psz)).
      * exact R1.
      * discriminate.
      * lia.
      * cbn [total fst]. lia.
      * intros q Hq.
        assert (Hq0 : In q (f1 ++ (bp - psz) :: f2)).
        { apply in_app_or in Hq. apply in_or_app.
          destruct Hq; [left | right; right]; assumption. }
        assert (q <> bp - psz) by (apply (NoDup_mid_neq f1 f2); assumption).
        assert (q <> bp) by (intros ->; contradiction).
        apply INC in Hq0. rewrite free_ptrs_app in Hq0. cbn [free_ptrs fst snd] in Hq0.
        rewrite E1.
        replace (bp - psz + (sz + psz))
          with (mem_lo s + 24 + total l1' + psz + sz) by lia.
        apply in_app_or in Hq0.
        destruct Hq0 as [Hq0 | [Hq0 | [Hq0 | Hq0]]];
          [left; assumption | lia | lia | right; assumption].
    + intros r s' (Hr & R' & M' & K').
      rewrite (NoDup_remove_mid f1 f2) by exact ND.
      split; [exact Hr|]. split; [exact R'|].
      split; [eapply same_meta_trans; eassumption|].
      rewrite <- app_assoc. cbn [app].
      eapply keeps_trans; [exact E1 | exact K1 |].
      eapply keeps_eq; [|exact K']. ab.
  - (* the block after is free *)
    specialize (N5 eq_refl). specialize (Hnf eq_refl).
    clearbody psz nsz.
    remember (tl l2) as l2' eqn:El2. clear El2 Enf. subst l2.
    cbn [negb b2z] in *.
    apply wp_bind. eapply (wp_NEXT_BLKP _ _ _ false); [| | exact B3 | exact B2 |]; [lia | lia |].
    apply wp_bind. unfold HDRP, WSIZE.
    eapply (wp_GET_SIZE_PACK _ _ _ false); [| | exact N3 | exact N2 |]; [lia | lia |].
    rewrite wrap_small by lia.
    apply wp_bind. eapply (wp_NEXT_BLKP _ _ _ false); [| | exact B3 | exact B2 |]; [lia | lia |].
    apply in_split in Hnf. destruct Hnf as (f1 & f2 & ->).
    apply wp_bind. eapply wp_conseq; [apply rmv_from_list_spec; exact R|].
    intros [] s1 (R1 & M1 & K1). cbv beta.
    pose proof M1 as (E1 & E2 & E3 & E4 & E5).
    eapply wp_conseq.
    + apply (merge_tail s1 l1 [(sz, false); (nsz, false)] l2'
               (f1 ++ f2) bp (sz + nsz)).
      * exact R1.
      * discriminate.
      * lia.
      * cbn [total fst]. lia.
      * intros q Hq.
        assert (Hq0 : In q (f1 ++ (bp + sz) :: f2)).
        { apply in_app_or in Hq. apply in_or_app.
          destruct Hq; [left | right; right]; assumption. }
        assert (q <> bp + sz) by (apply (NoDup_mid_neq f1 f2); assumption).
        assert (q <> bp) by (intros ->; contradiction).
        apply INC in Hq0. rewrite free_ptrs_app in Hq0. cbn [free_ptrs fst snd] in Hq0.
        rewrite E1.
        replace (bp + (sz + nsz))
          with (mem_lo s + 24 + total l1 + sz + nsz) by lia.
        apply in_app_or in Hq0.
        destruct Hq0 as [Hq0 | [Hq0 | [Hq0 | Hq0]]];
          [left; assumption | lia | lia | right; assumption].
    + intros r s' (Hr & R' & M' & K').
      rewrite (NoDup_remove_mid f1 f2) by exact ND.
      split; [exact Hr|]. split; [exact R'|].
      split; [eapply same_meta_trans; eassumption|].
      eapply keeps_trans; [exact E1 | exact K1 |].
      eapply keeps_eq; [|exact K']. ab.
  - (* no free neighbour *)
    apply wp_bind. eapply wp_conseq.
    + apply insert_front_list_spec; [exact R | | exact Hn].
      rewrite free_ptrs_app. apply in_or_app. right. cbn [free_ptrs snd].
      left. symmetry. exact Hbp.
    + intros [] s' (R' & M & K). apply wp_ret.
      split; [reflexivity|]. split; [exact R'|]. split; [exact M | exact K].
Qed.

Lemma coalesce_ok s l1 sz l2 fl bp :
  coalesce_pre s l1 sz l2 fl bp ->
  wp (coalesce bp) s
     (fun r s' =>
        let '(bl', fl', r') := coalesce_result l1 sz l2 bp fl in
        r = r' /\ rep s' bl' fl' /\ same_meta s s').
Proof.
  intros H. eapply wp_conseq; [apply coalesce_spec; exact H|].
  intros r s'. destruct (coalesce_result l1 sz l2 bp fl) as [[bl' fl'] r'].
  intros (Hr & R' & M & _). split; [exact Hr|]. split; assumption.
Qed.

(** ** [place] *)

Lemma frame_refl (A : Z -> Prop) s : forall a, A a \/ mem s a = mem s a.
Proof. intros a. right. reflexivity. Qed.

Lemma frame_put (A : Z -> Prop) s s1 x v :
  (forall a, A a \/ mem s1 a = mem s a) ->
  (forall a, x <= a < x + 4 -> A a) ->
  forall a, A a \/ mem (put s1 x v) a = mem s a.
Proof.
  intros F H a. destruct (Z.lt_ge_cases a x).
  - destruct (F a); [left; assumption|]. right. rewrite mem_put_out by lia. assumption.
  - destruct (Z.lt_ge_cases a (x + 4)); [left; apply H; lia|].
    destruct (F a); [left; assumption|]. right. rewrite mem_put_out by lia. assumption.
Qed.

(** The four-case splice of [place]: the node [nf] takes the place of
    [bp] in the list. *)
Lemma place_links s f1 bp f2 nf :
  lseg (mem s) (load32 (mem s) (heap_p s)) 0 (f1 ++ bp :: f2) 0 ->
  mem_lo s <= heap_p s -> heap_p s + 4 <= mem_brk s ->
  (forall x, In x (nf :: f1 ++ bp :: f2) ->
             mem_lo s <= x /\ x + 8 <= mem_brk s /\ 0 < x < 2 ^ 32 /\
             heap_p s + 4 <= x) ->
  (forall x y, In x (nf :: f1 ++ bp :: f2) -> In y (nf :: f1 ++ bp :: f2) ->
               x <> y -> x + 8 <= y \/ y + 8 <= x) ->
  ~ In nf (f1 ++ bp :: f2) ->
  wp (c1 <- and2 false (PREV bp) false (NEXT bp) ;;
      (if c1 then
         orig_next <- NEXT bp ;;
         orig_prev <- PREV bp ;;
         SETNEXT nf orig_next ;;;
         SETPREV nf orig_prev ;;;
         SETNEXT orig_prev nf ;;;
         SETPREV orig_next nf
       else
         c2 <- and2 true (PREV bp) false (NEXT bp) ;;
         if c2 then
           orig_next <- NEXT bp ;;
           hp <- get_heap_p ;;
           SETNEXT hp nf ;;;
           SETPREV nf 0 ;;;
           SETNEXT nf orig_next ;;;
           SETPREV orig_next nf
         else
           c3 <- and2 false (PREV bp) true (NEXT bp) ;;
           if c3 then
             orig_prev <- PREV bp ;;
             SETNEXT orig_prev nf ;;;
             SETNEXT nf 0 ;;;
             SETPREV nf orig_prev
           else
             hp <- get_heap_p ;;
             SETNEXT hp nf ;;;
             SETNEXT nf 0 ;;;
             SETPREV nf 0)) s
     (fun _ s' =>
        same_meta s s' /\
        lseg (mem s') (load32 (mem s') (heap_p s')) 0 (f1 ++ nf :: f2) 0 /\
        forall a, (nf <= a < nf + 8 \/
                   (exists q, In q (f1 ++ f2) /\ q <= a < q + 8) \/
                   heap_p s <= a < heap_p s + 4) \/ mem s' a = mem s a).
Proof.
  intros L Hh1 Hh2 BND SEP Hnf.
  pose proof (lseg_NoDup _ _ _ _ L) as ND.
  assert (Hbp : In bp (nf :: f1 ++ bp :: f2)).
  { right. apply in_or_app; right; left; reflexivity. }
  assert (Hin_nf : In nf (nf :: f1 ++ bp :: f2)) by (left; reflexivity).
  pose proof (BND _ Hbp) as Bb. pose proof (BND _ Hin_nf) as Bf.
  assert (Nbf : bp <> nf).
  { intros ->. apply Hnf. apply in_or_app; right; left; reflexivity. }
  pose proof (SEP _ _ Hbp Hin_nf Nbf) as Sbf.
  destruct (lseg_mid _ _ _ _ _ L) as (L1 & Hqz & Hprev & Hnext & L2).
  apply wp_bind, wp_and2_links; [lia | lia |].
  rewrite Hprev, Hnext.
  destruct f1 as [|p0 f1'] using rev_ind; [|clear IHf1'];
    destruct f2 as [|nx f2']; cbn [last hd]; rewrite ?last_snoc.
  - (* only node *)
    tr.
    apply wp_bind, wp_and2_links; [lia | lia |]. rewrite Hprev, Hnext. tr.
    apply wp_bind, wp_and2_links; [lia | lia |]. rewrite Hprev, Hnext. tr.
    unfold SETNEXT, SETPREV, WSIZE.
    apply wp_bind, wp_get_heap_p.
    apply wp_bind, wp_PUT; [lia | lia |].
    apply wp_bind, wp_PUT; [cbn; lia | cbn; lia |].
    apply wp_PUT; [cbn; lia | cbn; lia |].
    split; [repeat split|]. split.
    + cbn [heap_p put set_mem app lseg]. ld. rewrite !wrap_small by lia.
      repeat split; lia.
    + repeat apply frame_put; [apply frame_refl | | |]; intros a Ha; lia.
  - (* first node, with a successor *)
    assert (Hnx : In nx (nf :: [] ++ bp :: nx :: f2')) by (right; right; left; reflexivity).
    pose proof (BND _ Hnx) as Bn.
    assert (Nbn : bp <> nx).
    { apply not_eq_sym.
      apply (NoDup_mid_neq [] (nx :: f2')); [assumption | left; reflexivity]. }
    assert (Nfn : nf <> nx).
    { intros ->. apply Hnf. right; left; reflexivity. }
    pose proof (SEP _ _ Hbp Hnx Nbn) as Sbn.
    pose proof (SEP _ _ Hin_nf Hnx Nfn) as Sfn.
    tr.
    apply wp_bind, wp_and2_links; [lia | lia |]. rewrite Hprev, Hnext. tr.
    unfold NEXT, SETNEXT, SETPREV, WSIZE.
    apply wp_bind, wp_GET; [lia | lia |]. rewrite Hnext. cbn [hd].
    apply wp_bind, wp_get_heap_p.
    apply wp_bind, wp_PUT; [lia | lia |].
    apply wp_bind, wp_PUT; [cbn; lia | cbn; lia |].
    apply wp_bind, wp_PUT; [cbn; lia | cbn; lia |].
    apply wp_PUT; [cbn; lia | cbn; lia |].
    split; [repeat split|]. split.
    + cbn [heap_p put set_mem app lseg]. ld. rewrite !wrap_small by lia.
      destruct L2 as (_ & _ & _ & L2).
      repeat split; try lia.
      eapply lseg_frame; [|eassumption]. intros x Hx.
      assert (Hx' : In x (nf :: [] ++ bp :: nx :: f2')) by (right; right; right; assumption).
      assert (N1 : x <> nx).
      { apply (NoDup_mid_neq [bp] f2'); [assumption | right; assumption]. }
      assert (N2 : x <> nf).
      { intros ->. apply Hnf. right; right; assumption. }
      pose proof (BND _ Hx') as Bx.
      pose proof (SEP _ _ Hx' Hnx N1) as D1. pose proof (SEP _ _ Hx' Hin_nf N2) as D2.
      clear - D1 D2 Bx. split; ld; reflexivity.
    + repeat apply frame_put; [apply frame_refl | | | |]; intros a Ha; try lia.
      right. left. exists nx. split; [left; reflexivity | lia].
  - (* last node, with a predecessor *)
    assert (Hp0 : In p0 (nf :: (f1' ++ [p0]) ++ [bp])).
    { right. apply in_or_app; left; apply in_or_app; right; left; reflexivity. }
    pose proof (BND _ Hp0) as Bp.
    assert (Nbp : bp <> p0).
    { apply not_eq_sym. apply (NoDup_mid_neq (f1' ++ [p0]) []); [assumption|].
      rewrite app_nil_r. apply in_or_app; right; left; reflexivity. }
    assert (Nfp : nf <> p0).
    { intros ->. apply Hnf. apply in_or_app; left; apply in_or_app; right; left; reflexivity. }
    pose proof (SEP _ _ Hbp Hp0 Nbp) as Sbp.
    pose proof (SEP _ _ Hin_nf Hp0 Nfp) as Sfp.
    tr.
    apply wp_bind, wp_and2_links; [lia | lia |]. rewrite Hprev, Hnext.
    rewrite last_snoc. tr.
    apply wp_bind, wp_and2_links; [lia | lia |]. rewrite Hprev, Hnext.
    rewrite last_snoc. tr.
    unfold PREV, SETNEXT, SETPREV, WSIZE.
    apply wp_bind, wp_GET; [lia | lia |]. rewrite Hprev, last_snoc.
    apply wp_bind, wp_PUT; [lia | lia |].
    apply wp_bind, wp_PUT; [cbn; lia | cbn; lia |].
    apply wp_PUT; [cbn; lia | cbn; lia |].
    split; [repeat split|]. split.
    + cbn [heap_p put set_mem].
      apply lseg_snoc in L1. destruct L1 as (L1 & _ & Hpp & Hpn).
      rewrite <- app_assoc. cbn [app]. ld.
      apply lseg_app. exists p0. split.
      * eapply lseg_frame; [|eassumption]. intros x Hx.
        assert (Hx' : In x (nf :: (f1' ++ [p0]) ++ [bp])).
        { right. apply in_or_app; left; apply in_or_app; left; assumption. }
        assert (N1 : x <> p0).
        { rewrite <- app_assoc in ND.
          apply (NoDup_mid_neq f1' ([] ++ [bp])); [assumption|].
          apply in_or_app; left; assumption. }
        assert (N2 : x <> nf).
        { intros ->. apply Hnf. apply in_or_app; left; apply in_or_app; left; assumption. }
        pose proof (BND _ Hx') as Bx.
        pose proof (SEP _ _ Hx' Hp0 N1) as D1. pose proof (SEP _ _ Hx' Hin_nf N2) as D2.
        clear - D1 D2 Bx. split; ld; reflexivity.
      * cbn [lseg]. ld. rewrite !wrap_small by lia. repeat split; lia.
    + repeat apply frame_put; [apply frame_refl | | |]; intros a Ha; try lia.
      right. left. exists p0. split; [|lia].
      rewrite app_nil_r. apply in_or_app; right; left; reflexivity.
  - (* interior node *)
    assert (Hp0 : In p0 (nf :: (f1' ++ [p0]) ++ bp :: nx :: f2')).
    { right. apply in_or_app; left; apply in_or_app; right; left; reflexivity. }
    assert (Hnx : In nx (nf :: (f1' ++ [p0]) ++ bp :: nx :: f2')).
    { right. apply in_or_app; right; right; left; reflexivity. }
    pose proof (BND _ Hp0) as Bp. pose proof (BND _ Hnx) as Bn.
    assert (ND' : NoDup (f1' ++ p0 :: bp :: nx :: f2')).
    { rewrite <- app_assoc in ND. exact ND. }
    assert (Nbp : bp <> p0).
    { apply not_eq_sym.
      apply (NoDup_mid_neq (f1' ++ [p0]) (nx :: f2')); [assumption|].
      apply in_or_app; left; apply in_or_app; right; left; reflexivity. }
    assert (Nbn : bp <> nx).
    { apply not_eq_sym.
      apply (NoDup_mid_neq (f1' ++ [p0]) (nx :: f2')); [assumption|].
      apply in_or_app; right; left; reflexivity. }
    assert (Npn : p0 <> nx).
    { apply not_eq_sym.
      apply (NoDup_mid_neq f1' (bp :: nx :: f2')); [assumption|].
      apply in_or_app; right; right; left; reflexivity. }
    assert (Nfp : nf <> p0).
    { intros ->. apply Hnf. apply in_or_app; left; apply in_or_app; right; left; reflexivity. }
    assert (Nfn : nf <> nx).
    { intros ->. apply Hnf. apply in_or_app; right; right; left; reflexivity. }
    pose proof (SEP _ _ Hbp Hp0 Nbp) as Sbp. pose proof (SEP _ _ Hbp Hnx Nbn) as Sbn.
    pose proof (SEP _ _ Hp0 Hnx Npn) as Spn.
    pose proof (SEP _ _ Hin_nf Hp0 Nfp) as Sfp. pose proof (SEP _ _ Hin_nf Hnx Nfn) as Sfn.
    tr.
    unfold PREV, NEXT, SETNEXT, SETPREV, WSIZE.
    apply wp_bind, wp_GET; [lia | lia |]. rewrite Hnext. cbn [hd].
    apply wp_bind, wp_GET; [lia | lia |]. rewrite Hprev, last_snoc.
    apply wp_bind, wp_PUT; [lia | lia |].
    apply wp_bind, wp_PUT; [cbn; lia | cbn; lia |].
    apply wp_bind, wp_PUT; [cbn; lia | cbn; lia |].
    apply wp_PUT; [cbn; lia | cbn; lia |].
    split; [repeat split|]. split.
    + cbn [heap_p put set_mem].
      apply lseg_snoc in L1. destruct L1 as (L1 & _ & Hpp & Hpn).
      destruct L2 as (_ & _ & _ & L2).
      rewrite <- app_assoc. cbn [app]. ld.
      apply lseg_app. exists p0. split.
      * eapply lseg_frame; [|eassumption]. intros x Hx.
        assert (Hx' : In x (nf :: (f1' ++ [p0]) ++ bp :: nx :: f2')).
        { right. apply in_or_app; left; apply in_or_app; left; assumption. }
        assert (N1 : x <> p0).
        { apply (NoDup_mid_neq f1' (bp :: nx :: f2')); [assumption|].
          apply in_or_app; left; assumption. }
        assert (N2 : x <> nx).
        { apply (NoDup_mid_neq (f1' ++ [p0; bp]) f2').
          - rewrite <- app_assoc. exact ND'.
          - apply in_or_app; left; apply in_or_app; left; assumption. }
        assert (N3 : x <> nf).
        { intros ->. apply Hnf. apply in_or_app; left; apply in_or_app; left; assumption. }
        pose proof (BND _ Hx') as Bx.
        pose proof (SEP _ _ Hx' Hp0 N1) as D1. pose proof (SEP _ _ Hx' Hnx N2) as D2.
        pose proof (SEP _ _ Hx' Hin_nf N3) as D3.
        clear - D1 D2 D3 Bx. split; ld; reflexivity.
      * cbn [lseg]. ld. rewrite !wrap_small by lia.
        repeat split; try lia.
        eapply lseg_frame; [|eassumption]. intros x Hx.
        assert (Hx' : In x (nf :: (f1' ++ [p0]) ++ bp :: nx :: f2')).
        { right. apply in_or_app; right; right; right; assumption. }
        assert (N1 : x <> p0).
        { apply (NoDup_mid_neq f1' (bp :: nx :: f2')); [assumption|].
          apply in_or_app; right; right; right; assumption. }
        assert (N2 : x <> nx).
        { apply (NoDup_mid_neq (f1' ++ [p0; bp]) f2').
          - rewrite <- app_assoc. exact ND'.
          - apply in_or_app; right; assumption. }
        assert (N3 : x <> nf).
        { intros ->. apply Hnf. apply in_or_app; right; right; right; assumption. }
        pose proof (BND _ Hx') as Bx.
        pose proof (SEP _ _ Hx' Hp0 N1) as D1. pose proof (SEP _ _ Hx' Hnx N2) as D2.
        pose proof (SEP _ _ Hx' Hin_nf N3) as D3.
        clear - D1 D2 D3 Bx. split; ld; reflexivity.
    + repeat apply frame_put; [apply frame_refl | | | |]; intros a Ha; try lia.
      * right. left. exists p0. split; [|lia].
        apply in_or_app; left; apply in_or_app; right; left; reflexivity.
      * right. left. exists nx. split; [|lia].
        apply in_or_app; right; left; reflexivity.
Qed.

Lemma place_nosplit_ok s l1 csize l2 f1 bp f2 :
  rep s (l1 ++ (csize, false) :: l2) (f1 ++ bp :: f2) ->
  bp = mem_lo s + 24 + total l1 ->
  wp (rmv_from_list bp ;;;
      PUT (HDRP bp) (PACK csize 1) ;;;
      f <- FTRP bp ;;
      PUT f (PACK csize 1)) s
     (fun _ s' => same_meta s s' /\ rep s' (l1 ++ (csize, true) :: l2) (f1 ++ f2) /\
                  keeps (l1 ++ (csize, false) :: l2) s s').
Proof.
  intros R Hbp.
  pose proof (rep_block _ _ _ _ _ R) as B. cbv zeta in B. cbn [fst snd b2z] in B.
  rewrite <- Hbp in B. destruct B as (B1 & B2 & B3 & B4 & B5 & B6 & B7).
  pose proof (rep_lo _ _ _ R) as Hlo. pose proof (rep_brk _ _ _ R) as Hbrk.
  pose proof (rep_max _ _ _ R) as Hmax.
  pose proof (rep_sizes _ _ _ R) as SZ.
  pose proof (rep_incl _ _ _ R) as INC.
  pose proof (lseg_NoDup _ _ _ _ (rep_list _ _ _ R)) as ND.
  unfold MIN_BLKSIZE in *.
  apply wp_bind. eapply wp_conseq; [apply rmv_from_list_spec; exact R|].
  intros [] s1 (R1 & M1 & K1). cbv beta.
  pose proof M1 as (E1 & E2 & E3 & E4 & E5).
  assert (W : wrap (PACK csize (b2z true)) = PACK csize (b2z true))
    by (apply wrap_PACK; lia).
  cbn [b2z] in W.
  unfold HDRP, WSIZE.
  apply wp_bind, wp_PUT; [lia | lia |].
  apply wp_bind. eapply (wp_FTRP _ _ csize true); cbn [mem_lo mem_brk put set_mem];
    [lia | lia | rewrite load_put_same; exact W | assumption |].
  apply wp_PUT; [cbn; lia | cbn; lia |].
  split; [eapply same_meta_trans; [exact M1 | repeat split]|].
  split.
  2:{ intros a Ha. pose proof (in_use_free_block _ _ _ _ _ SZ Ha).
      rewrite !mem_put_out by lia. apply K1. exact Ha. }
  pose proof (rep_merge s1 l1 [(csize, false)] l2 (f1 ++ f2) true R1) as RM.
  cbv zeta in RM. cbn [total fst b2z] in RM. rewrite Z.add_0_r in RM.
  rewrite E1, <- Hbp in RM. apply RM; [discriminate|].
  intros q Hq.
  assert (Hq0 : In q (f1 ++ bp :: f2)).
  { apply in_app_or in Hq. apply in_or_app.
    destruct Hq; [left | right; right]; assumption. }
  assert (q <> bp) by (apply (NoDup_mid_neq f1 f2); assumption).
  apply INC in Hq0. rewrite free_ptrs_app in Hq0. cbn [free_ptrs fst snd] in Hq0.
  rewrite <- Hbp in Hq0. apply in_app_or in Hq0.
  destruct Hq0 as [Hq0 | [Hq0 | Hq0]]; [left; assumption | congruence | right; left; assumption].
Qed.

Lemma sub_mod8 a b : a mod 8 = 0 -> b mod 8 = 0 -> (a - b) mod 8 = 0.
Proof. intros Ha Hb. rewrite Zminus_mod, Ha, Hb. reflexivity. Qed.

Lemma add_mod8 a b : a mod 8 = 0 -> b mod 8 = 0 -> (a + b) mod 8 = 0.
Proof. intros Ha Hb. rewrite Z.add_mod, Ha, Hb by lia. reflexivity. Qed.

Lemma wp_bind_assoc {A B C} (c : M A) (f : A -> M B) (g : B -> M C) s Q :
  wp (bind (bind c f) g) s Q -> wp (bind c (fun x => bind (f x) g)) s Q.
Proof.
  intros (x & s' & H & HQ). exists x, s'. split; [|assumption].
  unfold bind in *. destruct (c s) as [[a s1]|]; assumption.
Qed.

(** [place] allocates in the free block [bp], splitting it when the rest
    can stand as a block, and writes no payload byte of an allocated
    block. *)
Lemma place_spec s l1 csize l2 f1 bp f2 asize :
  rep s (l1 ++ (csize, false) :: l2) (f1 ++ bp :: f2) ->
  bp = mem_lo s + 24 + total l1 ->
  MIN_BLKSIZE <= asize <= csize -> asize mod 8 = 0 ->
  wp (place bp asize) s
     (fun _ s' =>
        same_meta s s' /\
        (if MIN_BLKSIZE <=? csize - asize
         then rep s' (l1 ++ (asize, true) :: (csize - asize, false) :: l2)
                     (f1 ++ (bp + asize) :: f2)
         else rep s' (l1 ++ (csize, true) :: l2) (f1 ++ f2)) /\
        keeps (l1 ++ (csize, false) :: l2) s s').
Proof.
  intros R Hbp Hsz Ha.
  pose proof (rep_sizes _ _ _ R) as SZ0.
  pose proof (rep_block _ _ _ _ _ R) as B. cbv zeta in B. cbn [fst snd b2z] in B.
  rewrite <- Hbp in B. destruct B as (B1 & B2 & B3 & B4 & B5 & B6 & B7).
  pose proof (rep_lo _ _ _ R) as Hlo. pose proof (rep_brk _ _ _ R) as Hbrk.
  pose proof (rep_max _ _ _ R) as Hmax. pose proof (rep_hp _ _ _ R) as Hhp.
  pose proof (rep_sizes _ _ _ R) as SZ.
  pose proof (rep_incl _ _ _ R) as INC.
  pose proof (rep_list _ _ _ R) as L.
  pose proof (lseg_NoDup _ _ _ _ L) as ND.
  pose proof (rep_seg _ _ _ R) as S.
  apply seg_app in S. destruct S as [S1 S2]. rewrite <- Hbp in S1, S2.
  destruct S2 as (_ & _ & _ & _ & S2). cbn [fst] in S2.
  apply sizes_ok_app in SZ. destruct SZ as [SZ1 SZ2].
  inversion SZ2 as [|? ? _ SZ3]; subst x l.
  unfold place, HDRP, WSIZE.
  apply wp_bind. eapply (wp_GET_SIZE_PACK _ _ _ false); [| | exact B3 | exact B2 |];
    [unfold MIN_BLKSIZE in *; lia | unfold MIN_BLKSIZE in *; lia |].
  rewrite wrap_small by (unfold MIN_BLKSIZE in *; lia).
  rewrite Z.geb_leb.
  destruct (Z.leb_spec MIN_BLKSIZE (csize - asize)) as [Hrem | Hrem].
  2:{ eapply wp_conseq; [apply place_nosplit_ok; eassumption|].
      intros [] s' (M & R' & K). split; [assumption|]. split; assumption. }
  unfold MIN_BLKSIZE in *.
  remember (bp + asize) as nf eqn:Enf. remember (csize - asize) as rem eqn:Erem.
  assert (Hrm : rem mod 8 = 0) by (rewrite Erem; apply sub_mod8; assumption).
  assert (W1 : wrap (PACK asize (b2z true)) = PACK asize (b2z true))
    by (apply wrap_PACK; lia).
  assert (W2 : wrap (PACK rem (b2z false)) = PACK rem (b2z false))
    by (apply wrap_PACK; lia).
  cbn [b2z] in W1, W2.
  (* where the list nodes lie *)
  assert (AR : forall q, In q (f1 ++ bp :: f2) ->
                 (In q (free_ptrs (mem_lo s + 24) l1) /\ q + 16 <= bp) \/
                 q = bp \/
                 (In q (free_ptrs (bp + csize) l2) /\ bp + csize <= q)).
  { intros q Hq. apply INC in Hq.
    apply free_ptrs_around in Hq; [|apply sizes_ok_app; split; assumption].
    cbn [fst snd] in Hq. rewrite <- Hbp in Hq. tauto. }
  assert (AR' : forall q, In q (f1 ++ f2) ->
                 (In q (free_ptrs (mem_lo s + 24) l1) /\ q + 16 <= bp) \/
                 (In q (free_ptrs (bp + csize) l2) /\ bp + csize <= q)).
  { intros q Hq.
    assert (Hq0 : In q (f1 ++ bp :: f2)).
    { apply in_app_or in Hq. apply in_or_app.
      destruct Hq; [left | right; right]; assumption. }
    assert (q <> bp) by (apply (NoDup_mid_neq f1 f2); assumption).
    destruct (AR q Hq0) as [H1 | [H1 | H1]]; [left; assumption | congruence | right; assumption]. }
  assert (BND : forall q, In q (f1 ++ bp :: f2) ->
                 mem_lo s + 24 <= q /\ q + 16 <= mem_brk s /\ 0 < q < 2 ^ 32).
  { intros q Hq. eapply rep_fl_bounds; eassumption. }
  apply wp_bind, wp_PUT; [lia | lia |].
  apply wp_bind. eapply (wp_FTRP _ _ asize true); cbn [mem_lo mem_brk put set_mem];
    [lia | lia | rewrite load_put_same; exact W1 | assumption |].
  apply wp_bind, wp_PUT; [cbn; lia | cbn; lia |].
  apply wp_bind. eapply (wp_NEXT_BLKP _ _ asize true); cbn [mem_lo mem_brk put set_mem];
    [lia | lia | ld; exact W1 | assumption |].
  rewrite <- Enf. set (s2 := put (put s _ _) _ _).
  apply wp_bind_assoc.
  apply wp_bind. eapply wp_conseq.
  { apply (place_links s2 f1 bp f2 nf).
    - unfold s2. cbn [heap_p put set_mem]. rewrite Hhp. ld. rewrite <- Hhp.
      eapply lseg_frame; [|exact L]. intros q Hq.
      pose proof (AR q Hq) as A. clear - A Hsz Enf. split; ld; reflexivity.
    - cbn. lia.
    - cbn. lia.
    - intros x [<- | Hx]; cbn [mem_lo mem_brk heap_p put set_mem s2].
      + lia.
      + pose proof (BND x Hx). lia.
    - intros x y Hx Hy Hne.
      assert (C : forall z, In z (nf :: f1 ++ bp :: f2) ->
                    z = nf \/ z + 16 <= bp \/ z = bp \/ bp + csize <= z).
      { intros z [<- | Hz]; [left; reflexivity|].
        destruct (AR z Hz) as [H1 | [H1 | H1]]; tauto. }
      destruct Hx as [<- | Hx], Hy as [<- | Hy].
      + congruence.
      + pose proof (C y (or_intror Hy)). lia.
      + pose proof (C x (or_intror Hx)). lia.
      + pose proof (rep_free_sep _ _ _ x y R (INC _ Hx) (INC _ Hy)). lia.
    - intros Hq. destruct (AR _ Hq) as [H1 | [H1 | H1]]; lia. }
  intros [] sm (M & Lm & Fm). cbv beta.
  pose proof M as (E1 & E2 & E3 & E4 & E5).
  cbn [mem_lo mem_brk mem_max heap_p out put set_mem s2] in E1, E2, E3, E4, E5.
  apply wp_bind, wp_PUT; [lia | lia |].
  apply wp_bind. eapply (wp_FTRP _ _ rem false); cbn [mem_lo mem_brk put set_mem];
    [lia | lia | rewrite load_put_same; exact W2 | assumption |].
  apply wp_PUT; [cbn; lia | cbn; lia |].
  split; [repeat split; assumption|].
  (* what the link writes can have touched *)
  assert (G : forall a, (nf <= a < nf + 8 \/ mem_lo s + 8 <= a < mem_lo s + 12 \/
                         (exists q, In q (free_ptrs (mem_lo s + 24) l1) /\ q <= a < q + 8) \/
                         (exists q, In q (free_ptrs (bp + csize) l2) /\ q <= a < q + 8)) \/
                        mem sm a = mem s2 a).
  { intros a. destruct (Fm a) as [[H1 | [(q & Hq & H1) | H1]] | H1].
    - left. left. assumption.
    - left. right. right. destruct (AR' q Hq) as [[Hq1 _] | [Hq2 _]];
        [left | right]; exists q; split; assumption.
    - left. right. left. cbn [heap_p put set_mem s2] in H1. lia.
    - right. assumption. }
  assert (K : forall p, p = mem_lo s + 4 \/ p = mem_lo s + 16 \/
                        p = bp - 4 \/ p = nf - 8 \/ p = mem_brk s - 4 ->
                        load32 (mem sm) p = load32 (mem s2) p).
  { intros p Hp. apply load32_ext. intros a Hpa.
    destruct (G a) as [[H1 | [H1 | [(q & Hq & H1) | (q & Hq & H1)]]] | H1];
      [lia | lia | | | assumption].
    - apply free_ptrs_range in Hq; [|assumption]. lia.
    - apply free_ptrs_range in Hq; [|assumption]. lia. }
  set (s8 := put (put sm _ _) _ _).
  split.
  2:{ intros a Hu. pose proof (in_use_free_block _ _ _ _ _ SZ0 Hu) as Hb.
      pose proof (in_use_range _ _ _ SZ0 Hu) as Hr.
      unfold s8. rewrite !mem_put_out by lia.
      destruct (G a) as [[H1 | [H1 | [(q & Hq & H1) | (q & Hq & H1)]]] | H1].
      - lia.
      - lia.
      - assert (Hq' : In q (free_ptrs (mem_lo s + 24) (l1 ++ (csize, false) :: l2))).
        { rewrite free_ptrs_app. apply in_or_app. left. exact Hq. }
        pose proof (in_use_free_ptr _ _ _ _ SZ0 Hq' Hu). lia.
      - assert (Hq' : In q (free_ptrs (mem_lo s + 24) (l1 ++ (csize, false) :: l2))).
        { rewrite free_ptrs_app. apply in_or_app. right. cbn [free_ptrs fst snd].
          right. rewrite <- Hbp. exact Hq. }
        pose proof (in_use_free_ptr _ _ _ _ SZ0 Hq' Hu). lia.
      - rewrite H1. unfold s2. rewrite !mem_put_out by lia. reflexivity. }
  constructor; cbn [mem_lo mem_brk mem_max heap_p put set_mem s8];
    rewrite ?E1, ?E2, ?E3, ?E4; try assumption;
    try apply (rep_align _ _ _ R).
  - unfold s8. ld. rewrite K by lia. unfold s2. ld.
    apply (rep_pro_h _ _ _ R).
  - unfold s8. ld. rewrite K by lia. unfold s2. ld.
    apply (rep_pro_f _ _ _ R).
  - apply seg_app. rewrite <- Hbp. split.
    + eapply seg_payload_frame; [|exact S1]. intros a Hpa. unfold s8.
      rewrite !mem_put_out by lia.
      destruct (G a) as [[H1 | [H1 | [(q & Hq & H1) | (q & Hq & H1)]]] | H1].
      * lia.
      * lia.
      * left. eapply free_ptr_payload; eassumption.
      * apply free_ptrs_range in Hq; [|assumption]. lia.
      * right. rewrite H1. unfold s2. rewrite !mem_put_out by lia. reflexivity.
    + cbn [seg fst snd b2z].
      rewrite <- Enf. unfold s8, MIN_BLKSIZE.
      repeat split; try assumption; try lia.
      * ld. rewrite K by lia.
        unfold s2. ld. exact W1.
      * ld. rewrite K by lia.
        unfold s2. ld. exact W1.
      * ld. exact W2.
      * replace (nf + rem - 8) with (bp + csize - 8) by lia.
        replace (nf + rem - 8) with (bp + csize - 8) by lia.
        ld. exact W2.
      * replace (nf + rem) with (bp + csize) by lia.
        eapply seg_payload_frame; [|exact S2]. intros a Hpa.
        rewrite !mem_put_out by lia.
        destruct (G a) as [[H1 | [H1 | [(q & Hq & H1) | (q & Hq & H1)]]] | H1].
        -- lia.
        -- lia.
        -- apply free_ptrs_range in Hq; [|assumption]. lia.
        -- left. eapply free_ptr_payload; eassumption.
        -- right. rewrite H1. unfold s2. rewrite !mem_put_out by lia. reflexivity.
  - unfold s8. ld. rewrite K by lia. unfold s2. ld.
    apply (rep_epi _ _ _ R).
  - rewrite E4 in Lm. cbn [heap_p put set_mem s2] in Lm.
    assert (Eh : load32 (mem s8) (heap_p s) = load32 (mem sm) (heap_p s)).
    { unfold s8. ld. reflexivity. }
    rewrite Eh. eapply lseg_frame; [|exact Lm]. intros q Hq.
    assert (C : q = nf \/ q + 16 <= bp \/ bp + csize <= q).
    { apply in_app_or in Hq. destruct Hq as [Hq | [Hq | Hq]].
      - right. destruct (AR' q (in_or_app _ _ _ (or_introl Hq))) as [[_ ?] | [_ ?]]; lia.
      - left. symmetry. assumption.
      - right. destruct (AR' q (in_or_app _ _ _ (or_intror Hq))) as [[_ ?] | [_ ?]]; lia. }
    clear - C Hrem Hsz Enf Erem. unfold s8. split; ld; reflexivity.
  - intros q Hq. rewrite free_ptrs_app. cbn [free_ptrs fst snd]. rewrite <- Hbp.
    rewrite <- Enf. replace (nf + rem) with (bp + csize) by lia.
    apply in_or_app. apply in_app_or in Hq. destruct Hq as [Hq | [Hq | Hq]].
    + destruct (AR' q (in_or_app _ _ _ (or_introl Hq))) as [[? _] | [? _]];
        [left | right; right]; assumption.
    + right. left. assumption.
    + destruct (AR' q (in_or_app _ _ _ (or_intror Hq))) as [[? _] | [? _]];
        [left | right; right]; assumption.
Qed.

Lemma place_ok s l1 csize l2 f1 bp f2 asize :
  rep s (l1 ++ (csize, false) :: l2) (f1 ++ bp :: f2) ->
  bp = mem_lo s + 24 + total l1 ->
  MIN_BLKSIZE <= asize <= csize -> asize mod 8 = 0 ->
  wp (place bp asize) s
     (fun _ s' =>
        same_meta s s' /\
        if MIN_BLKSIZE <=? csize - asize
        then rep s' (l1 ++ (asize, true) :: (csize - asize, false) :: l2)
                    (f1 ++ (bp + asize) :: f2)
        else rep s' (l1 ++ (csize, true) :: l2) (f1 ++ f2)).
Proof.
  intros R Hbp Hsz Ha. eapply wp_conseq; [apply place_spec; eassumption|].
  intros [] s' (M & H & _). split; assumption.
Qed.

(** ** [find_fit] *)

Lemma NoDup_range_length (l : list Z) lo hi :
  NoDup l -> (forall x, In x l -> lo <= x < hi) ->
  Z.of_nat (List.length l) <= Z.max 0 (hi - lo).
Proof.
  intros ND H.
  set (u := map (fun i => lo + Z.of_nat i) (seq 0 (Z.to_nat (hi - lo)))).
  assert (I : incl l u).
  { intros x Hx. apply H in Hx. unfold u. apply in_map_iff.
    exists (Z.to_nat (x - lo)). split; [lia|]. apply in_seq. lia. }
  pose proof (NoDup_incl_length ND I) as Hl.
  unfold u in Hl. rewrite length_map, length_seq in Hl. lia.
Qed.

Lemma wp_pure {A} (c : M A) s x :
  wp c s (fun r s' => r = x /\ s' = s) <-> c s = Some (x, s).
Proof.
  split.
  - intros (r & s' & H & -> & ->). assumption.
  - intros H. exists x, s. auto.
Qed.

Lemma find_fit_loop_ok s asize fuel h prev r :
  lseg (mem s) h prev (h :: r) 0 ->
  (forall q, In q (h :: r) -> mem_lo s <= q - 4 /\ q + 4 <= mem_brk s) ->
  (List.length (h :: r) <= fuel)%nat ->
  find_fit_loop fuel asize h s = Some (first_fit (mem s) asize (h :: r), s).
Proof.
  intros L B F. apply wp_pure.
  revert h prev fuel L B F. induction r as [|h' r IH]; intros h prev fuel L B F.
  - destruct fuel as [|fuel]; [cbn in F; lia|].
    pose proof (B h (or_introl eq_refl)) as Bh.
    destruct L as (_ & Hz & _ & Hn). cbn [lseg] in Hn.
    cbn [find_fit_loop]. unfold HDRP, WSIZE, NEXT.
    apply wp_bind, wp_GET_SIZE; [lia | lia |].
    unfold first_fit. cbn [find]. fold (size_at (mem s) h).
    destruct (asize <=? size_at (mem s) h); [apply wp_ret; auto|].
    apply wp_bind, wp_GET; [lia | lia |]. rewrite Hn. cbn [Z.eqb negb].
    apply wp_ret. auto.
  - destruct fuel as [|fuel]; [cbn in F; lia|].
    pose proof (B h (or_introl eq_refl)) as Bh.
    destruct L as (_ & Hz & _ & Hn).
    pose proof Hn as (Hn1 & Hn2 & _).
    cbn [find_fit_loop]. unfold HDRP, WSIZE, NEXT.
    apply wp_bind, wp_GET_SIZE; [lia | lia |].
    unfold first_fit. cbn [find]. fold (size_at (mem s) h).
    destruct (asize <=? size_at (mem s) h); [apply wp_ret; auto|].
    apply wp_bind, wp_GET; [lia | lia |]. rewrite Hn1.
    destruct (Z.eqb_spec h' 0) as [|_]; [contradiction|]. cbn [negb].
    apply wp_bind, wp_GET; [lia | lia |]. rewrite Hn1.
    rewrite Hn1 in Hn.
    apply (IH h' h fuel).
    + exact Hn.
    + intros q Hq. apply B. right. assumption.
    + cbn [List.length] in *. lia.
Qed.

Lemma find_fit_ok s bl fl asize :
  rep s bl fl ->
  find_fit asize s = Some (first_fit (mem s) asize fl, s).
Proof.
  intros R.
  pose proof (rep_hp _ _ _ R) as Hhp.
  pose proof (rep_brk_lo _ _ _ R) as Hbl.
  pose proof (rep_list _ _ _ R) as L.
  pose proof (lseg_hd _ _ _ _ L) as Hh.
  apply wp_pure. unfold find_fit, NEXT.
  apply wp_bind, wp_get_heap_p. apply wp_bind, wp_GET; [lia | lia |].
  rewrite Hh.
  destruct fl as [|h r]; cbn [hd].
  - cbn [Z.eqb]. apply wp_ret. auto.
  - pose proof (rep_fl_bounds _ _ _ _ R (or_introl eq_refl)) as Bh.
    destruct (Z.eqb_spec h 0) as [|_]; [lia|].
    apply wp_bind, wp_GET; [lia | lia |]. rewrite Hh. cbn [hd].
    rewrite Hh in L. cbn [hd] in L.
    apply wp_pure.
    eapply find_fit_loop_ok; [exact L | |].
    + intros q Hq. pose proof (rep_fl_bounds _ _ _ _ R Hq). lia.
    + pose proof (NoDup_range_length (h :: r) (mem_lo s) (mem_brk s)
                    (lseg_NoDup _ _ _ _ L)) as P.
      assert (Z.of_nat (List.length (h :: r)) <= Z.max 0 (mem_brk s - mem_lo s)); [|lia].
      apply P. intros q Hq. pose proof (rep_fl_bounds _ _ _ _ R Hq). lia.
Qed.

Lemma first_fit_spec m asize fl :
  let r := first_fit m asize fl in
  (r = NULL /\ forall q, In q fl -> size_at m q < asize) \/
  (exists f1 f2, fl = f1 ++ r :: f2 /\ asize <= size_at m r /\
                 forall q, In q f1 -> size_at m q < asize).
Proof.
  unfold first_fit. induction fl as [|h t IH]; cbn [find].
  - left. split; [reflexivity | intros q []].
  - destruct (Z.leb_spec asize (size_at m h)) as [Hle | Hlt].
    + right. exists [], t. split; [reflexivity|]. split; [assumption | intros q []].
    + cbv zeta in IH. destruct IH as [[E H] | (f1 & f2 & E & H1 & H2)].
      * left. split; [assumption|]. intros q [<- | Hq]; [assumption | auto].
      * right. exists (h :: f1), f2. split; [cbn; congruence|].
        split; [assumption|]. intros q [<- | Hq]; [assumption | auto].
Qed.

(** ** List-level facts about the abstract view *)

Lemma prev_is_free_cons a l : l <> [] -> prev_is_free (a :: l) = prev_is_free l.
Proof.
  intros H. unfold prev_is_free. cbn [rev].
  destruct (rev l) as [|b r] eqn:E.
  - apply (f_equal (@rev block)) in E. rewrite rev_involutive in E. contradiction.
  - reflexivity.
Qed.

Lemma prev_is_free_snoc l b : prev_is_free (l ++ [b]) = negb (snd b).
Proof. unfold prev_is_free. rewrite rev_app_distr. reflexivity. Qed.

Lemma prev_size_snoc l b : prev_size (l ++ [b]) = fst b.
Proof. unfold prev_size. rewrite last_last. reflexivity. Qed.

Lemma no_adj_mid l1 b l2 :
  no_adj (l1 ++ b :: l2) <->
  no_adj l1 /\ no_adj l2 /\
  (snd b = false -> prev_is_free l1 = false /\ next_is_free l2 = false).
Proof.
  induction l1 as [|a l1 IH].
  - cbn [app no_adj]. unfold prev_is_free, next_is_free. cbn [rev].
    destruct l2 as [|b' l2]; cbn [hd_error].
    + split.
      * intros [_ H]. split; [exact I|]. split; [exact H|]. auto.
      * intros (_ & H & _). split; [intros _ b' E; discriminate | exact H].
    + split.
      * intros [H1 H2]. split; [exact I|]. split; [exact H2|].
        intros Hb. split; [reflexivity|]. rewrite (H1 Hb b' eq_refl). reflexivity.
      * intros (_ & H2 & H3). split; [|exact H2].
        intros Hb b'' E. injection E as <-. destruct (H3 Hb) as [_ H].
        destruct (snd b'); [reflexivity | discriminate].
  - cbn [app no_adj]. rewrite IH. clear IH.
    destruct l1 as [|a' l1].
    + cbn [app hd_error no_adj]. unfold prev_is_free. cbn [rev app].
      split.
      * intros (H1 & _ & H2 & H3). split; [split; [|exact I]|split; [exact H2|]].
        -- intros _ b' E. discriminate.
        -- intros Hb. split; [|apply H3; exact Hb].
           destruct (snd a) eqn:Ea; [reflexivity|].
           pose proof (H1 eq_refl b eq_refl) as Hx. congruence.
      * intros ((_ & _) & H2 & H3). split; [|split; [exact I|split; [exact H2|]]].
        -- intros Ha b' E. injection E as <-.
           destruct (snd b) eqn:Eb; [reflexivity|].
           destruct (H3 eq_refl) as [H _]. rewrite Ha in H. cbn in H. congruence.
        -- intros Hb. split; [reflexivity|]. apply H3. exact Hb.
    + cbn [app hd_error]. rewrite (prev_is_free_cons a (a' :: l1)) by congruence.
      cbn [no_adj hd_error]. tauto.
Qed.

Lemma free_ptrs_split p l q :
  In q (free_ptrs p l) ->
  exists l1 sz l2, l = l1 ++ (sz, false) :: l2 /\ q = p + total l1.
Proof.
  revert p. induction l as [|[sz a] l IH]; intros p H; cbn [free_ptrs fst snd] in H;
    [contradiction|].
  destruct a.
  - destruct (IH _ H) as (l1 & sz' & l2 & -> & ->).
    exists ((sz, true) :: l1), sz', l2. split; [reflexivity|]. cbn [total fst]. lia.
  - destruct H as [<- | H].
    + exists [], sz, l. split; [reflexivity|]. cbn [total]. lia.
    + destruct (IH _ H) as (l1 & sz' & l2 & -> & ->).
      exists ((sz, false) :: l1), sz', l2. split; [reflexivity|]. cbn [total fst]. lia.
Qed.

Lemma alloc_ptrs_split p l q :
  In q (alloc_ptrs p l) ->
  exists l1 sz l2, l = l1 ++ (sz, true) :: l2 /\ q = p + total l1.
Proof.
  revert p. induction l as [|[sz a] l IH]; intros p H; cbn [alloc_ptrs fst snd] in H;
    [contradiction|].
  destruct a.
  - destruct H as [<- | H].
    + exists [], sz, l. split; [reflexivity|]. cbn [total]. lia.
    + destruct (IH _ H) as (l1 & sz' & l2 & -> & ->).
      exists ((sz, true) :: l1), sz', l2. split; [reflexivity|]. cbn [total fst]. lia.
  - destruct (IH _ H) as (l1 & sz' & l2 & -> & ->).
    exists ((sz, false) :: l1), sz', l2. split; [reflexivity|]. cbn [total fst]. lia.
Qed.

(** A block is found at one place only. *)
Lemma split_unique (l1 l1' l2 l2' : list block) b b' :
  sizes_ok (l1 ++ b :: l2) ->
  l1 ++ b :: l2 = l1' ++ b' :: l2' -> total l1 = total l1' ->
  l1 = l1' /\ b = b' /\ l2 = l2'.
Proof.
  revert l1'. induction l1 as [|a l1 IH]; intros l1' Hs E T.
  - destruct l1' as [|a' l1'].
    + cbn in E. injection E as -> ->. auto.
    + exfalso. cbn [app] in E. injection E as <- E. rewrite E in Hs.
      inversion Hs as [|? ? [Hb _] Hs']; subst.
      apply sizes_ok_app in Hs'. destruct Hs' as [Hs' _].
      pose proof (sizes_ok_total _ Hs'). cbn [total] in T.
      unfold MIN_BLKSIZE in *. lia.
  - destruct l1' as [|a' l1'].
    + exfalso. cbn [app] in E. injection E as -> E.
      inversion Hs as [|? ? [Hb _] Hs']; subst.
      apply sizes_ok_app in Hs'. destruct Hs' as [Hs' _].
      pose proof (sizes_ok_total _ Hs'). cbn [total] in T.
      unfold MIN_BLKSIZE in *. lia.
    + cbn [app] in E. injection E as -> E. cbn [total] in T.
      inversion Hs as [|? ? _ Hs']; subst.
      destruct (IH l1' Hs' E ltac:(lia)) as (-> & -> & ->). auto.
Qed.

Lemma prev_free_shape (l1 : list block) :
  prev_is_free l1 = true -> l1 = removelast l1 ++ [(prev_size l1, false)].
Proof.
  destruct l1 as [|[z a] l1'] using rev_ind; [discriminate|].
  rewrite prev_is_free_snoc, prev_size_snoc, removelast_last. cbn [fst snd].
  destruct a; [discriminate | reflexivity].
Qed.

Lemma next_free_shape (l2 : list block) :
  next_is_free l2 = true -> l2 = (next_size l2, false) :: tl l2.
Proof.
  destruct l2 as [|[z a] l2']; [discriminate|].
  unfold next_is_free, next_size. cbn [hd tl fst snd].
  destruct a; [discriminate | reflexivity].
Qed.

(** What [coalesce] leaves behind, on the abstract view: a complete list,
    no two free neighbours, the same allocated blocks, and the returned
    block free, first on the list and at least as large as the one
    given. *)
Lemma coalesce_result_inv base (l1 : list block) sz (l2 : list block) bp fl :
  sizes_ok (l1 ++ (sz, false) :: l2) -> bp = base + total l1 ->
  no_adj l1 -> no_adj l2 ->
  (forall q, In q (free_ptrs base (l1 ++ (sz, false) :: l2)) -> q = bp \/ In q fl) ->
  let '(bl', fl', r) := coalesce_result l1 sz l2 bp fl in
  incl (free_ptrs base bl') fl' /\ no_adj bl' /\
  alloc_ptrs base bl' = alloc_ptrs base (l1 ++ (sz, false) :: l2) /\
  total bl' = total (l1 ++ (sz, false) :: l2) /\
  exists la sz' lb, bl' = la ++ (sz', false) :: lb /\ r = base + total la /\
                    sz <= sz' /\ hd_error fl' = Some r.
Proof.
  intros SZ Hbp NA1 NA2 C. unfold coalesce_result.
  destruct (prev_is_free l1) eqn:Epf; destruct (next_is_free l2) eqn:Enf.
  - (* both neighbours free *)
    pose proof (prev_free_shape _ Epf) as E1. pose proof (next_free_shape _ Enf) as E2.
    set (psz := prev_size l1) in *. set (nsz := next_size l2) in *.
    clearbody psz nsz.
    remember (removelast l1) as l1' eqn:X1 in *. clear X1.
    remember (tl l2) as l2' eqn:X2 in *. clear X2. subst l1 l2.
    rewrite total_app in Hbp. cbn [total fst] in Hbp.
    rewrite <- app_assoc in SZ, C. cbn [app] in SZ, C.
    rewrite <- !app_assoc. cbn [app].
    apply no_adj_mid in NA1. destruct NA1 as (NA1 & _ & NA1').
    specialize (NA1' eq_refl). destruct NA1' as [NA1' _].
    change ((nsz, false) :: l2') with ([] ++ (nsz, false) :: l2') in NA2.
    apply no_adj_mid in NA2. destruct NA2 as (_ & NA2 & NA2').
    specialize (NA2' eq_refl). destruct NA2' as [_ NA2'].
    pose proof SZ as SZ'. apply sizes_ok_app in SZ'. destruct SZ' as [S1 S2].
    inversion S2 as [|? ? [Hp _] S3]; subst. inversion S3 as [|? ? [Hs _] S4]; subst.
    inversion S4 as [|? ? [Hn _] S5]; subst. cbn [fst] in *. unfold MIN_BLKSIZE in *.
    rewrite !free_ptrs_app, !alloc_ptrs_app, !total_app in *.
    cbn [free_ptrs alloc_ptrs total fst snd] in *.
    split; [|split; [|split; [|split]]].
    + intros q Hq. apply in_app_or in Hq. destruct Hq as [Hq | [Hq | Hq]].
      * right. pose proof (free_ptrs_range _ _ _ S1 Hq).
        apply in_in_remove; [lia|]. apply in_in_remove; [lia|].
        destruct (C q) as [? | ?]; [apply in_or_app; left; assumption | lia | assumption].
      * left. lia.
      * right. pose proof (free_ptrs_range _ _ _ S5 Hq).
        apply in_in_remove; [lia|]. apply in_in_remove; [lia|].
        destruct (C q) as [? | ?]; [| lia | assumption].
        apply in_or_app; right; right; right; right.
        replace (base + total l1' + psz + sz + nsz)
          with (base + total l1' + (sz + (psz + nsz))) by lia. assumption.
    + apply no_adj_mid. repeat split; assumption.
    + f_equal. f_equal. lia.
    + lia.
    + exists l1', (sz + (psz + nsz)), l2'. repeat split; try lia.
  - (* the block before is free *)
    pose proof (prev_free_shape _ Epf) as E1.
    set (psz := prev_size l1) in *. clearbody psz.
    remember (removelast l1) as l1' eqn:X1 in *. clear X1. subst l1.
    rewrite total_app in Hbp. cbn [total fst] in Hbp.
    rewrite <- app_assoc in SZ, C. cbn [app] in SZ, C.
    rewrite <- !app_assoc. cbn [app].
    apply no_adj_mid in NA1. destruct NA1 as (NA1 & _ & NA1').
    specialize (NA1' eq_refl). destruct NA1' as [NA1' _].
    pose proof SZ as SZ'. apply sizes_ok_app in SZ'. destruct SZ' as [S1 S2].
    inversion S2 as [|? ? [Hp _] S3]; subst. inversion S3 as [|? ? [Hs _] S4]; subst.
    cbn [fst] in *. unfold MIN_BLKSIZE in *.
    rewrite !free_ptrs_app, !alloc_ptrs_app, !total_app in *.
    cbn [free_ptrs alloc_ptrs total fst snd] in *.
    split; [|split; [|split; [|split]]].
    + intros q Hq. apply in_app_or in Hq. destruct Hq as [Hq | [Hq | Hq]].
      * right. pose proof (free_ptrs_range _ _ _ S1 Hq).
        apply in_in_remove; [lia|].
        destruct (C q) as [? | ?]; [apply in_or_app; left; assumption | lia | assumption].
      * left. lia.
      * right. pose proof (free_ptrs_range _ _ _ S4 Hq).
        apply in_in_remove; [lia|].
        destruct (C q) as [? | ?]; [| lia | assumption].
        apply in_or_app; right; right; right.
        replace (base + total l1' + psz + sz)
          with (base + total l1' + (sz + psz)) by lia. assumption.
    + apply no_adj_mid. repeat split; assumption.
    + f_equal. f_equal. lia.
    + lia.
    + exists l1', (sz + psz), l2. repeat split; try lia.
  - (* the block after is free *)
    pose proof (next_free_shape _ Enf) as E2.
    set (nsz := next_size l2) in *. clearbody nsz.
    remember (tl l2) as l2' eqn:X2 in *. clear X2. subst l2.
    change ((nsz, false) :: l2') with ([] ++ (nsz, false) :: l2') in NA2.
    apply no_adj_mid in NA2. destruct NA2 as (_ & NA2 & NA2').
    specialize (NA2' eq_refl). destruct NA2' as [_ NA2'].
    pose proof SZ as SZ'. apply sizes_ok_app in SZ'. destruct SZ' as [S1 S2].
    inversion S2 as [|? ? [Hs _] S3]; subst. inversion S3 as [|? ? [Hn _] S4]; subst.
    cbn [fst] in *. unfold MIN_BLKSIZE in *.
    rewrite !free_ptrs_app, !alloc_ptrs_app, !total_app in *.
    cbn [free_ptrs alloc_ptrs total fst snd] in *.
    split; [|split; [|split; [|split]]].
    + intros q Hq. apply in_app_or in Hq. destruct Hq as [Hq | [Hq | Hq]].
      * right. pose proof (free_ptrs_range _ _ _ S1 Hq).
        apply in_in_remove; [lia|].
        destruct (C q) as [? | ?]; [apply in_or_app; left; assumption | lia | assumption].
      * left. lia.
      * right. pose proof (free_ptrs_range _ _ _ S4 Hq).
        apply in_in_remove; [lia|].
        destruct (C q) as [? | ?]; [| lia | assumption].
        apply in_or_app; right; right; right.
        replace (base + total l1 + sz + nsz)
          with (base + total l1 + (sz + nsz)) by lia. assumption.
    + apply no_adj_mid. repeat split; assumption.
    + f_equal. f_equal. lia.
    + lia.
    + exists l1, (sz + nsz), l2'. repeat split; try lia.
  - (* no free neighbour *)
    split; [|split; [|split; [|split]]].
    + intros q Hq. destruct (C q Hq) as [-> | ?]; [left; reflexivity | right; assumption].
    + apply no_adj_mid. repeat split; assumption.
    + reflexivity.
    + reflexivity.
    + exists l1, sz, l2. repeat split; try lia.
Qed.

(** The allocated blocks stay as they are, and the block returned covers
    the block given. *)
Lemma coalesce_result_block base (l1 : list block) sz (l2 : list block) bp fl :
  sizes_ok (l1 ++ (sz, false) :: l2) -> bp = base + total l1 ->
  let '(bl', fl', r) := coalesce_result l1 sz l2 bp fl in
  alloc_blocks base bl' = alloc_blocks base l1 ++ alloc_blocks (bp + sz) l2 /\
  exists la sz' lb, bl' = la ++ (sz', false) :: lb /\ r = base + total la /\
                    sz <= sz' /\ r <= bp /\ bp + sz <= r + sz' /\
                    hd_error fl' = Some r.
Proof.
  intros SZ Hbp. unfold coalesce_result.
  destruct (prev_is_free l1) eqn:Epf; destruct (next_is_free l2) eqn:Enf.
  - pose proof (prev_free_shape _ Epf) as E1. pose proof (next_free_shape _ Enf) as E2.
    set (psz := prev_size l1) in *. set (nsz := next_size l2) in *.
    clearbody psz nsz.
    remember (removelast l1) as l1' eqn:X1 in *. clear X1.
    remember (tl l2) as l2' eqn:X2 in *. clear X2. subst l1 l2.
    rewrite total_app in Hbp. cbn [total fst] in Hbp.
    rewrite <- app_assoc in SZ. cbn [app] in SZ.
    apply sizes_ok_app in SZ. destruct SZ as [S1 S2].
    inversion S2 as [|? ? [Hp _] S3]; subst. inversion S3 as [|? ? [Hs _] S4]; subst.
    inversion S4 as [|? ? [Hn _] S5]; subst. cbn [fst] in *. unfold MIN_BLKSIZE in *.
    split.
    + rewrite !alloc_blocks_app. cbn [alloc_blocks total fst snd].
      rewrite app_nil_r. apply (f_equal (app _)).
      apply (f_equal (fun x => alloc_blocks x _)). lia.
    + exists l1', (sz + (psz + nsz)), l2'. repeat split; lia.
  - pose proof (prev_free_shape _ Epf) as E1.
    set (psz := prev_size l1) in *. clearbody psz.
    remember (removelast l1) as l1' eqn:X1 in *. clear X1. subst l1.
    rewrite total_app in Hbp. cbn [total fst] in Hbp.
    rewrite <- app_assoc in SZ. cbn [app] in SZ.
    apply sizes_ok_app in SZ. destruct SZ as [S1 S2].
    inversion S2 as [|? ? [Hp _] S3]; subst. inversion S3 as [|? ? [Hs _] S4]; subst.
    cbn [fst] in *. unfold MIN_BLKSIZE in *.
    split.
    + rewrite !alloc_blocks_app. cbn [alloc_blocks total fst snd].
      rewrite app_nil_r. apply (f_equal (app _)).
      apply (f_equal (fun x => alloc_blocks x _)). lia.
    + exists l1', (sz + psz), l2. repeat split; lia.
  - pose proof (next_free_shape _ Enf) as E2.
    set (nsz := next_size l2) in *. clearbody nsz.
    remember (tl l2) as l2' eqn:X2 in *. clear X2. subst l2.
    apply sizes_ok_app in SZ. destruct SZ as [S1 S2].
    inversion S2 as [|? ? [Hs _] S3]; subst. inversion S3 as [|? ? [Hn _] S4]; subst.
    cbn [fst] in *. unfold MIN_BLKSIZE in *.
    split.
    + rewrite !alloc_blocks_app. cbn [alloc_blocks total fst snd].
      apply (f_equal (app _)).
      apply (f_equal (fun x => alloc_blocks x _)). lia.
    + exists l1, (sz + nsz), l2'. repeat split; lia.
  - split.
    + rewrite !alloc_blocks_app. cbn [alloc_blocks total fst snd].
      rewrite <- Hbp. reflexivity.
    + exists l1, sz, l2. repeat split; lia.
Qed.

(** ** [mm_free] *)

(** [mm_free] on an allocated block: the block is merged with its free
    neighbours and put first on the list; the other allocated blocks stay
    allocated, with their sizes and their payload. *)
Lemma mm_free_spec s l1 sz l2 fl p :
  heap_inv s (l1 ++ (sz, true) :: l2) fl ->
  p = mem_lo s + 24 + total l1 ->
  wp (mm_free p) s
     (fun _ s' =>
        same_meta s s' /\
        let '(bl', fl', r) := coalesce_result l1 sz l2 p fl in
        heap_inv s' bl' fl' /\
        alloc_blocks (mem_lo s + 24) bl' =
        alloc_blocks (mem_lo s + 24) l1 ++ alloc_blocks (p + sz) l2 /\
        keeps (l1 ++ (sz, false) :: l2) s s' /\
        exists la sz' lb, bl' = la ++ (sz', false) :: lb /\
                          r = mem_lo s + 24 + total la /\ sz <= sz' /\
                          r <= p /\ p + sz <= r + sz' /\ hd_error fl' = Some r).
Proof.
  intros (R & C & NA) Hp.
  pose proof (rep_block _ _ _ _ _ R) as B. cbv zeta in B. cbn [fst snd b2z] in B.
  rewrite <- Hp in B. destruct B as (B1 & B2 & B3 & B4 & B5 & B6 & B7).
  pose proof (rep_lo _ _ _ R) as Hlo. pose proof (rep_brk _ _ _ R) as Hbrk.
  pose proof (rep_max _ _ _ R) as Hmax.
  pose proof (rep_sizes _ _ _ R) as SZ.
  pose proof (rep_incl _ _ _ R) as INC.
  apply sizes_ok_app in SZ. destruct SZ as [SZ1 SZ2].
  inversion SZ2 as [|? ? _ SZ3]; subst x l.
  apply no_adj_mid in NA. destruct NA as (NA1 & NA2 & _).
  unfold MIN_BLKSIZE in *.
  assert (W : wrap (PACK sz (b2z false)) = PACK sz (b2z false))
    by (apply wrap_PACK; lia).
  cbn [b2z] in W.
  (* where the list nodes lie *)
  assert (AR : forall q, In q fl ->
                 In q (free_ptrs (mem_lo s + 24) l1) \/ In q (free_ptrs (p + sz) l2)).
  { intros q Hq. apply INC in Hq. rewrite free_ptrs_app in Hq.
    cbn [free_ptrs fst snd] in Hq. rewrite <- Hp in Hq.
    apply in_app_or in Hq. assumption. }
  unfold mm_free, HDRP, WSIZE.
  apply wp_bind. eapply (wp_GET_SIZE_PACK _ _ _ true); [| | exact B3 | exact B2 |];
    [lia | lia |].
  apply wp_bind, wp_PUT; [lia | lia |].
  apply wp_bind. eapply (wp_FTRP _ _ sz false); cbn [mem_lo mem_brk put set_mem];
    [lia | lia | rewrite load_put_same; exact W | assumption |].
  apply wp_bind, wp_PUT; [cbn; lia | cbn; lia |].
  pose proof (rep_merge s l1 [(sz, true)] l2 fl false R) as RM.
  cbv zeta in RM. cbn [total fst b2z] in RM. rewrite Z.add_0_r in RM.
  rewrite <- Hp in RM.
  assert (R2 : rep (put (put s (p - 4) (PACK sz 0)) (p + sz - 8) (PACK sz 0))
                   (l1 ++ (sz, false) :: l2) fl).
  { apply RM; [discriminate|]. intros q Hq. destruct (AR q Hq); tauto. }
  set (s2 := put (put s _ _) _ _) in *.
  assert (Hnp : ~ In p fl).
  { intros Hq. destruct (AR _ Hq) as [Hq' | Hq'];
      apply free_ptrs_range in Hq'; try assumption; lia. }
  assert (FS : sizes_ok (l1 ++ (sz, false) :: l2)).
  { apply sizes_ok_app. split; [assumption|]. constructor; [|assumption].
    cbn [fst]. unfold MIN_BLKSIZE. split; [lia | assumption]. }
  assert (PRE : coalesce_pre s2 l1 sz l2 fl p).
  { split; [exact R2|]. split; [exact Hp|]. split; [exact Hnp|]. split.
    - intros Hpf. apply C. pose proof (prev_free_shape _ Hpf) as E.
      rewrite E at 2. rewrite <- app_assoc, free_ptrs_app. cbn [app free_ptrs fst snd].
      apply in_or_app. right. left.
      rewrite E in Hp at 1. rewrite total_app in Hp. cbn [total fst] in Hp. lia.
    - intros Hnf. apply C. pose proof (next_free_shape _ Hnf) as E.
      rewrite E. rewrite free_ptrs_app. cbn [free_ptrs fst snd].
      apply in_or_app. right. left. lia. }
  assert (K2 : keeps (l1 ++ (sz, false) :: l2) s s2).
  { intros a Ha. pose proof (in_use_free_block _ _ _ _ _ FS Ha).
    unfold s2. rewrite !mem_put_out by lia. reflexivity. }
  apply wp_bind. eapply wp_conseq; [apply coalesce_spec; exact PRE|].
  intros r s' H. apply wp_ret.
  pose proof (coalesce_result_inv (mem_lo s + 24) l1 sz l2 p fl FS Hp NA1 NA2) as CI.
  pose proof (coalesce_result_block (mem_lo s + 24) l1 sz l2 p fl FS Hp) as CB.
  destruct (coalesce_result l1 sz l2 p fl) as [[bl' fl'] r'].
  destruct H as (_ & R' & M' & K').
  assert (M : same_meta s s') by exact M'.
  split; [exact M|].
  destruct CI as (C1 & C2 & C3 & _).
  { intros q Hq. rewrite free_ptrs_app in Hq. cbn [free_ptrs fst snd] in Hq.
    apply in_app_or in Hq. rewrite <- Hp in Hq.
    destruct Hq as [Hq | [Hq | Hq]]; [right | left; congruence | right]; apply C;
      rewrite free_ptrs_app; cbn [free_ptrs fst snd]; apply in_or_app;
      [left; assumption | right; rewrite <- Hp; assumption]. }
  split; [|split; [exact (proj1 CB)|split; [|exact (proj2 CB)]]].
  - split; [exact R'|]. split; [|exact C2].
    unfold complete. destruct M as (-> & _). exact C1.
  - eapply keeps_trans; [|exact K2 | exact K']. reflexivity.
Qed.

Lemma mm_free_ok s l1 sz l2 fl p :
  heap_inv s (l1 ++ (sz, true) :: l2) fl ->
  p = mem_lo s + 24 + total l1 ->
  wp (mm_free p) s
     (fun _ s' =>
        same_meta s s' /\
        let '(bl', fl', r) := coalesce_result l1 sz l2 p fl in
        heap_inv s' bl' fl' /\
        alloc_ptrs (mem_lo s + 24) bl' =
        alloc_ptrs (mem_lo s + 24) l1 ++ alloc_ptrs (p + sz) l2).
Proof.
  intros HI Hp. eapply wp_conseq; [apply mm_free_spec; eassumption|].
  intros [] s'. destruct (coalesce_result l1 sz l2 p fl) as [[bl' fl'] r'].
  intros (M & HI' & AB & _). split; [exact M|]. split; [exact HI'|].
  rewrite <- !alloc_blocks_ptrs, AB, map_app. reflexivity.
Qed.

(** ** [extend_heap] *)

Lemma wp_mem_sbrk incr s Q :
  Q (if mem_brk s + incr <=? mem_max s then Some (mem_brk s) else None)
    (if mem_brk s + incr <=? mem_max s then set_brk s (mem_brk s + incr) else s) ->
  wp (mem_sbrk incr) s Q.
Proof.
  intros H. unfold wp, mem_sbrk.
  destruct (mem_brk s + incr <=? mem_max s); eexists; eexists; split;
    try reflexivity; assumption.
Qed.

Lemma same_meta_grows s s' : same_meta s s' -> grows s s'.
Proof. intros (E1 & E2 & E3 & E4 & E5). unfold grows. repeat split; try assumption. lia. Qed.

Lemma grows_trans s1 s2 s3 : grows s1 s2 -> grows s2 s3 -> grows s1 s3.
Proof.
  intros (A1 & A2 & A3 & A4 & A5) (B1 & B2 & B3 & B4 & B5).
  unfold grows. repeat split; try congruence. lia.
Qed.

(** [extend_heap] grows the arena by [size] bytes when the backing store
    has them: the new bytes are a free block, merged with the last block
    when that one is free, first on the list; the allocated blocks and
    their payload are not touched.  Otherwise nothing changes. *)
Lemma extend_heap_spec s bl fl size :
  heap_inv s bl fl -> 16 <= size < 2 ^ 32 -> size mod 8 = 0 ->
  wp (extend_heap (size / WSIZE)) s
     (fun r s' =>
        if mem_brk s + size <=? mem_max s then
          let '(bl', fl', r') := coalesce_result bl size [] (mem_brk s) fl in
          r = r' /\ heap_inv s' bl' fl' /\ grows s s' /\
          mem_brk s' = mem_brk s + size /\
          alloc_blocks (mem_lo s + 24) bl' = alloc_blocks (mem_lo s + 24) bl /\
          keeps bl s s' /\
          exists la sz' lb, bl' = la ++ (sz', false) :: lb /\
                            r' = mem_lo s + 24 + total la /\
                            size <= sz' /\ r' <= mem_brk s /\
                            mem_brk s + size <= r' + sz' /\
                            hd_error fl' = Some r'
        else r = NULL /\ s' = s).
Proof.
  intros (R & C & NA) Hsz Hm.
  pose proof (rep_lo _ _ _ R) as Hlo. pose proof (rep_brk _ _ _ R) as Hbrk.
  pose proof (rep_max _ _ _ R) as Hmax. pose proof (rep_hp _ _ _ R) as Hhp.
  pose proof (rep_sizes _ _ _ R) as SZ.
  pose proof (rep_incl _ _ _ R) as INC.
  pose proof (rep_seg _ _ _ R) as S.
  pose proof (seg_end _ _ _ _ S) as E.
  pose proof (sizes_ok_total _ SZ) as T.
  assert (Hw : size / WSIZE = 2 * (size / 8)).
  { unfold WSIZE. pose proof (Z.div_mod size 8 ltac:(lia)) as D.
    assert (X : size = (2 * (size / 8)) * 4) by lia.
    rewrite X at 1. apply Z.div_mul. lia. }
  unfold extend_heap. rewrite Hw.
  replace ((2 * (size / 8)) mod 2) with 0
    by (symmetry; rewrite Z.mul_comm; apply Z.mod_mul; lia).
  cbn [Z.eqb negb]. unfold WSIZE.
  replace (2 * (size / 8) * 4) with size
    by (pose proof (Z.div_mod size 8 ltac:(lia)); lia).
  rewrite wrap_small by lia.
  apply wp_bind, wp_mem_sbrk.
  destruct (Z.leb_spec (mem_brk s + size) (mem_max s)) as [Hfit | Hno].
  2:{ apply wp_ret. auto. }
  set (bp := mem_brk s) in *.
  assert (W : wrap (PACK size (b2z false)) = PACK size (b2z false))
    by (apply wrap_PACK; lia).
  assert (W0 : wrap (PACK 0 (b2z true)) = PACK 0 (b2z true))
    by (apply wrap_PACK; [reflexivity | lia]).
  cbn [b2z] in W, W0.
  assert (BND : forall q, In q fl -> mem_lo s + 24 <= q /\ q + 16 <= bp).
  { intros q Hq. pose proof (rep_fl_bounds _ _ _ _ R Hq). unfold bp. lia. }
  unfold HDRP, WSIZE.
  apply wp_bind, wp_PUT; [cbn; lia | cbn; lia |].
  apply wp_bind. eapply (wp_FTRP _ _ size false);
    [cbn; lia | cbn; lia | rewrite load_put_same; exact W | assumption |].
  apply wp_bind, wp_PUT; [cbn; lia | cbn; lia |].
  apply wp_bind. eapply (wp_NEXT_BLKP _ _ size false);
    [cbn; lia | cbn; lia | ld; exact W | assumption |].
  apply wp_bind, wp_PUT; [cbn; lia | cbn; lia |].
  set (s3 := put (put (put (set_brk s (bp + size)) _ _) _ _) _ _).
  assert (Fr : forall a, a < bp - 4 -> mem s3 a = mem s a).
  { intros a Ha. unfold s3. rewrite !mem_put_out by lia. reflexivity. }
  assert (Fl : forall p, p + 4 <= bp - 4 -> load32 (mem s3) p = load32 (mem s) p).
  { intros p Hp. apply load32_ext. intros a Ha. apply Fr. lia. }
  assert (R3 : rep s3 (bl ++ [(size, false)]) fl).
  { constructor; cbn [mem_lo mem_brk mem_max heap_p put set_mem set_brk s3];
      try assumption; try apply R.
    - rewrite Fl by lia. apply (rep_pro_h _ _ _ R).
    - rewrite Fl by lia. apply (rep_pro_f _ _ _ R).
    - apply seg_app. rewrite <- E. fold bp. split.
      + eapply seg_frame; [|exact S]. intros a Ha. apply Fr. lia.
      + cbn [seg fst snd b2z]. unfold s3, MIN_BLKSIZE. ld. rewrite W.
        repeat split; try assumption; try lia.
    - unfold s3. replace (bp + size - 4) with (bp + size - 4) by lia.
      rewrite load_put_same. exact W0.
    - rewrite Hhp. rewrite Fl by lia. rewrite <- Hhp.
      eapply lseg_frame; [|apply (rep_list _ _ _ R)]. intros q Hq.
      pose proof (BND q Hq). split; apply Fl; lia.
    - intros q Hq. rewrite free_ptrs_app. apply in_or_app. left. apply INC. assumption. }
  assert (Hbp : bp = mem_lo s3 + 24 + total bl) by (cbn; lia).
  assert (PRE : coalesce_pre s3 bl size [] fl bp).
  { split; [exact R3|]. split; [exact Hbp|]. split; [|split].
    - intros Hq. pose proof (BND _ Hq). lia.
    - intros Hpf. apply C. pose proof (prev_free_shape _ Hpf) as X.
      rewrite X at 2. rewrite free_ptrs_app. cbn [free_ptrs fst snd].
      apply in_or_app. right. left.
      rewrite X in Hbp at 1. rewrite total_app in Hbp. cbn [total fst] in Hbp.
      cbn [mem_lo put set_mem set_brk s3] in Hbp. lia.
    - discriminate. }
  eapply wp_conseq; [apply coalesce_spec; exact PRE|].
  intros r s' H.
  assert (FS : sizes_ok (bl ++ [(size, false)])) by (eapply rep_sizes; exact R3).
  pose proof (coalesce_result_inv (mem_lo s + 24) bl size [] bp fl FS
                ltac:(cbn in Hbp; lia) NA I) as CI.
  pose proof (coalesce_result_block (mem_lo s + 24) bl size [] bp fl FS
                ltac:(cbn in Hbp; lia)) as CB.
  destruct (coalesce_result bl size [] bp fl) as [[bl' fl'] r'].
  destruct CB as [CB CB'].
  destruct H as (Hr & R' & M' & K').
  destruct CI as (C1 & C2 & C3 & _ & C5).
  { intros q Hq. rewrite free_ptrs_app in Hq. cbn [free_ptrs fst snd] in Hq.
    apply in_app_or in Hq.
    destruct Hq as [Hq | [Hq | []]]; [right; apply C; assumption | left].
    cbn in Hbp. lia. }
  split; [exact Hr|].
  pose proof M' as (E1 & E2 & E3 & E4 & E5).
  cbn [mem_lo mem_brk mem_max heap_p out put set_mem set_brk s3] in E1, E2, E3, E4, E5.
  split; [|split; [|split; [|split; [|split]]]].
  - split; [exact R'|]. split; [|exact C2]. unfold complete. rewrite E1. exact C1.
  - unfold grows. repeat split; try assumption. lia.
  - exact E2.
  - rewrite CB. cbn [alloc_blocks]. apply app_nil_r.
  - intros a Ha. pose proof (in_use_range _ _ _ SZ Ha).
    rewrite K'; [apply Fr; lia|]. apply in_use_app. left. exact Ha.
  - exact CB'.
Qed.

Lemma extend_heap_ok s bl fl size :
  heap_inv s bl fl -> 16 <= size < 2 ^ 32 -> size mod 8 = 0 ->
  wp (extend_heap (size / WSIZE)) s
     (fun r s' =>
        if mem_brk s + size <=? mem_max s then
          let '(bl', fl', r') := coalesce_result bl size [] (mem_brk s) fl in
          r = r' /\ heap_inv s' bl' fl' /\ grows s s' /\
          alloc_ptrs (mem_lo s + 24) bl' = alloc_ptrs (mem_lo s + 24) bl /\
          exists la sz' lb, bl' = la ++ (sz', false) :: lb /\
                            r' = mem_lo s + 24 + total la /\
                            size <= sz' /\ hd_error fl' = Some r'
        else r = NULL /\ s' = s).
Proof.
  intros HI Hsz Hm. eapply wp_conseq; [apply extend_heap_spec; eassumption|].
  intros r s'. destruct (mem_brk s + size <=? mem_max s); [|tauto].
  destruct (coalesce_result bl size [] (mem_brk s) fl) as [[bl' fl'] r'].
  intros (Hr & HI' & G & _ & AB & _ & la & sz' & lb & X1 & X2 & X3 & _ & _ & X4).
  split; [exact Hr|]. split; [exact HI'|]. split; [exact G|]. split.
  - rewrite <- !alloc_blocks_ptrs, AB. reflexivity.
  - exists la, sz', lb. tauto.
Qed.

(** ** [mm_malloc] *)

Lemma place_result_inv base (l1 : list block) csize l2 f1 bp f2 asize :
  sizes_ok (l1 ++ (csize, false) :: l2) -> bp = base + total l1 ->
  no_adj (l1 ++ (csize, false) :: l2) ->
  incl (free_ptrs base (l1 ++ (csize, false) :: l2)) (f1 ++ bp :: f2) ->
  (incl (free_ptrs base (l1 ++ (asize, true) :: (csize - asize, false) :: l2))
        (f1 ++ (bp + asize) :: f2) /\
   no_adj (l1 ++ (asize, true) :: (csize - asize, false) :: l2)) /\
  (incl (free_ptrs base (l1 ++ (csize, true) :: l2)) (f1 ++ f2) /\
   no_adj (l1 ++ (csize, true) :: l2)).
Proof.
  intros SZ Hbp NA C.
  apply sizes_ok_app in SZ. destruct SZ as [S1 S2].
  inversion S2 as [|x0 l0 [Hc _] S3]; subst x0 l0. cbn [fst] in Hc. unfold MIN_BLKSIZE in Hc.
  apply no_adj_mid in NA. destruct NA as (NA1 & NA2 & NA3).
  destruct (NA3 eq_refl) as [NA4 NA5].
  assert (K : forall q, In q (free_ptrs base l1) \/
                        In q (free_ptrs (base + total l1 + csize) l2) ->
                        In q (f1 ++ f2) /\ In q (f1 ++ (bp + asize) :: f2)).
  { intros q Hq.
    assert (Hq' : In q (f1 ++ bp :: f2)).
    { apply C. rewrite free_ptrs_app. cbn [free_ptrs fst snd].
      apply in_or_app. destruct Hq; [left | right; right]; assumption. }
    assert (q <> bp).
    { destruct Hq as [Hq | Hq]; apply free_ptrs_range in Hq; try assumption; lia. }
    apply in_app_or in Hq'. split; apply in_or_app.
    - destruct Hq' as [? | [? | ?]]; [left; assumption | congruence | right; assumption].
    - destruct Hq' as [? | [? | ?]];
        [left; assumption | congruence | right; right; assumption]. }
  split; split.
  - intros q Hq. rewrite free_ptrs_app in Hq. cbn [free_ptrs fst snd] in Hq.
    apply in_app_or in Hq. destruct Hq as [Hq | [Hq | Hq]].
    + apply K. left. assumption.
    + apply in_or_app. right. left. lia.
    + apply K. right.
      replace (base + total l1 + csize)
        with (base + total l1 + asize + (csize - asize)) by lia. assumption.
  - apply no_adj_mid. split; [assumption|]. split; [|discriminate].
    change ((csize - asize, false) :: l2) with ([] ++ (csize - asize, false) :: l2).
    apply no_adj_mid. split; [exact I|]. split; [assumption|]. intros _. split; [reflexivity | assumption].
  - intros q Hq. rewrite free_ptrs_app in Hq. cbn [free_ptrs fst snd] in Hq.
    apply in_app_or in Hq. apply K. destruct Hq; [left | right]; assumption.
  - apply no_adj_mid. split; [assumption|]. split; [assumption | discriminate].
Qed.

Lemma adj_size_facts n :
  0 < n -> n + 15 < 2 ^ 32 ->
  (if n <=? DSIZE then 2 * DSIZE
   else wrap (DSIZE * (wrap (n + DSIZE + (DSIZE - 1)) / DSIZE))) = adj_size n /\
  16 <= adj_size n /\ adj_size n mod 8 = 0 /\
  n + 8 <= adj_size n <= n + 15 /\ adj_size n - 8 = 8 * ((n + 7) / 8).
Proof.
  intros Hn Hb. unfold adj_size, DSIZE.
  destruct (Z.leb_spec n 8) as [Hle | Hgt].
  - split; [reflexivity|]. split; [lia|]. split; [reflexivity|]. split; [lia|].
    assert ((n + 7) / 8 = 1); [|lia].
    symmetry. apply (Z.div_unique (n + 7) 8 1 (n - 1)); lia.
  - replace (n + 8 + (8 - 1)) with (n + 15) by lia.
    rewrite (wrap_small (n + 15)) by lia.
    pose proof (Z.div_mod (n + 15) 8 ltac:(lia)) as D.
    pose proof (Z.mod_pos_bound (n + 15) 8 ltac:(lia)) as Mb.
    rewrite wrap_small by lia.
    split; [reflexivity|]. split; [lia|].
    split; [rewrite Z.mul_comm; apply Z.mod_mul; lia|]. split; [lia|].
    replace (n + 15) with ((n + 7) + 1 * 8) by lia.
    rewrite Z.div_add by lia. lia.
Qed.

Lemma wp_of_eq {A} (c : M A) s x s' (Q : A -> heap -> Prop) :
  c s = Some (x, s') -> Q x s' -> wp c s Q.
Proof. intros H HQ. exists x, s'. auto. Qed.

Lemma rep_size_at s l1 b l2 fl :
  rep s (l1 ++ b :: l2) fl ->
  size_at (mem s) (mem_lo s + 24 + total l1) = fst b.
Proof.
  intros R. pose proof (rep_block _ _ _ _ _ R) as B. cbv zeta in B.
  destruct B as (_ & B2 & B3 & _). unfold size_at. rewrite B3. apply PACK_size. assumption.
Qed.

(** The outcome of placing a request of [asize] bytes in the free block
    [bp], from a state that satisfies the whole invariant. *)
Lemma place_inv s l1 csize l2 f1 bp f2 asize :
  heap_inv s (l1 ++ (csize, false) :: l2) (f1 ++ bp :: f2) ->
  bp = mem_lo s + 24 + total l1 ->
  MIN_BLKSIZE <= asize <= csize -> asize mod 8 = 0 ->
  wp (place bp asize) s
     (fun _ s' =>
        same_meta s s' /\ keeps (l1 ++ (csize, false) :: l2) s s' /\
        exists sz lb fl', heap_inv s' (l1 ++ (sz, true) :: lb) fl' /\
          asize <= sz < asize + MIN_BLKSIZE /\
          alloc_blocks (bp + sz) lb = alloc_blocks (bp + csize) l2).
Proof.
  intros (R & C & NA) Hbp Hsz Ha.
  eapply wp_conseq; [apply place_spec; eassumption|].
  intros [] s' (M & H & K). cbv beta. split; [exact M|]. split; [exact K|].
  pose proof (place_result_inv (mem_lo s + 24) l1 csize l2 f1 bp f2 asize
                (rep_sizes _ _ _ R) Hbp NA C) as [[I1 N1] [I2 N2]].
  pose proof M as (E1 & _). unfold MIN_BLKSIZE in *.
  destruct (Z.leb_spec 16 (csize - asize)).
  - exists asize, ((csize - asize, false) :: l2), (f1 ++ (bp + asize) :: f2).
    split; [|split; [lia|]].
    + split; [exact H|]. split; [|exact N1]. unfold complete. rewrite E1. exact I1.
    + cbn [alloc_blocks fst snd]. f_equal. lia.
  - exists csize, l2, (f1 ++ f2). split; [|split; [lia | reflexivity]].
    split; [exact H|]. split; [|exact N2]. unfold complete. rewrite E1. exact I2.
Qed.

Lemma rep_add_out s bl fl msg : rep s bl fl -> rep (add_out s msg) bl fl.
Proof. intros R. destruct R. constructor; assumption. Qed.

Lemma heap_inv_add_out s bl fl msg :
  heap_inv s bl fl -> heap_inv (add_out s msg) bl fl.
Proof. intros (R & C & N). split; [apply rep_add_out; exact R|]. split; assumption. Qed.

(** [mm_malloc] for a nonzero request that does not wrap: it takes the
    first fit of the list when there is one, and the arena keeps its size;
    otherwise it grows the arena by the larger of the adjusted size and
    [CHUNKSIZE] and takes the new block; when the arena cannot grow it
    prints its message and returns null, and nothing else changes. *)
Lemma mm_malloc_spec s bl fl n :
  heap_inv s bl fl -> 0 < n -> n + 15 < 2 ^ 32 ->
  wp (mm_malloc n) s
     (fun p s' =>
        let r := first_fit (mem s) (adj_size n) fl in
        let ext := MAX (adj_size n) CHUNKSIZE in
        (r <> NULL /\ p = r /\ same_meta s s' /\ placed s bl n p s') \/
        (r = NULL /\ mem_brk s + ext <= mem_max s /\ p <> NULL /\
         grows s s' /\ mem_brk s' = mem_brk s + ext /\ placed s bl n p s') \/
        (r = NULL /\ mem_max s < mem_brk s + ext /\
         p = NULL /\ s' = add_out s extend_heap_failed)).
Proof.
  intros HI Hn Hb. pose proof HI as (R & C & NA).
  destruct (adj_size_facts n Hn Hb) as (EA & A1 & A2 & A3 & _).
  pose proof (rep_lo _ _ _ R) as Hlo. pose proof (rep_max _ _ _ R) as Hmax.
  pose proof (rep_brk _ _ _ R) as Hbrk.
  unfold mm_malloc. destruct (Z.eqb_spec n 0) as [|_]; [lia|].
  rewrite EA. unfold placed. set (adj := adj_size n) in *.
  apply wp_bind. eapply wp_of_eq; [eapply find_fit_ok; exact R|].
  pose proof (first_fit_spec (mem s) adj fl) as FF. cbv zeta in FF.
  destruct FF as [[E _] | (f1 & f2 & E & Hfit & _)].
  - (* no fit: extend the heap *)
    rewrite E. cbn [NULL Z.eqb negb]. unfold NULL.
    set (ext := MAX adj CHUNKSIZE).
    assert (X : 16 <= ext < 2 ^ 32 /\ ext mod 8 = 0 /\ adj <= ext).
    { unfold ext, MAX, CHUNKSIZE. change (Z.shiftl 1 8) with 256.
      destruct (Z.gtb_spec adj 256); repeat split; try lia; try assumption. }
    destruct X as (X1 & X2 & X3).
    apply wp_bind. eapply wp_conseq; [apply extend_heap_spec; eassumption|].
    intros r s1 H. cbv beta in H.
    destruct (Z.leb_spec (mem_brk s + ext) (mem_max s)) as [Hroom | Hroom].
    + destruct (coalesce_result bl ext [] (mem_brk s) fl) as [[bl1 fl1] r1].
      destruct H as (-> & HI1 & G1 & Eb & AB & K1 & la & sz' & lb & -> & Er & Hs' & _ & _ & Hh).
      pose proof (sizes_ok_total _ (proj1 (proj1 (sizes_ok_app _ _)
                    (rep_sizes _ _ _ (proj1 HI1))))) as Tl.
      destruct (Z.eqb_spec r1 0) as [|_]; [lia|].
      destruct fl1 as [|r1' rest]; [discriminate|]. injection Hh as ->.
      pose proof G1 as (G11 & G12 & G13 & G14 & G15).
      apply wp_bind. eapply wp_conseq.
      { apply (place_inv s1 la sz' lb [] r1 rest adj);
          [exact HI1 | lia | unfold MIN_BLKSIZE; lia | assumption]. }
      intros [] s2 (M2 & K2 & sz & lb' & fl' & HI2 & Hsz & AB2). apply wp_ret.
      right. left. split; [reflexivity|]. split; [exact Hroom|]. split; [lia|].
      pose proof M2 as (F1 & F2 & _).
      split; [eapply grows_trans; [exact G1 | apply same_meta_grows; exact M2]|].
      split; [lia|]. split.
      * eapply keeps_trans; [exact G11 | exact K1 |].
        eapply keeps_eq; [|exact K2]. rewrite G11. symmetry. exact AB.
      * exists la, sz, lb', fl'.
        split; [exact HI2|]. split; [exact Er|]. split; [exact Hsz|].
        rewrite <- AB, alloc_blocks_app. cbn [alloc_blocks fst snd].
        rewrite <- Er, AB2. reflexivity.
    + destruct H as [-> ->]. cbn [Z.eqb]. apply wp_bind.
      eapply wp_of_eq; [reflexivity|]. apply wp_ret. right. right. auto.
  - (* a fit *)
    assert (Hin : In (first_fit (mem s) adj fl) fl).
    { rewrite E at 2. apply in_or_app. right. left. reflexivity. }
    set (r := first_fit (mem s) adj fl) in *.
    pose proof (rep_fl_bounds _ _ _ _ R Hin) as Br.
    destruct (Z.eqb_spec r NULL) as [X|_]; [unfold NULL in X; lia|]. cbn [negb].
    pose proof (rep_incl _ _ _ R _ Hin) as Hfp.
    apply free_ptrs_split in Hfp. destruct Hfp as (l1 & csize & l2 & Ebl & Er).
    subst bl. rewrite E in HI, R.
    pose proof (rep_size_at _ _ _ _ _ R) as Es. cbn [fst] in Es. rewrite <- Er in Es.
    rewrite Es in Hfit.
    apply wp_bind. eapply wp_conseq.
    { apply (place_inv s l1 csize l2 f1 r f2 adj);
        [exact HI | exact Er | unfold MIN_BLKSIZE; lia | assumption]. }
    intros [] s2 (M2 & K2 & sz & lb' & fl' & HI2 & Hsz & AB2). apply wp_ret.
    left. split; [unfold NULL; lia|]. split; [reflexivity|]. split; [exact M2|].
    split.
    + exact K2.
    + exists l1, sz, lb', fl'.
      split; [exact HI2|]. split; [exact Er|]. split; [exact Hsz|].
      rewrite alloc_blocks_app. cbn [alloc_blocks fst snd].
      rewrite <- Er, AB2. reflexivity.
Qed.

Lemma mm_malloc_ok s bl fl n :
  heap_inv s bl fl -> 0 < n -> n + 15 < 2 ^ 32 ->
  wp (mm_malloc n) s
     (fun p s' =>
        (p = NULL /\ s' = add_out s extend_heap_failed) \/
        (p <> NULL /\ grows s s' /\
         exists la sz lb fl',
           heap_inv s' (la ++ (sz, true) :: lb) fl' /\
           p = mem_lo s + 24 + total la /\ adj_size n <= sz /\
           incl (alloc_ptrs (mem_lo s + 24) bl)
                (alloc_ptrs (mem_lo s + 24) (la ++ (sz, true) :: lb)))).
Proof.
  intros HI Hn Hb. eapply wp_conseq; [apply mm_malloc_spec; eassumption|].
  intros p s' H. cbv zeta in H.
  assert (Y : forall (G : grows s s'), p <> NULL -> placed s bl n p s' ->
              p <> NULL /\ grows s s' /\
              exists la sz lb fl',
                heap_inv s' (la ++ (sz, true) :: lb) fl' /\
                p = mem_lo s + 24 + total la /\ adj_size n <= sz /\
                incl (alloc_ptrs (mem_lo s + 24) bl)
                     (alloc_ptrs (mem_lo s + 24) (la ++ (sz, true) :: lb))).
  { intros G Hp (_ & la & sz & lb & fl' & HI' & Ep & Hsz & AB).
    split; [exact Hp|]. split; [exact G|]. exists la, sz, lb, fl'.
    split; [exact HI'|]. split; [exact Ep|]. split; [lia|].
    rewrite <- !alloc_blocks_ptrs, AB, alloc_blocks_app, !map_app.
    cbn [alloc_blocks fst snd map]. rewrite <- Ep.
    intros q Hq. apply in_app_or in Hq. apply in_or_app.
    destruct Hq; [left | right; right]; assumption. }
  destruct H as [(Hr & -> & M & P) | [(_ & _ & Hp & G & _ & P) | (_ & _ & -> & ->)]].
  - right. apply Y; [apply same_meta_grows; exact M | exact Hr | exact P].
  - right. apply Y; assumption.
  - left. split; reflexivity.
Qed.

(** ** Writes to the payload of an allocated block *)

Lemma rep_alloc_frame s m' la sz lb fl :
  rep s (la ++ (sz, true) :: lb) fl ->
  (forall a, mem_lo s + 24 + total la <= a < mem_lo s + 24 + total la + sz - 8 \/
             m' a = mem s a) ->
  rep (set_mem s m') (la ++ (sz, true) :: lb) fl.
Proof.
  intros R F.
  pose proof (rep_sizes _ _ _ R) as SZ.
  pose proof (rep_block _ _ _ _ _ R) as B. cbv zeta in B. cbn [fst snd] in B.
  destruct B as (B1 & B2 & _ & _ & B5 & B6 & B7).
  pose proof (rep_lo _ _ _ R) as Hlo. pose proof (rep_hp _ _ _ R) as Hhp.
  unfold MIN_BLKSIZE in *.
  assert (SS : soft_step (la ++ (sz, true) :: lb) s (set_mem s m')).
  { split; [repeat split|]. intros a. cbn [mem set_mem].
    destruct (F a) as [H | H]; [left | right; assumption].
    left. apply alloc_ptr_payload. lia. }
  eapply rep_soft; [exact R | exact SS | | apply (rep_incl _ _ _ R)].
  cbn [mem heap_p set_mem].
  assert (Fl : forall p, p + 4 <= mem_lo s + 24 + total la \/
                         mem_lo s + 24 + total la + sz - 8 <= p ->
                         load32 m' p = load32 (mem s) p).
  { intros p Hp. apply load32_ext. intros a Ha. destruct (F a); [lia | assumption]. }
  rewrite Fl by lia.
  eapply lseg_frame; [|apply (rep_list _ _ _ R)]. intros q Hq.
  apply (rep_incl _ _ _ R) in Hq. apply free_ptrs_around in Hq; [|assumption].
  cbn [fst snd] in Hq.
  destruct Hq as [[_ Hq] | [[_ Hq] | [_ Hq]]]; [|discriminate|];
    split; apply Fl; lia.
Qed.

Lemma heap_inv_alloc_frame s m' la sz lb fl :
  heap_inv s (la ++ (sz, true) :: lb) fl ->
  (forall a, mem_lo s + 24 + total la <= a < mem_lo s + 24 + total la + sz - 8 \/
             m' a = mem s a) ->
  heap_inv (set_mem s m') (la ++ (sz, true) :: lb) fl.
Proof.
  intros (R & C & N) F. split; [apply rep_alloc_frame; assumption|]. split; assumption.
Qed.

(** ** [mm_realloc] *)

Lemma ALIGN_facts n :
  0 < n -> n + 15 < 2 ^ 32 -> ALIGN n = adj_size n - 8 /\ n <= ALIGN n.
Proof.
  intros Hn Hb. destruct (adj_size_facts n Hn Hb) as (_ & _ & _ & A3 & A4).
  unfold ALIGN. replace (n + (8 - 1)) with (n + 7) by lia.
  rewrite wrap_small by lia. rewrite land_lnot7. rewrite A4.
  split; [reflexivity|].
  pose proof (Z.div_mod (n + 7) 8 ltac:(lia)).
  pose proof (Z.mod_pos_bound (n + 7) 8 ltac:(lia)). lia.
Qed.

Lemma wp_memcpy dst src n s Q :
  0 <= n -> mem_lo s <= dst -> dst + n <= mem_brk s ->
  mem_lo s <= src -> src + n <= mem_brk s ->
  Q tt (set_mem s (fun a => if (dst <=? a) && (a <? dst + n)
                            then byte_at (mem s) (a - dst + src)
                            else mem s a)) ->
  wp (memcpy dst src n) s Q.
Proof.
  intros H0 H1 H2 H3 H4 HQ. unfold wp, memcpy.
  rewrite !in_arena_ok by assumption. rewrite Bool.orb_true_r.
  eexists; eexists; split; [reflexivity | exact HQ].
Qed.

(** The two outcomes of [mm_malloc] for a nonzero request that does not
    wrap. *)
Lemma mm_malloc_placed s bl fl n :
  heap_inv s bl fl -> 0 < n -> n + 15 < 2 ^ 32 ->
  wp (mm_malloc n) s
     (fun p s' =>
        (p = NULL /\ s' = add_out s extend_heap_failed) \/
        (p <> NULL /\ grows s s' /\ placed s bl n p s')).
Proof.
  intros HI Hn Hb. eapply wp_conseq; [apply mm_malloc_spec; eassumption|].
  intros p s' H. cbv zeta in H.
  destruct H as [(Hr & -> & M & P) | [(_ & _ & Hp & G & _ & P) | (_ & _ & -> & ->)]].
  - right. split; [exact Hr|]. split; [apply same_meta_grows; exact M | exact P].
  - right. split; [exact Hp|]. split; assumption.
  - left. split; reflexivity.
Qed.

(** [mm_realloc] of an allocated block, for a nonzero size that does not
    wrap: when no block can be had it returns null and only the message
    is added; otherwise the new block starts with the bytes of the old
    payload (as many as both hold), the old block is free, and the other
    allocated blocks stay allocated with their payload. *)
Lemma mm_realloc_spec s l1 osz l2 fl p n :
  heap_inv s (l1 ++ (osz, true) :: l2) fl ->
  p = mem_lo s + 24 + total l1 ->
  0 < n -> n + 15 < 2 ^ 32 ->
  wp (mm_realloc p n) s
     (fun r s' =>
        (r = NULL /\ s' = add_out s extend_heap_failed) \/
        (r <> NULL /\ r <> p /\ grows s s' /\
         (forall i, 0 <= i < osz - DSIZE -> i < ALIGN n ->
                    mem s' (r + i) = byte_at (mem s) (p + i)) /\
         keeps (l1 ++ (osz, false) :: l2) s s' /\
         exists bl' fl' sz,
           heap_inv s' bl' fl' /\
           adj_size n <= sz < adj_size n + MIN_BLKSIZE /\
           forall q z,
             In (q, z) (alloc_blocks (mem_lo s + 24) bl') <->
             (q = r /\ z = sz) \/
             (In (q, z) (alloc_blocks (mem_lo s + 24) (l1 ++ (osz, true) :: l2)) /\
              q <> p))).
Proof.
  intros HI Hp Hn Hb.
  unfold mm_realloc.
  destruct (ALIGN_facts n Hn Hb) as [EA LA].
  destruct (adj_size_facts n Hn Hb) as (_ & A1 & A2 & A3 & _).
  apply wp_bind. eapply wp_conseq; [eapply mm_malloc_placed; [exact HI | lia | exact Hb]|].
  intros q s1 [[-> ->] | (Hq & G1 & K1 & la & sz & lb & fl1 & HI1 & Eq & Hsz & AB)].
  { cbn [NULL Z.eqb]. apply wp_ret. left. split; reflexivity. }
  destruct (Z.eqb_spec q NULL) as [|_]; [contradiction|].
  pose proof G1 as (G11 & G12 & G13 & G14 & G15).
  pose proof HI1 as (R1 & C1 & N1).
  pose proof (rep_sizes _ _ _ R1) as SZ1.
  pose proof (rep_sizes _ _ _ (proj1 HI)) as SZ0.
  remember (mem_lo s + 24) as base eqn:Ebase.
  (* the allocated blocks of the middle state *)
  assert (Mid : forall x z, In (x, z) (alloc_blocks base (la ++ (sz, true) :: lb)) <->
                  (x = q /\ z = sz) \/
                  In (x, z) (alloc_blocks base (l1 ++ (osz, true) :: l2))).
  { intros x z. rewrite alloc_blocks_insert, AB, <- Eq. reflexivity. }
  assert (Hnew : In (q, sz) (alloc_blocks base (la ++ (sz, true) :: lb))).
  { apply Mid. left. split; reflexivity. }
  assert (Hold : In (p, osz) (alloc_blocks base (la ++ (sz, true) :: lb))).
  { apply Mid. right. rewrite alloc_blocks_app. apply in_or_app. right.
    cbn [alloc_blocks fst snd]. left. rewrite Hp. reflexivity. }
  assert (Hpq : q <> p).
  { intros X. assert (Hold' : In (p, osz) (alloc_blocks base la ++
                                            alloc_blocks (q + sz) lb)).
    { rewrite <- AB, alloc_blocks_app. apply in_or_app. right.
      cbn [alloc_blocks fst snd]. left. rewrite Hp. reflexivity. }
    replace (q + sz) with (base + total la + sz) in Hold' by lia.
    apply (alloc_blocks_remove base la sz lb p osz SZ1) in Hold'.
    destruct Hold' as [_ Hne]. congruence. }
  destruct (alloc_blocks_split _ _ _ _ Hold) as (ma & mb & Ebl & Ep).
  pose proof (rep_block_at _ _ _ ma (osz, true) mb R1 Ebl) as B. cbv zeta in B.
  cbn [fst snd b2z] in B. rewrite G11, <- Ebase, <- Ep in B.
  destruct B as (B1 & B2 & B3 & B4 & B5 & B6 & B7).
  pose proof (rep_block _ _ _ _ _ R1) as D. cbv zeta in D. cbn [fst snd b2z] in D.
  rewrite G11, <- Ebase, <- Eq in D.
  destruct D as (D1 & D2 & D3 & D4 & D5 & D6 & D7).
  pose proof (rep_lo _ _ _ R1) as Hlo.
  unfold MIN_BLKSIZE, DSIZE in *.
  unfold HDRP, WSIZE.
  apply wp_bind. eapply (wp_GET_SIZE_PACK _ _ _ true); [| | exact B3 | exact B2 |];
    [lia | lia |].
  set (cs := if ALIGN n <? osz then ALIGN n else osz).
  assert (Hcs : 0 <= cs /\ cs <= ALIGN n /\ cs <= osz /\
                (forall i, i < osz - 8 -> i < ALIGN n -> i < cs)).
  { unfold cs. destruct (Z.ltb_spec (ALIGN n) osz); repeat split; intros; lia. }
  destruct Hcs as (Hc1 & Hc2 & Hc3 & Hc4).
  apply wp_bind. apply wp_memcpy; [lia | lia | lia | lia | lia |].
  set (s2 := set_mem s1 _).
  assert (F2 : forall a, q <= a < q + cs \/ mem s2 a = mem s1 a).
  { intros a. unfold s2. cbn [mem set_mem].
    destruct ((q <=? a) && (a <? q + cs)) eqn:Ec; [left | right; reflexivity].
    apply andb_prop in Ec. destruct Ec as [Ec1 Ec2].
    apply Z.leb_le in Ec1. apply Z.ltb_lt in Ec2. lia. }
  assert (HI2 : heap_inv s2 (la ++ (sz, true) :: lb) fl1).
  { apply heap_inv_alloc_frame; [exact HI1|]. intros a.
    destruct (F2 a) as [H | H]; [left | right; exact H].
    rewrite G11, <- Ebase. lia. }
  rewrite Ebl in HI2.
  apply wp_bind. eapply wp_conseq.
  { apply (mm_free_spec s2 ma osz mb fl1 p); [exact HI2|].
    cbn [mem_lo set_mem s2]. rewrite G11, <- Ebase. exact Ep. }
  intros [] s3 (M3 & H3). apply wp_ret.
  destruct (coalesce_result ma osz mb p fl1) as [[bl3 fl3] r3].
  destruct H3 as (HI3 & AB3 & K3 & _).
  unfold keeps in K3.
  cbn [mem_lo set_mem s2] in AB3, K3. rewrite G11, <- Ebase in AB3, K3.
  right. split; [exact Hq|]. split; [exact Hpq|].
  split.
  { eapply grows_trans; [exact G1|]. apply same_meta_grows.
    destruct M3 as (M31 & M32 & M33 & M34 & M35). repeat split; assumption. }
  (* the payload of the allocated blocks of the middle state, the old one apart *)
  assert (Rest : forall x z, In (x, z) (alloc_blocks base (la ++ (sz, true) :: lb)) ->
                   x <> p -> forall a, x <= a < x + z - 8 ->
                   in_use base (ma ++ (osz, false) :: mb) a).
  { intros x z Hx Hne a Ha. rewrite Ebl in Hx, SZ1.
    apply (in_use_other base ma osz mb x z a SZ1 Hx); [congruence | exact Ha]. }
  split; [|split].
  - (* the payload has moved *)
    intros i Hi Hi'. specialize (Hc4 i).
    rewrite (K3 (q + i)) by (apply (Rest q sz Hnew Hpq); lia).
    unfold s2. cbn [mem set_mem].
    replace ((q <=? q + i) && (q + i <? q + cs)) with true
      by (symmetry; apply andb_true_intro; split;
          [apply Z.leb_le | apply Z.ltb_lt]; lia).
    replace (q + i - q + p) with (p + i) by lia.
    unfold byte_at. rewrite (K1 (p + i)); [reflexivity|].
    rewrite <- Ebase, Hp, Ebase. apply in_use_block. lia.
  - (* the other blocks keep their payload *)
    intros a Ha. rewrite <- Ebase in Ha.
    pose proof Ha as (x & z & Hx & Hxa). unfold DSIZE in Hxa.
    rewrite alloc_blocks_app in Hx. cbn [alloc_blocks fst snd] in Hx.
    apply (alloc_blocks_remove base l1 osz l2 x z SZ0) in Hx.
    destruct Hx as [Hx Hxp]. rewrite <- Hp in Hxp.
    assert (Hxm : In (x, z) (alloc_blocks base (la ++ (sz, true) :: lb)))
      by (apply Mid; right; exact Hx).
    pose proof (alloc_blocks_sep _ _ _ _ _ _ SZ1 Hnew Hxm) as Sep.
    rewrite (K3 a) by (apply (Rest x z Hxm Hxp); lia).
    destruct (F2 a) as [X | ->].
    + exfalso. destruct Sep as [[E _] | Sep]; [|lia].
      subst x. rewrite AB in Hx.
      replace (q + sz) with (base + total la + sz) in Hx by lia.
      apply (alloc_blocks_remove base la sz lb q z SZ1) in Hx. tauto.
    + apply K1. rewrite <- Ebase. apply in_use_flip. exact Ha.
  - exists bl3, fl3, sz. split; [exact HI3|]. split; [exact Hsz|].
    intros x z. rewrite AB3. rewrite Ep.
    rewrite Ebl in SZ1, Mid.
    rewrite (alloc_blocks_remove base ma osz mb x z SZ1). rewrite <- Ep.
    rewrite Mid. split.
    + intros [[H | H] Hne]; [left; exact H | right; split; assumption].
    + intros [[-> ->] | [H Hne]]; (split; [|assumption]); [left; split; reflexivity|].
      right. exact H.
Qed.

Lemma mm_realloc_ok s bl fl p n :
  heap_inv s bl fl -> In p (alloc_ptrs (mem_lo s + 24) bl) ->
  0 <= n -> n + 15 < 2 ^ 32 ->
  wp (mm_realloc p n) s
     (fun r s' => (grows s s' \/ s' = add_out s extend_heap_failed) /\
                  exists bl' fl', heap_inv s' bl' fl').
Proof.
  intros HI Hp Hn Hb.
  destruct (Z.eq_dec n 0) as [-> | Hnz].
  { unfold mm_realloc. apply wp_bind. eapply wp_of_eq; [reflexivity|]. cbn [NULL Z.eqb].
    apply wp_ret. split; [left; apply same_meta_grows, same_meta_refl|].
    exists bl, fl. exact HI. }
  apply alloc_ptrs_split in Hp. destruct Hp as (l1 & osz & l2 & -> & Ep).
  eapply wp_conseq; [apply (mm_realloc_spec s l1 osz l2 fl p n HI Ep); lia|].
  intros r s' [[-> ->] | (_ & _ & G & _ & _ & bl' & fl' & _ & HI' & _)].
  - split; [right; reflexivity|]. eexists; eexists. apply heap_inv_add_out. exact HI.
  - split; [left; exact G|]. exists bl', fl'. exact HI'.
Qed.

(** ** [mm_init] *)

Lemma wp_put_heap_p p s Q : Q tt (set_heap_p s p) -> wp (put_heap_p p) s Q.
Proof. intros H. exists tt, (set_heap_p s p). split; [reflexivity | assumption]. Qed.

Lemma wp_elim {A} (c : M A) s (Q : A -> heap -> Prop) x s' :
  wp c s Q -> c s = Some (x, s') -> Q x s'.
Proof. intros (y & t & E & HQ) H. rewrite E in H. injection H as -> ->. assumption. Qed.

(** [mm_init] on an empty arena: it succeeds exactly when the backing
    store has room for the six words of prologue and epilogue and for the
    first chunk, and then the heap is one free block of [CHUNKSIZE] bytes. *)
Lemma mm_init_spec s0 :
  fresh s0 ->
  wp mm_init s0
     (fun r s' =>
        if mem_lo s0 + 6 * WSIZE + CHUNKSIZE <=? mem_max s0 then
          r = 0 /\ heap_inv s' [(CHUNKSIZE, false)] [mem_lo s0 + 24] /\
          mem_lo s' = mem_lo s0 /\ mem_max s' = mem_max s0 /\ out s' = out s0
        else r = -1).
Proof.
  intros (Hlo & Hal & Hbrk & Hmax).
  unfold mm_init. apply wp_bind, wp_mem_sbrk.
  destruct (Z.leb_spec (mem_brk s0 + 6 * WSIZE) (mem_max s0)) as [Hfit | Hno].
  2:{ apply wp_bind, wp_put_heap_p. apply wp_ret.
      destruct (Z.leb_spec (mem_lo s0 + 6 * WSIZE + CHUNKSIZE) (mem_max s0)) as [X|_];
        [|reflexivity].
      exfalso. unfold CHUNKSIZE in X. change (Z.shiftl 1 8) with 256 in X. lia. }
  unfold WSIZE, DSIZE, MIN_BLKSIZE in *. rewrite Hbrk in *.
  set (lo := mem_lo s0) in *.
  apply wp_bind, wp_put_heap_p.
  apply wp_bind, wp_PUT; [cbn; lia | cbn; lia |].
  apply wp_bind, wp_PUT; [cbn; lia | cbn; lia |].
  apply wp_bind, wp_PUT; [cbn; lia | cbn; lia |].
  apply wp_bind, wp_PUT; [cbn; lia | cbn; lia |].
  apply wp_bind, wp_PUT; [cbn; lia | cbn; lia |].
  apply wp_bind, wp_PUT; [cbn; lia | cbn; lia |].
  apply wp_bind, wp_put_heap_p.
  set (s7 := set_heap_p _ (lo + 8)).
  assert (W16 : wrap (PACK 16 (b2z true)) = PACK 16 (b2z true))
    by (apply wrap_PACK; [reflexivity | lia]).
  assert (W0 : wrap (PACK 0 (b2z true)) = PACK 0 (b2z true))
    by (apply wrap_PACK; [reflexivity | lia]).
  cbn [b2z] in W16, W0.
  assert (HI7 : heap_inv s7 [] []).
  { split; [|split; [intros q [] | exact I]].
    constructor; cbn [mem_lo mem_brk mem_max heap_p set_heap_p put set_mem set_brk s7];
      fold lo; try assumption; try lia; try reflexivity.
    - unfold s7. cbn [mem set_heap_p].
      replace (lo + 4) with (lo + 1 * 4) by lia. ld. exact W16.
    - unfold s7. cbn [mem set_heap_p].
      replace (lo + 16) with (lo + 4 * 4) by lia. ld. exact W16.
    - unfold s7. cbn [mem set_heap_p].
      replace (lo + 6 * 4 - 4) with (lo + 5 * 4) by lia. ld. exact W0.
    - unfold s7. cbn [mem set_heap_p lseg].
      replace (lo + 8) with (lo + 2 * 4) by lia. ld. reflexivity.
    - intros q []. }
  change (CHUNKSIZE) with 256.
  apply wp_bind. eapply wp_conseq.
  { apply (extend_heap_ok s7 [] [] 256 HI7); [lia | reflexivity]. }
  intros r s8 H. cbv beta in H.
  cbn [mem_brk mem_max mem_lo set_heap_p put set_mem set_brk s7] in H. fold lo in H.
  destruct (lo + 6 * 4 + 256 <=? mem_max s0).
  2:{ destruct H as [-> _]. cbn [NULL Z.eqb]. apply wp_ret. reflexivity. }
  unfold coalesce_result in H. cbn [prev_is_free next_is_free rev app] in H.
  destruct H as (-> & HI8 & G8 & _).
  pose proof HI8 as (R8 & C8 & N8).
  pose proof G8 as (G1 & G2 & G3 & G4 & G5).
  cbn [mem_brk mem_max mem_lo heap_p out set_heap_p put set_mem set_brk s7] in G1, G2, G3, G4, G5.
  fold lo in G1, G2, G4.
  destruct (Z.eqb_spec (lo + 6 * 4) NULL) as [X|_]; [unfold NULL in X; lia|].
  pose proof (rep_pro_h _ _ _ R8) as P8. rewrite G1 in P8.
  pose proof (rep_block s8 [] (256, false) [] _ R8) as B8. cbv zeta in B8.
  cbn [total fst snd] in B8. rewrite G1 in B8.
  destruct B8 as (_ & _ & _ & _ & _ & _ & B87).
  apply wp_bind, wp_get_heap_p. rewrite G4.
  apply wp_bind. eapply (wp_NEXT_BLKP _ _ 16 true); [lia | lia | | reflexivity |].
  { replace (lo + 8 - 4) with (lo + 4) by lia. exact P8. }
  replace (lo + 8 + 16) with (lo + 24) by lia.
  unfold SETNEXT, SETPREV, NEXT, WSIZE.
  apply wp_bind, wp_PUT; [lia | lia |].
  apply wp_bind, wp_GET; [cbn; lia | cbn; lia |].
  rewrite load_put_same. rewrite wrap_small by lia.
  apply wp_bind, wp_PUT; [cbn; lia | cbn; lia |].
  apply wp_bind, wp_PUT; [cbn; lia | cbn; lia |].
  apply wp_ret. split; [reflexivity|].
  set (s11 := put _ (lo + 24 + 4) 0).
  assert (Hfp : In (lo + 24) (free_ptrs (mem_lo s8 + 24) [(256, false)])).
  { cbn [free_ptrs snd]. left. lia. }
  assert (SS : soft_step [(256, false)] s8 s11).
  { unfold s11.
    eapply soft_step_trans; [eapply soft_step_trans|];
      apply soft_step_put; intros a Ha; cbn [mem_lo put set_mem];
      first [ apply soft_root; lia
            | eapply soft_link; [eapply rep_sizes; exact R8 | exact Hfp | lia] ]. }
  split; [|destruct SS as [(E1 & E2 & E3 & E4 & E5) _]; repeat split; congruence].
  split; [|split].
  - replace (lo + 6 * 4) with (lo + 24) in R8 by lia.
    eapply rep_soft; [exact R8 | exact SS | | ].
    + unfold s11. cbn [heap_p put set_mem lseg]. rewrite G4.
      ld. rewrite !wrap_small by lia. repeat split; lia.
    + intros q [<- | []]. exact Hfp.
  - unfold complete. cbn [mem_lo put set_mem s11]. rewrite G1.
    cbn [free_ptrs snd]. intros q [<- | []]. left. reflexivity.
  - exact N8.
Qed.

Lemma mm_init_ok s0 :
  fresh s0 ->
  wp mm_init s0
     (fun r s' =>
        r = -1 \/
        (r = 0 /\ heap_inv s' [(CHUNKSIZE, false)] [mem_lo s0 + 24] /\
         mem_lo s' = mem_lo s0 /\ mem_max s' = mem_max s0 /\ out s' = out s0)).
Proof.
  intros H. eapply wp_conseq; [apply mm_init_spec; exact H|].
  intros r s'. destruct (mem_lo s0 + 6 * WSIZE + CHUNKSIZE <=? mem_max s0); tauto.
Qed.

(** ** The arena walk and the abstract view agree *)

Lemma sizes_ok_length (l : list block) :
  sizes_ok l -> 16 * Z.of_nat (List.length l) <= total l.
Proof.
  induction 1 as [|b l [Hb _] _ IH]; cbn [List.length total]; unfold MIN_BLKSIZE in *; lia.
Qed.

Lemma walk_seg m l p e fuel :
  seg m p l e -> load32 m (e - 4) = PACK 0 1 ->
  (List.length l < fuel)%nat -> walk fuel m p = layout p l.
Proof.
  revert p fuel. induction l as [|[sz a] l IH]; intros p fuel S E F.
  - destruct fuel as [|fuel]; [reflexivity|]. cbn [seg] in S. subst e.
    cbn [walk layout]. unfold HDRP, WSIZE. rewrite E.
    change (PACK 0 1) with (PACK 0 (b2z true)). rewrite PACK_size by reflexivity.
    reflexivity.
  - destruct fuel as [|fuel]; [cbn in F; lia|].
    destruct S as (S1 & S2 & S3 & S4 & S5). cbn [fst snd] in *.
    cbn [walk layout fst]. unfold HDRP, WSIZE. rewrite S3.
    rewrite PACK_size, PACK_alloc by assumption.
    unfold MIN_BLKSIZE in S1.
    destruct (Z.eqb_spec sz 0) as [|_]; [lia|].
    replace (negb (b2z a =? 0)) with a by (destruct a; reflexivity).
    rewrite (IH (p + sz) fuel); [reflexivity | assumption | assumption | cbn in F; lia].
Qed.

Lemma rep_heap_blocks s bl fl :
  rep s bl fl -> heap_blocks s = layout (mem_lo s + 24) bl.
Proof.
  intros R. unfold heap_blocks, MIN_BLKSIZE. rewrite (rep_hp _ _ _ R).
  replace (mem_lo s + 8 + 16) with (mem_lo s + 24) by lia.
  eapply walk_seg; [apply (rep_seg _ _ _ R) | apply (rep_epi _ _ _ R) |].
  pose proof (sizes_ok_length _ (rep_sizes _ _ _ R)).
  pose proof (seg_end _ _ _ _ (rep_seg _ _ _ R)). lia.
Qed.

Lemma layout_snd p l : map snd (layout p l) = l.
Proof.
  revert p. induction l as [|b l IH]; intros p; cbn [layout map snd]; [reflexivity|].
  rewrite IH. reflexivity.
Qed.

Lemma In_layout p l q b :
  In (q, b) (layout p l) <->
  exists l1 l2, l = l1 ++ b :: l2 /\ q = p + total l1.
Proof.
  revert p. induction l as [|b0 l IH]; intros p; cbn [layout In].
  - split; [tauto|]. intros (l1 & l2 & E & _). destruct l1; discriminate.
  - rewrite IH. split.
    + intros [E | (l1 & l2 & -> & ->)].
      * injection E as <- <-. exists [], l. split; [reflexivity | cbn; lia].
      * exists (b0 :: l1), l2. split; [reflexivity | cbn [total]; lia].
    + intros (l1 & l2 & E & ->). destruct l1 as [|b1 l1].
      * left. cbn in E. injection E as -> ->. f_equal. cbn. lia.
      * right. cbn [app] in E. injection E as -> ->. exists l1, l2.
        split; [reflexivity | cbn [total]; lia].
Qed.

Lemma In_layout_free p l q :
  In q (free_ptrs p l) <-> exists sz, In (q, (sz, false)) (layout p l).
Proof.
  revert p. induction l as [|[sz a] l IH]; intros p; cbn [layout free_ptrs In fst snd].
  - split; [tauto | intros [? []]].
  - destruct a.
    + rewrite IH. split.
      * intros [z H]. exists z. right. assumption.
      * intros [z [H | H]]; [discriminate | exists z; assumption].
    + cbn [In]. rewrite IH. split.
      * intros [<- | [z H]]; [exists sz; left; reflexivity | exists z; right; assumption].
      * intros [z [H | H]]; [injection H as <- <-; left; reflexivity | right; exists z; assumption].
Qed.

(** ** The invariant holds in every reachable state *)

Theorem reachable_inv s : reachable s -> exists bl fl, heap_inv s bl fl.
Proof.
  induction 1 as [s0 s F E | s n p s' _ IH [Hn Hb] E | s p sz s' _ IH Hp E
                  | s p sz n r s' _ IH Hp [Hn Hb] E | s p sz i b _ IH Hp Hi].
  - pose proof (wp_elim _ _ _ _ _ (mm_init_ok s0 F) E) as [X | (_ & HI & _)];
      [discriminate | eauto].
  - destruct IH as (bl & fl & HI).
    destruct (Z.eq_dec n 0) as [-> | Hnz].
    + cbn in E. injection E as <- <-. eauto.
    + pose proof (wp_elim _ _ _ _ _ (mm_malloc_ok s bl fl n HI ltac:(lia) Hb) E)
        as [[_ ->] | (_ & _ & la & z & lb & fl' & HI' & _)].
      * exists bl, fl. apply heap_inv_add_out. exact HI.
      * eauto.
  - destruct IH as (bl & fl & HI).
    rewrite (rep_heap_blocks _ _ _ (proj1 HI)) in Hp.
    apply In_layout in Hp. destruct Hp as (l1 & l2 & -> & Ep).
    pose proof (wp_elim _ _ _ _ _ (mm_free_ok s l1 sz l2 fl p HI Ep) E) as [_ X].
    destruct (coalesce_result l1 sz l2 p fl) as [[bl' fl'] r'].
    destruct X as [HI' _]. eauto.
  - destruct IH as (bl & fl & HI).
    rewrite (rep_heap_blocks _ _ _ (proj1 HI)) in Hp.
    assert (Hp' : In p (alloc_ptrs (mem_lo s + 24) bl)).
    { apply In_layout in Hp. destruct Hp as (l1 & l2 & -> & ->).
      rewrite alloc_ptrs_app. apply in_or_app. right. left. reflexivity. }
    pose proof (wp_elim _ _ _ _ _ (mm_realloc_ok s bl fl p n HI Hp' Hn Hb) E) as [_ X].
    exact X.
  - destruct IH as (bl & fl & HI).
    rewrite (rep_heap_blocks _ _ _ (proj1 HI)) in Hp.
    apply In_layout in Hp. destruct Hp as (l1 & l2 & -> & ->).
    exists (l1 ++ (sz, true) :: l2), fl. unfold poke.
    apply heap_inv_alloc_frame; [exact HI|]. intros a. unfold DSIZE in Hi.
    destruct (Z.eqb_spec a (mem_lo s + 24 + total l1 + i)); [left; lia | right; reflexivity].
Qed.

(** * The claims *)

(** ** Block-level invariant, for requests that do not wrap *)

(** X19. In every state reached from [mm_init] by calls of [mm_malloc] and
    [mm_realloc] with sizes that do not wrap ([size + 15 < 2^32]), calls of
    [mm_free] and [mm_realloc] on blocks allocated at the time, and user
    writes into allocated payload, the walk of the arena covers it up to
    the epilogue, the header and the footer of every free block hold the
    same word (its size, allocated bit clear), and no two blocks next to
    each other are both free. *)
Theorem block_invariant s :
  reachable s ->
  let bs := heap_blocks s in
  heap_p s + MIN_BLKSIZE + total (map snd bs) = mem_brk s /\
  (forall bp sz, In (bp, (sz, false)) bs ->
     load32 (mem s) (HDRP bp) = PACK sz 0 /\
     load32 (mem s) (bp + sz - DSIZE) = PACK sz 0) /\
  no_adj (map snd bs).
Proof.
  intros H. destruct (reachable_inv s H) as (bl & fl & R & C & N).
  cbv zeta. rewrite (rep_heap_blocks _ _ _ R), layout_snd.
  split; [|split; [|exact N]].
  - rewrite (rep_hp _ _ _ R). pose proof (seg_end _ _ _ _ (rep_seg _ _ _ R)).
    unfold MIN_BLKSIZE. lia.
  - intros bp sz Hin. apply In_layout in Hin. destruct Hin as (l1 & l2 & -> & ->).
    pose proof (rep_block _ _ _ _ _ R) as B. cbv zeta in B. cbn [fst snd b2z] in B.
    unfold HDRP, WSIZE, DSIZE. tauto.
Qed.

(** ** Free-list invariant, for requests that do not wrap *)

Lemma lseg_next_prev m h l a b :
  lseg m h 0 l 0 -> In a l -> load32 m a = b -> b <> 0 ->
  In b l /\ load32 m (b + 4) = a.
Proof.
  intros L Ha Eb Hb. apply in_split in Ha. destruct Ha as (l1 & l2 & ->).
  destruct (lseg_mid _ _ _ _ _ L) as (_ & _ & _ & Hn & L2).
  rewrite Eb in Hn. destruct l2 as [|x l2]; cbn [hd] in Hn; [congruence|]. subst x.
  destruct L2 as (_ & _ & Hp & _).
  split; [|exact Hp]. apply in_or_app. right. right. left. reflexivity.
Qed.

Lemma lseg_prev_next m h l a b :
  lseg m h 0 l 0 -> In b l -> load32 m (b + 4) = a -> a <> 0 ->
  In a l /\ load32 m a = b.
Proof.
  intros L Hb Ea Ha. apply in_split in Hb. destruct Hb as (l1 & l2 & ->).
  destruct (lseg_mid _ _ _ _ _ L) as (L1 & _ & Hp & _).
  rewrite Ea in Hp. destruct l1 as [|x l1] using rev_ind; [cbn in Hp; congruence|].
  rewrite last_snoc in Hp. subst x.
  apply lseg_snoc in L1. destruct L1 as (_ & _ & _ & Hn).
  split; [|exact Hn]. apply in_or_app. left. apply in_or_app. right. left. reflexivity.
Qed.

(** X20. In every state reached as in [block_invariant], by requests
    that do not wrap ([size + 15 < 2^32]), the nodes met by following
    next-links from the list head, down to the null link, are exactly the
    blocks whose allocated bit is clear, each once; the first node has a
    null prev-link, and the links are symmetric: when the next-link of [a]
    is [b], the prev-link of [b] is [a], and the other way round. *)
Theorem free_list_invariant s :
  reachable s ->
  exists fl,
    lseg (mem s) (load32 (mem s) (heap_p s)) 0 fl 0 /\ NoDup fl /\
    (forall q, In q fl <-> exists sz, In (q, (sz, false)) (heap_blocks s)) /\
    (forall a b, In a fl -> load32 (mem s) a = b -> b <> NULL ->
                 In b fl /\ load32 (mem s) (b + WSIZE) = a) /\
    (forall a b, In b fl -> load32 (mem s) (b + WSIZE) = a -> a <> NULL ->
                 In a fl /\ load32 (mem s) a = b).
Proof.
  intros H. destruct (reachable_inv s H) as (bl & fl & R & C & N).
  pose proof (rep_list _ _ _ R) as L.
  exists fl. split; [exact L|]. split; [eapply lseg_NoDup; exact L|].
  split; [|split].
  - intros q. rewrite (rep_heap_blocks _ _ _ R), <- In_layout_free. split.
    + apply (rep_incl _ _ _ R).
    + apply C.
  - intros a b Ha Eb Hb. eapply lseg_next_prev; eassumption.
  - intros a b Ha Eb Hb. eapply lseg_prev_next; eassumption.
Qed.

(** ** [coalesce] *)

Lemma coalesce_no_adj (l1 : list block) sz (l2 : list block) bp fl :
  no_adj l1 -> no_adj l2 ->
  no_adj (fst (fst (coalesce_result l1 sz l2 bp fl))).
Proof.
  intros NA1 NA2. unfold coalesce_result.
  destruct (prev_is_free l1) eqn:Epf; destruct (next_is_free l2) eqn:Enf; cbn [fst].
  - pose proof (prev_free_shape _ Epf) as E1. pose proof (next_free_shape _ Enf) as E2.
    rewrite E1 in NA1. rewrite E2 in NA2.
    apply no_adj_mid in NA1. destruct NA1 as (NA1 & _ & NA1').
    change ((next_size l2, false) :: tl l2)
      with ([] ++ (next_size l2, false) :: tl l2) in NA2.
    apply no_adj_mid in NA2. destruct NA2 as (_ & NA2 & NA2').
    apply no_adj_mid. split; [assumption|]. split; [assumption|]. intros _.
    split; [apply NA1' | apply NA2']; reflexivity.
  - pose proof (prev_free_shape _ Epf) as E1. rewrite E1 in NA1.
    apply no_adj_mid in NA1. destruct NA1 as (NA1 & _ & NA1').
    apply no_adj_mid. split; [assumption|]. split; [assumption|]. intros _.
    split; [apply NA1'; reflexivity | assumption].
  - pose proof (next_free_shape _ Enf) as E2. rewrite E2 in NA2.
    change ((next_size l2, false) :: tl l2)
      with ([] ++ (next_size l2, false) :: tl l2) in NA2.
    apply no_adj_mid in NA2. destruct NA2 as (_ & NA2 & NA2').
    apply no_adj_mid. split; [assumption|]. split; [assumption|]. intros _.
    split; [assumption | apply NA2'; reflexivity].
  - apply no_adj_mid. split; [assumption|]. split; [assumption|]. intros _.
    split; assumption.
Qed.

(** C3. Called on a free block [bp] of size [sz] that lies between the
    blocks [l1] and [l2], is not on the list, and whose free neighbours
    are, [coalesce] returns and follows the four cases: a free neighbour is
    taken off the list, the merged block has the sum of the sizes and
    starts at the predecessor when that one is free, its header and footer
    hold the merged size with the allocated bit clear (in [rep]), and the
    block returned is the first node of the list; after it no two free
    blocks are neighbours. *)
Theorem coalesce_four_cases s l1 sz l2 fl bp :
  coalesce_pre s l1 sz l2 fl bp -> no_adj l1 -> no_adj l2 ->
  exists r s' bl' fl',
    coalesce bp s = Some (r, s') /\ same_meta s s' /\
    rep s' bl' fl' /\ no_adj bl' /\ hd_error fl' = Some r /\
    let psz := prev_size l1 in
    let nsz := next_size l2 in
    match prev_is_free l1, next_is_free l2 with
    | false, false =>
        r = bp /\ bl' = l1 ++ (sz, false) :: l2 /\ fl' = bp :: fl
    | false, true =>
        r = bp /\ bl' = l1 ++ (sz + nsz, false) :: tl l2 /\
        fl' = bp :: remove Z.eq_dec (bp + sz) fl
    | true, false =>
        r = bp - psz /\ bl' = removelast l1 ++ (sz + psz, false) :: l2 /\
        fl' = (bp - psz) :: remove Z.eq_dec (bp - psz) fl
    | true, true =>
        r = bp - psz /\
        bl' = removelast l1 ++ (sz + (psz + nsz), false) :: tl l2 /\
        fl' = (bp - psz) :: remove Z.eq_dec (bp + sz)
                              (remove Z.eq_dec (bp - psz) fl)
    end.
Proof.
  intros PRE NA1 NA2.
  destruct (coalesce_ok _ _ _ _ _ _ PRE) as (r & s' & E & H).
  pose proof (coalesce_no_adj l1 sz l2 bp fl NA1 NA2) as CN.
  unfold coalesce_result in *. cbv zeta.
  destruct (prev_is_free l1), (next_is_free l2); cbn [fst] in CN;
    destruct H as (-> & R' & M);
    (eexists; exists s'; eexists; eexists;
     split; [exact E|]; split; [exact M|]; split; [exact R'|];
     split; [exact CN|]; split; [reflexivity | repeat split]).
Qed.

(** ** [place] *)

(** C4. For a free block [bp] of size [csize] on the list and a request
    [asize] that fits (a multiple of 8, at least the minimum block),
    [place] returns; it splits exactly when [csize - asize] is at least the
    minimum block size: then the low [asize] bytes are an allocated block
    and the rest is a free block that stands where [bp] stood in the list
    (same neighbours; first node when [bp] was); otherwise [bp] leaves the
    list and the whole block is allocated. *)
Theorem place_cases s l1 csize l2 f1 bp f2 asize :
  rep s (l1 ++ (csize, false) :: l2) (f1 ++ bp :: f2) ->
  bp = mem_lo s + 24 + total l1 ->
  MIN_BLKSIZE <= asize <= csize -> asize mod 8 = 0 ->
  exists s',
    place bp asize s = Some (tt, s') /\ same_meta s s' /\
    (MIN_BLKSIZE <= csize - asize ->
       rep s' (l1 ++ (asize, true) :: (csize - asize, false) :: l2)
              (f1 ++ (bp + asize) :: f2)) /\
    (csize - asize < MIN_BLKSIZE ->
       rep s' (l1 ++ (csize, true) :: l2) (f1 ++ f2)).
Proof.
  intros R Hbp Hsz Ha.
  destruct (place_ok _ _ _ _ _ _ _ _ R Hbp Hsz Ha) as ([] & s' & E & M & H).
  exists s'. split; [exact E|]. split; [exact M|].
  destruct (Z.leb_spec MIN_BLKSIZE (csize - asize)); split; intros; try lia; exact H.
Qed.

(** ** [find_fit] *)

(** C5. On a state that holds a valid free list [fl], [find_fit] returns,
    leaves the state alone, and gives the first node in list order whose
    block size is at least the request, or null when the list is empty or
    no node is large enough. *)
Theorem find_fit_first_fit s bl fl asize :
  rep s bl fl ->
  exists r,
    find_fit asize s = Some (r, s) /\
    ((r = NULL /\ forall q, In q fl -> size_at (mem s) q < asize) \/
     (exists f1 f2, fl = f1 ++ r :: f2 /\ asize <= size_at (mem s) r /\
                    forall q, In q f1 -> size_at (mem s) q < asize)).
Proof.
  intros R. exists (first_fit (mem s) asize fl).
  split; [eapply find_fit_ok; exact R | apply first_fit_spec].
Qed.

(** ** Zero sizes *)

Lemma cons_neq {A} (x : A) (l : list A) : x :: l <> l.
Proof.
  intros E. apply (f_equal (@List.length A)) in E. cbn in E. lia.
Qed.

(** C9. [mm_malloc 0] returns null and leaves the whole state as it was:
    arena bounds, every byte of the arena and so every header, footer and
    link, and the output.  The failure of a nonzero request is told apart
    from it by the message it prints. *)
Theorem malloc_zero_noop s :
  mm_malloc 0 s = Some (NULL, s) /\
  forall n s', reachable s -> request_ok n -> n <> 0 ->
               mm_malloc n s = Some (NULL, s') ->
               out s' = extend_heap_failed :: out s /\ s' <> s.
Proof.
  split; [reflexivity|].
  intros n s' H [Hn Hb] Hnz E.
  destruct (reachable_inv s H) as (bl & fl & HI).
  pose proof (wp_elim _ _ _ _ _ (mm_malloc_ok s bl fl n HI ltac:(lia) Hb) E)
    as [[_ ->] | (X & _)]; [|contradiction].
  split; [reflexivity|]. intros X. apply (f_equal out) in X. cbn in X.
  exact (cons_neq _ _ X).
Qed.

(** C10. [mm_realloc p 0] returns null and leaves the whole state as it
    was, whatever [p] is: the block at [p] keeps its header, footer and
    payload and stays allocated, and the free list is not touched. *)
Theorem realloc_zero_noop s p : mm_realloc p 0 s = Some (NULL, s).
Proof. reflexivity. Qed.

(** ** Null old pointer *)

(** C8, as amended.  [mm_realloc] has no test for a null old pointer.  In
    a reachable state and for a nonzero request that does not wrap it
    first allocates as [mm_malloc] does; when that gives null it returns
    null, and when it gives a block it goes on to read the header word of
    the old pointer, at address [NULL - 4] outside the arena: the call has
    no defined result. *)
Theorem realloc_null s n :
  reachable s -> request_ok n -> n <> 0 ->
  exists p s',
    mm_malloc n s = Some (p, s') /\
    mm_realloc NULL n s = if p =? NULL then Some (NULL, s') else None.
Proof.
  intros H [Hn Hb] Hnz.
  destruct (reachable_inv s H) as (bl & fl & HI).
  destruct (mm_malloc_ok s bl fl n HI ltac:(lia) Hb) as (p & s' & E & Q).
  exists p, s'. split; [exact E|].
  unfold mm_realloc, bind. rewrite E.
  destruct (Z.eqb_spec p NULL) as [|Hp]; [reflexivity|].
  destruct Q as [[X _] | (_ & G & la & sz & lb & fl' & HI' & _)]; [contradiction|].
  pose proof (rep_lo _ _ _ (proj1 HI')) as Hlo.
  unfold GET_SIZE, bind, GET, HDRP, NULL, WSIZE, in_arena.
  destruct (Z.leb_spec (mem_lo s') (0 - 4)) as [X|_]; [lia|]. reflexivity.
Qed.

(** ** Alignment and capacity, for requests that do not wrap *)

Lemma malloc_aligned_fits s n p s' :
  reachable s -> request_ok n -> n <> 0 ->
  mm_malloc n s = Some (p, s') -> p <> NULL ->
  p mod 8 = 0 /\
  exists sz, In (p, (sz, true)) (heap_blocks s') /\ n <= sz - DSIZE.
Proof.
  intros H [Hn Hb] Hnz E Hp.
  destruct (reachable_inv s H) as (bl & fl & HI).
  pose proof (wp_elim _ _ _ _ _ (mm_malloc_ok s bl fl n HI ltac:(lia) Hb) E)
    as [[X _] | (_ & G & la & sz & lb & fl' & HI' & Ep & Hsz & _)]; [contradiction|].
  destruct (adj_size_facts n ltac:(lia) Hb) as (_ & _ & _ & A3 & _).
  pose proof HI' as (R' & _). pose proof G as (G1 & _).
  split.
  - pose proof (rep_sizes _ _ _ R') as SZ. apply sizes_ok_app in SZ.
    pose proof (sizes_ok_total_mod _ (proj1 SZ)) as T.
    pose proof (rep_align _ _ _ (proj1 HI)) as A.
    rewrite Ep. rewrite Z.add_mod, (Z.add_mod (mem_lo s) 24), A, T by lia. reflexivity.
  - exists sz. split; [|unfold DSIZE; lia].
    rewrite (rep_heap_blocks _ _ _ R'). apply In_layout.
    exists la, lb. split; [reflexivity | lia].
Qed.

(** * Concrete runs: witnesses and failing inputs *)

Ltac conc :=
  vm_compute; repeat split;
  solve [ reflexivity | let Hx := fresh in intro Hx; discriminate Hx
        | intros; assumption ].

Lemma demo_fresh_ok : fresh demo_fresh.
Proof. unfold fresh. conc. Defined.

Lemma demo_init_run : mm_init demo_fresh = Some (0, demo_init).
Proof. vm_compute. reflexivity. Defined.

Lemma demo_init_reachable : reachable demo_init.
Proof. exact (reach_init demo_fresh demo_init demo_fresh_ok demo_init_run). Defined.

Lemma demo_init_rep : rep demo_init [(256, false)] [4120].
Proof.
  constructor; conc.
Defined.

Lemma demo_hole_reachable : reachable demo_hole.
Proof.
  assert (Ra : reachable demo_a).
  { apply (reach_malloc demo_init 1 4120 demo_a demo_init_reachable).
    - unfold request_ok. conc.
    - vm_compute. reflexivity. }
  assert (Rb : reachable demo_ab).
  { apply (reach_malloc demo_a 1 4136 demo_ab Ra).
    - unfold request_ok. conc.
    - vm_compute. reflexivity. }
  apply (reach_free demo_ab 4120 16 demo_hole Rb).
  - vm_compute. left. reflexivity.
  - vm_compute. reflexivity.
Qed.

Lemma block_invariant_witness :
  reachable demo_hole /\
  (let bs := heap_blocks demo_hole in
   heap_p demo_hole + MIN_BLKSIZE + total (map snd bs) = mem_brk demo_hole /\
   (forall bp sz, In (bp, (sz, false)) bs ->
      load32 (mem demo_hole) (HDRP bp) = PACK sz 0 /\
      load32 (mem demo_hole) (bp + sz - DSIZE) = PACK sz 0) /\
   no_adj (map snd bs)).
Proof.
  split; [exact demo_hole_reachable|].
  exact (block_invariant demo_hole demo_hole_reachable).
Defined.

Lemma free_list_invariant_witness :
  reachable demo_hole /\
  exists fl,
    lseg (mem demo_hole) (load32 (mem demo_hole) (heap_p demo_hole)) 0 fl 0 /\
    NoDup fl /\
    (forall q, In q fl <-> exists sz, In (q, (sz, false)) (heap_blocks demo_hole)) /\
    (forall a b, In a fl -> load32 (mem demo_hole) a = b -> b <> NULL ->
                 In b fl /\ load32 (mem demo_hole) (b + WSIZE) = a) /\
    (forall a b, In b fl -> load32 (mem demo_hole) (b + WSIZE) = a -> a <> NULL ->
                 In a fl /\ load32 (mem demo_hole) a = b).
Proof.
  split; [exact demo_hole_reachable|].
  exact (free_list_invariant demo_hole demo_hole_reachable).
Defined.

Lemma demo_pre_ok : coalesce_pre demo_pre [] 16 [(240, false)] [4136] 4120.
Proof.
  unfold coalesce_pre. split.
  { constructor; try conc. intros q [<- | []]. right. left. reflexivity. }
  split; [reflexivity|].
  split; [intros [H | []]; discriminate H|]. split; [discriminate|].
  intros _. left. reflexivity.
Defined.

Lemma coalesce_four_cases_witness :
  coalesce_pre demo_pre [] 16 [(240, false)] [4136] 4120 /\
  no_adj [] /\ no_adj [(240, false)] /\
  exists r s' bl' fl',
    coalesce 4120 demo_pre = Some (r, s') /\ same_meta demo_pre s' /\
    rep s' bl' fl' /\ no_adj bl' /\ hd_error fl' = Some r /\
    r = 4120 /\ bl' = [] ++ (16 + 240, false) :: [] /\
    fl' = 4120 :: remove Z.eq_dec (4120 + 16) [4136].
Proof.
  assert (N1 : no_adj []) by exact I.
  assert (N2 : no_adj [(240, false)]) by (split; [intros _ b' E; discriminate E | exact I]).
  split; [exact demo_pre_ok|]. split; [exact N1|]. split; [exact N2|].
  exact (coalesce_four_cases demo_pre [] 16 [(240, false)] [4136] 4120
           demo_pre_ok N1 N2).
Defined.

Lemma place_cases_witness :
  rep demo_init ([] ++ (256, false) :: []) ([] ++ 4120 :: []) /\
  4120 = mem_lo demo_init + 24 + total [] /\
  MIN_BLKSIZE <= 16 <= 256 /\ 16 mod 8 = 0 /\
  exists s',
    place 4120 16 demo_init = Some (tt, s') /\ same_meta demo_init s' /\
    (MIN_BLKSIZE <= 256 - 16 ->
       rep s' ([] ++ (16, true) :: (256 - 16, false) :: [])
              ([] ++ (4120 + 16) :: [])) /\
    (256 - 16 < MIN_BLKSIZE ->
       rep s' ([] ++ (256, true) :: []) ([] ++ [])).
Proof.
  assert (H1 : 4120 = mem_lo demo_init + 24 + total []) by reflexivity.
  assert (H2 : MIN_BLKSIZE <= 16 <= 256) by (unfold MIN_BLKSIZE; lia).
  assert (H3 : 16 mod 8 = 0) by reflexivity.
  split; [exact demo_init_rep|]. split; [exact H1|]. split; [exact H2|].
  split; [exact H3|].
  exact (place_cases demo_init [] 256 [] [] 4120 [] 16 demo_init_rep H1 H2 H3).
Defined.

Lemma find_fit_first_fit_witness :
  rep demo_init [(256, false)] [4120] /\
  exists r,
    find_fit 64 demo_init = Some (r, demo_init) /\
    ((r = NULL /\ forall q, In q [4120] -> size_at (mem demo_init) q < 64) \/
     (exists f1 f2, [4120] = f1 ++ r :: f2 /\ 64 <= size_at (mem demo_init) r /\
                    forall q, In q f1 -> size_at (mem demo_init) q < 64)).
Proof.
  split; [exact demo_init_rep|].
  exact (find_fit_first_fit demo_init [(256, false)] [4120] 64 demo_init_rep).
Defined.

Lemma demo_small_reachable : reachable demo_small.
Proof.
  apply (reach_init demo_small_fresh demo_small).
  - unfold fresh. conc.
  - vm_compute. reflexivity.
Defined.

Lemma malloc_zero_noop_witness :
  reachable demo_small /\ request_ok 1000 /\ 1000 <> 0 /\
  mm_malloc 1000 demo_small = Some (NULL, demo_oom) /\
  out demo_oom = extend_heap_failed :: out demo_small /\
  demo_oom <> demo_small.
Proof.
  assert (H1 : request_ok 1000) by (unfold request_ok; conc).
  assert (H2 : 1000 <> 0) by discriminate.
  assert (H3 : mm_malloc 1000 demo_small = Some (NULL, demo_oom))
    by (vm_compute; reflexivity).
  split; [exact demo_small_reachable|]. split; [exact H1|]. split; [exact H2|].
  split; [exact H3|].
  pose proof (proj2 (malloc_zero_noop demo_small) 1000 demo_oom
                demo_small_reachable H1 H2 H3) as X.
  exact X.
Defined.

Lemma realloc_null_witness :
  reachable demo_init /\ request_ok 8 /\ 8 <> 0 /\
  exists p s',
    mm_malloc 8 demo_init = Some (p, s') /\
    mm_realloc NULL 8 demo_init = if p =? NULL then Some (NULL, s') else None.
Proof.
  assert (H1 : request_ok 8) by (unfold request_ok; conc).
  assert (H2 : 8 <> 0) by discriminate.
  split; [exact demo_init_reachable|]. split; [exact H1|]. split; [exact H2|].
  exact (realloc_null demo_init 8 demo_init_reachable H1 H2).
Defined.

(** ** Failing inputs *)

(** C8, as stated, fails: from the state after [mm_init], [mm_malloc 8]
    returns the block at 4120, and [mm_realloc NULL 8] has no result. *)
Lemma realloc_null_counterexample :
  ~ (forall n, 0 < n ->
       exists p s', mm_realloc NULL n demo_init = Some (p, s') /\
                    mm_malloc n demo_init = Some (p, s')).
Proof.
  intros H. destruct (H 8 eq_refl) as (p & s' & E & _).
  vm_compute in E. discriminate E.
Qed.

(** C1 at a failing input.  Every call returns and is within its
    precondition as the spec gives it: sizes are [size_t] values, the
    pointer freed was returned by [mm_malloc] and is allocated at the time,
    the byte written lies in the payload of an allocated block.  For the
    request of [2^32 - 15] bytes the sum [size + DSIZE + (DSIZE-1)] wraps
    and the adjusted size is 0: [place] writes a tag of size 0 over the
    prologue footer and hands out the block at 4120 while it is still free
    and on the list.  After the last [mm_free] the arena walk holds two
    free blocks next to each other, a free block whose header and footer
    differ, and ends before the end of the arena. *)
Lemma wrap_breaks_block_invariant :
  mm_malloc 1 demo_init = Some (4120, demo_a) /\
  mm_malloc 200 demo_a = Some (4136, demo_wrap_b) /\
  mm_free 4120 demo_wrap_b = Some (tt, demo_wrap_hole) /\
  mm_malloc WRAP_SIZE demo_wrap_hole = Some (4120, demo_wrap_zero) /\
  load32 (mem demo_wrap_zero) (heap_p demo_wrap_zero + DSIZE) = PACK 0 1 /\
  mm_malloc 1 demo_wrap_zero = Some (4120, demo_wrap_again) /\
  heap_blocks demo_wrap_again =
    [(4120, (16, true)); (4136, (208, true)); (4344, (32, false))] /\
  4136 <= 4148 < 4136 + 208 - DSIZE /\
  mm_free 4120 demo_wrap_byte = Some (tt, demo_wrap_broken) /\
  heap_blocks demo_wrap_broken = [(4120, (32, false)); (4152, (16, false))] /\
  ~ no_adj (map snd (heap_blocks demo_wrap_broken)) /\
  load32 (mem demo_wrap_broken) (HDRP 4152) = PACK 16 0 /\
  load32 (mem demo_wrap_broken) (4152 + 16 - DSIZE) = 0 /\
  heap_p demo_wrap_broken + MIN_BLKSIZE
    + total (map snd (heap_blocks demo_wrap_broken)) < mem_brk demo_wrap_broken.
Proof.
  split; [vm_compute; reflexivity|]. split; [vm_compute; reflexivity|].
  split; [vm_compute; reflexivity|]. split; [vm_compute; reflexivity|].
  split; [vm_compute; reflexivity|]. split; [vm_compute; reflexivity|].
  split; [vm_compute; reflexivity|]. split; [conc|].
  split; [vm_compute; reflexivity|]. split; [vm_compute; reflexivity|].
  split.
  { intros N. assert (X : heap_blocks demo_wrap_broken
                          = [(4120, (32, false)); (4152, (16, false))])
      by (vm_compute; reflexivity).
    rewrite X in N. cbn [map snd no_adj] in N. destruct N as [N _].
    specialize (N eq_refl (16, false) eq_refl). discriminate N. }
  split; [vm_compute; reflexivity|]. split; [vm_compute; reflexivity | conc].
Qed.

(** C2 at the same failing input.  In the state the run ends in, the list
    from the root is [4120; 4344], and the blocks of the arena walk with a
    clear allocated bit are 4120 and 4152: the node 4344 is no block of the
    walk, and the free block 4152 is on no list. *)
Lemma wrap_breaks_free_list :
  mm_malloc 1 demo_init = Some (4120, demo_a) /\
  mm_malloc 200 demo_a = Some (4136, demo_wrap_b) /\
  mm_free 4120 demo_wrap_b = Some (tt, demo_wrap_hole) /\
  mm_malloc WRAP_SIZE demo_wrap_hole = Some (4120, demo_wrap_zero) /\
  mm_malloc 1 demo_wrap_zero = Some (4120, demo_wrap_again) /\
  In (4136, (208, true)) (heap_blocks demo_wrap_again) /\
  4136 <= 4148 < 4136 + 208 - DSIZE /\
  mm_free 4120 demo_wrap_byte = Some (tt, demo_wrap_broken) /\
  free_list demo_wrap_broken [4120; 4344] /\
  heap_blocks demo_wrap_broken = [(4120, (32, false)); (4152, (16, false))] /\
  ~ (exists sz, In (4344, (sz, false)) (heap_blocks demo_wrap_broken)) /\
  ~ In 4152 [4120; 4344].
Proof.
  split; [vm_compute; reflexivity|]. split; [vm_compute; reflexivity|].
  split; [vm_compute; reflexivity|]. split; [vm_compute; reflexivity|].
  split; [vm_compute; reflexivity|].
  split; [vm_compute; right; left; reflexivity|]. split; [conc|].
  split; [vm_compute; reflexivity|]. split; [unfold free_list; conc|].
  split; [vm_compute; reflexivity|].
  split.
  - intros (sz & H). assert (X : heap_blocks demo_wrap_broken
                               = [(4120, (32, false)); (4152, (16, false))])
      by (vm_compute; reflexivity).
    rewrite X in H. destruct H as [H | [H | []]]; discriminate H.
  - intros [H | [H | []]]; discriminate H.
Qed.

(** C6 at the failing input.  In a reachable state whose first free block
    is 16 bytes long, a request of [SIZE_MAX] bytes is rounded to a block
    of 8 bytes by the wrap-around of [size + DSIZE + (DSIZE-1)]; the
    16-byte block is a fit and is returned, non-null: it holds 8 bytes of
    payload, not [SIZE_MAX]. *)
Lemma malloc_wrap_short_block :
  reachable demo_hole /\
  mm_malloc SIZE_MAX demo_hole = Some (4120, demo_short) /\
  4120 <> NULL /\
  heap_blocks demo_short =
    [(4120, (16, true)); (4136, (16, true)); (4152, (224, false))] /\
  16 - DSIZE < SIZE_MAX.
Proof.
  split; [exact demo_hole_reachable|].
  split; [vm_compute; reflexivity|]. split; [discriminate|].
  split; [vm_compute; reflexivity | conc].
Qed.

(** C7 at the failing input.  From the same state: allocate 9 bytes, fill
    them with 0xAA, reallocate to [SIZE_MAX] bytes.  [ALIGN(size)] wraps to
    0, nothing is copied, and the non-null result is the 16-byte block,
    whose first 9 bytes are an old link and a boundary tag. *)
Lemma realloc_wrap_loses_content :
  roundtrip demo_hole 9 SIZE_MAX [170; 170; 170; 170; 170; 170; 170; 170; 170]
  = Some (4120, [80; 16; 0; 0; 0; 0; 0; 0; 17]) /\
  9 <= SIZE_MAX /\
  [80; 16; 0; 0; 0; 0; 0; 0; 17] <> [170; 170; 170; 170; 170; 170; 170; 170; 170].
Proof.
  split; [vm_compute; reflexivity|]. split; [conc | discriminate].
Qed.

(** The same round trip with a size that does not wrap keeps the bytes. *)
Example roundtrip_100 :
  roundtrip demo_hole 9 100 [170; 170; 170; 170; 170; 170; 170; 170; 170]
  = Some (4176, [170; 170; 170; 170; 170; 170; 170; 170; 170]).
Proof. vm_compute. reflexivity. Qed.
(** * Further properties of the code *)

Lemma wp_exact {A} (c : M A) s x t :
  wp c s (fun r s' => r = x /\ s' = t) <-> c s = Some (x, t).
Proof.
  split.
  - intros (r & s' & H & -> & ->). assumption.
  - intros H. exists x, t. auto.
Qed.

(** ** The macros *)

(** X1. A boundary tag written with [PUT] and [PACK] is read back by
    [GET_SIZE] and [GET_ALLOC]: for a size that is a multiple of 8 and fits
    a word, the two fields come back as they were packed. *)
Theorem tag_roundtrip s p sz (a : bool) :
  mem_lo s <= p -> p + 4 <= mem_brk s ->
  0 <= sz < 2 ^ 32 -> sz mod 8 = 0 ->
  (PUT p (PACK sz (b2z a)) ;;;
   x <- GET_SIZE p ;; y <- GET_ALLOC p ;; ret (x, y)) s
  = Some ((sz, b2z a), put s p (PACK sz (b2z a))).
Proof.
  intros H1 H2 Hsz Hm. apply wp_exact.
  assert (W : wrap (PACK sz (b2z a)) = PACK sz (b2z a)).
  { rewrite PACK_add by assumption. apply wrap_small.
    pose proof (Z.div_mod sz 8 ltac:(lia)). destruct a; cbn [b2z]; lia. }
  apply wp_bind, wp_PUT; [assumption | assumption |].
  apply wp_bind. eapply wp_GET_SIZE_PACK;
    [exact H1 | exact H2 | rewrite load_put_same; exact W | exact Hm |].
  apply wp_bind. eapply wp_GET_ALLOC_PACK;
    [exact H1 | exact H2 | rewrite load_put_same; exact W | exact Hm |].
  apply wp_ret. split; reflexivity.
Qed.

(** X2. [ALIGN] rounds up to the next multiple of 8, as long as the sum
    [size + 7] fits a [size_t]. *)
Theorem ALIGN_round_up n :
  0 <= n <= 2 ^ 32 - 8 ->
  ALIGN n mod 8 = 0 /\ n <= ALIGN n < n + 8.
Proof.
  intros Hn. unfold ALIGN. rewrite wrap_small by lia. rewrite land_lnot7.
  pose proof (Z.div_mod (n + (8 - 1)) 8 ltac:(lia)) as D.
  pose proof (Z.mod_pos_bound (n + (8 - 1)) 8 ltac:(lia)) as B.
  split; [|lia].
  rewrite Z.mul_comm. apply Z.mod_mul. lia.
Qed.

(** X3. For the seven largest sizes the sum in [ALIGN] wraps around and
    the result is 0, smaller than the size. *)
Theorem ALIGN_wraps_to_zero n :
  2 ^ 32 - 8 < n < 2 ^ 32 -> ALIGN n = 0.
Proof.
  intros Hn. unfold ALIGN, wrap. rewrite land_lnot7.
  replace (n + (8 - 1)) with ((n + 7 - 2 ^ 32) + 1 * 2 ^ 32) by lia.
  rewrite Z.mod_add by lia. rewrite Z.mod_small by lia.
  rewrite Z.div_small by lia. reflexivity.
Qed.

(** X4. Stepping to the next block and back, or to the previous block and
    forth, ends on the same block: in a state reached by requests that do
    not wrap ([size + 15 < 2^32] in every call of [mm_malloc] and
    [mm_realloc] so far), for every block of the arena walk,
    [PREV_BLKP (NEXT_BLKP bp)] and [NEXT_BLKP (PREV_BLKP bp)] are both [bp],
    and the state is not touched. *)
Theorem blkp_inverse s bp sz al :
  reachable s -> In (bp, (sz, al)) (heap_blocks s) ->
  (nb <- NEXT_BLKP bp ;; PREV_BLKP nb) s = Some (bp, s) /\
  (pb <- PREV_BLKP bp ;; NEXT_BLKP pb) s = Some (bp, s).
Proof.
  intros H Hin. destruct (reachable_inv s H) as (bl & fl & R & _).
  rewrite (rep_heap_blocks _ _ _ R) in Hin. apply In_layout in Hin.
  destruct Hin as (l1 & l2 & -> & ->).
  pose proof (rep_block _ _ _ _ _ R) as B. cbv zeta in B. cbn [fst snd] in B.
  destruct B as (B1 & B2 & B3 & B4 & B5 & B6 & B7).
  pose proof (prev_facts _ _ _ _ R) as P. cbv zeta in P.
  destruct P as (P1 & P2 & P3 & P4 & P5 & _).
  pose proof (rep_lo _ _ _ R) as Hlo.
  set (bp := mem_lo s + 24 + total l1) in *.
  unfold MIN_BLKSIZE in *.
  split; apply wp_exact.
  - apply wp_bind. eapply wp_NEXT_BLKP; [| | exact B3 | exact B2 |]; [lia | lia |].
    eapply wp_PREV_BLKP; [| | exact B4 | exact B2 |]; [lia | lia |].
    split; [lia | reflexivity].
  - apply wp_bind. eapply wp_PREV_BLKP; [| | exact P3 | exact P2 |]; [lia | lia |].
    eapply wp_NEXT_BLKP; [| | exact P4 | exact P2 |]; [lia | lia |].
    split; [lia | reflexivity].
Qed.

(** ** [extend_heap] *)

(** X5. [extend_heap] rounds an odd number of words up to the next even
    number: a request of [2k+1] words is served as one of [2k+2] words. *)
Theorem extend_heap_rounds_up k s :
  extend_heap (2 * k + 1) s = extend_heap (2 * k + 2) s.
Proof.
  unfold extend_heap.
  replace ((2 * k + 1) mod 2) with 1
    by (symmetry; rewrite Z.add_comm, Z.mul_comm; rewrite Z.mod_add by lia; reflexivity).
  replace ((2 * k + 2) mod 2) with 0
    by (symmetry; replace (2 * k + 2) with ((k + 1) * 2) by lia; apply Z.mod_mul; lia).
  cbn [Z.eqb negb].
  replace (2 * k + 1 + 1) with (2 * k + 2) by lia. reflexivity.
Qed.

(** X6. When the backing store cannot supply the (even) number of words,
    [extend_heap] returns null and leaves the state as it was: no tag is
    written, the arena keeps its size. *)
Theorem extend_heap_out_of_memory words s :
  0 <= words -> words mod 2 = 0 -> words * WSIZE < 2 ^ 32 ->
  mem_max s < mem_brk s + words * WSIZE ->
  extend_heap words s = Some (NULL, s).
Proof.
  intros Hw He Hb Hm. unfold extend_heap. rewrite He. cbn [Z.eqb negb].
  rewrite wrap_small by (unfold WSIZE in *; lia).
  unfold bind, mem_sbrk.
  destruct (Z.leb_spec (mem_brk s + words * WSIZE) (mem_max s)) as [X|_]; [lia|].
  reflexivity.
Qed.

(** ** From the abstract view to the arena walk *)

Lemma rep_allocated s bl fl q z :
  rep s bl fl ->
  In (q, (z, true)) (heap_blocks s) <-> In (q, z) (alloc_blocks (mem_lo s + 24) bl).
Proof.
  intros R. rewrite (rep_heap_blocks _ _ _ R). symmetry. apply In_alloc_blocks.
Qed.

Lemma rep_in_use s bl fl q z a :
  rep s bl fl -> In (q, (z, true)) (heap_blocks s) -> q <= a < q + z - DSIZE ->
  in_use (mem_lo s + 24) bl a.
Proof.
  intros R H Ha. exists q, z. split; [|exact Ha]. apply (rep_allocated _ _ _ _ _ R). exact H.
Qed.

Lemma rep_free_block s bl fl q z :
  rep s bl fl ->
  In (q, (z, false)) (heap_blocks s) <->
  exists l1 l2, bl = l1 ++ (z, false) :: l2 /\ q = mem_lo s + 24 + total l1.
Proof. intros R. rewrite (rep_heap_blocks _ _ _ R). apply In_layout. Qed.

Lemma free_list_unique s fl fl' : free_list s fl -> free_list s fl' -> fl = fl'.
Proof. unfold free_list. apply lseg_det. Qed.

(** ** [mm_init] *)

(** X7. On an empty arena [mm_init] returns 0 exactly when the backing
    store has room for the six words of prologue and epilogue and for one
    chunk; the heap is then one free block of [CHUNKSIZE] bytes, the only
    node of the free list.  Otherwise it returns -1. *)
Theorem mm_init_outcome s0 :
  fresh s0 ->
  exists r s',
    mm_init s0 = Some (r, s') /\
    if mem_lo s0 + 6 * WSIZE + CHUNKSIZE <=? mem_max s0
    then r = 0 /\
         heap_blocks s' = [(mem_lo s0 + 6 * WSIZE, (CHUNKSIZE, false))] /\
         free_list s' [mem_lo s0 + 6 * WSIZE] /\
         mem_brk s' = mem_lo s0 + 6 * WSIZE + CHUNKSIZE
    else r = -1.
Proof.
  intros F. destruct (mm_init_spec s0 F) as (r & s' & E & H).
  exists r, s'. split; [exact E|].
  destruct (mem_lo s0 + 6 * WSIZE + CHUNKSIZE <=? mem_max s0); [|exact H].
  destruct H as (-> & (R & _) & E1 & _).
  split; [reflexivity|]. unfold WSIZE.
  replace (mem_lo s0 + 6 * 4) with (mem_lo s0 + 24) by lia.
  split; [|split].
  - rewrite (rep_heap_blocks _ _ _ R), E1. reflexivity.
  - apply (rep_list _ _ _ R).
  - pose proof (seg_end _ _ _ _ (rep_seg _ _ _ R)) as X. cbn [total fst] in X.
    rewrite E1 in X. lia.
Qed.

(** ** [extend_heap] *)

(** X8. In a state reached by requests that do not wrap
    ([size + 15 < 2^32] in every call of [mm_malloc] and [mm_realloc] so
    far), when the backing store has [size] more bytes (a multiple of 8, at least a minimum block), [extend_heap]
    returns a free block that ends at the new end of the arena, holds at
    least [size] bytes and is the first node of the free list; the arena
    has grown by exactly [size] bytes, and the allocated blocks are the
    same, with the same payload. *)
Theorem extend_heap_grows s size :
  reachable s -> MIN_BLKSIZE <= size < 2 ^ 32 -> size mod 8 = 0 ->
  mem_brk s + size <= mem_max s ->
  exists r s' sz,
    extend_heap (size / WSIZE) s = Some (r, s') /\
    mem_lo s' = mem_lo s /\ mem_brk s' = mem_brk s + size /\
    In (r, (sz, false)) (heap_blocks s') /\ size <= sz /\ r + sz = mem_brk s' /\
    load32 (mem s') (heap_p s') = r /\
    (forall q z, In (q, (z, true)) (heap_blocks s') <->
                 In (q, (z, true)) (heap_blocks s)) /\
    (forall q z a, In (q, (z, true)) (heap_blocks s) ->
                   q <= a < q + z - DSIZE -> mem s' a = mem s a).
Proof.
  intros H Hsz Hm Hroom. destruct (reachable_inv s H) as (bl & fl & HI).
  pose proof HI as (R & _).
  destruct (extend_heap_spec s bl fl size HI Hsz Hm) as (r & s' & E & P).
  destruct (Z.leb_spec (mem_brk s + size) (mem_max s)) as [_|X]; [|lia].
  destruct (coalesce_result bl size [] (mem_brk s) fl) as [[bl' fl'] r'].
  destruct P as (-> & HI' & G & Eb & AB & K & la & sz & lb & Ebl & Er & Hs & Hr1 & Hr2 & Hh).
  pose proof HI' as (R' & _). pose proof G as (G1 & _).
  exists r', s', sz. split; [exact E|]. split; [exact G1|]. split; [exact Eb|].
  assert (Hin : In (r', (sz, false)) (heap_blocks s')).
  { apply (rep_free_block _ _ _ _ _ R'). exists la, lb. rewrite G1. split; assumption. }
  split; [exact Hin|]. split; [exact Hs|].
  split.
  { rewrite Ebl in R'. pose proof (rep_block _ _ _ _ _ R') as B. cbv zeta in B.
    cbn [fst] in B. rewrite G1, <- Er in B. lia. }
  split.
  { pose proof (lseg_hd _ _ _ _ (rep_list _ _ _ R')) as X. rewrite X.
    destruct fl'; [discriminate|]. injection Hh as ->. reflexivity. }
  split.
  - intros q z. rewrite (rep_allocated _ _ _ _ _ R'), (rep_allocated _ _ _ _ _ R).
    rewrite G1, AB. reflexivity.
  - intros q z a Hq Ha. apply K. eapply rep_in_use; eassumption.
Qed.

(** ** [mm_free] *)

(** X9. In a state reached by requests that do not wrap
    ([size + 15 < 2^32] in every call of [mm_malloc] and [mm_realloc] so
    far), [mm_free] of an allocated block returns; it leaves the arena bounds as they are; the blocks allocated afterwards
    are the others that were allocated, with the same sizes and the same
    payload; and the freed bytes lie in a free block that is the first node
    of the free list. *)
Theorem free_releases_block s p sz :
  reachable s -> In (p, (sz, true)) (heap_blocks s) ->
  exists s',
    mm_free p s = Some (tt, s') /\ same_meta s s' /\
    (forall q z, In (q, (z, true)) (heap_blocks s') <->
                 In (q, (z, true)) (heap_blocks s) /\ q <> p) /\
    (forall q z a, In (q, (z, true)) (heap_blocks s) -> q <> p ->
                   q <= a < q + z - DSIZE -> mem s' a = mem s a) /\
    exists r z, In (r, (z, false)) (heap_blocks s') /\
                r <= p /\ p + sz <= r + z /\
                load32 (mem s') (heap_p s') = r.
Proof.
  intros H Hin. destruct (reachable_inv s H) as (bl & fl & HI).
  pose proof HI as (R & _). pose proof (rep_sizes _ _ _ R) as SZ.
  pose proof Hin as Hin'. rewrite (rep_heap_blocks _ _ _ R) in Hin'.
  apply In_layout in Hin'. destruct Hin' as (l1 & l2 & -> & Ep).
  destruct (mm_free_spec s l1 sz l2 fl p HI Ep) as ([] & s' & E & M & P).
  destruct (coalesce_result l1 sz l2 p fl) as [[bl' fl'] r].
  destruct P as (HI' & AB & K & la & z & lb & Ebl & Er & _ & Hr1 & Hr2 & Hh).
  pose proof HI' as (R' & _). pose proof M as (M1 & _).
  exists s'. split; [exact E|]. split; [exact M|]. split; [|split].
  - intros q y. rewrite (rep_allocated _ _ _ _ _ R'), (rep_allocated _ _ _ _ _ R).
    rewrite M1, AB, Ep. rewrite <- Ep at 1.
    replace (p + sz) with (mem_lo s + 24 + total l1 + sz) by lia.
    apply alloc_blocks_remove. exact SZ.
  - intros q y a Hq Hne Ha. apply K. unfold DSIZE in Ha.
    apply (in_use_other _ l1 sz l2 q y a SZ); [|lia | exact Ha].
    apply (rep_allocated _ _ _ _ _ R). exact Hq.
  - exists r, z. split; [|split; [exact Hr1 | split; [exact Hr2|]]].
    + apply (rep_free_block _ _ _ _ _ R'). exists la, lb. rewrite M1. split; assumption.
    + pose proof (lseg_hd _ _ _ _ (rep_list _ _ _ R')) as X. rewrite X.
      destruct fl'; [discriminate|]. injection Hh as ->. reflexivity.
Qed.

(** ** [mm_malloc] *)

Lemma placed_blocks s bl fl n p s' :
  rep s bl fl -> mem_lo s' = mem_lo s -> placed s bl n p s' ->
  exists sz,
    adj_size n <= sz < adj_size n + MIN_BLKSIZE /\
    (forall q z, In (q, (z, true)) (heap_blocks s') <->
                 (q = p /\ z = sz) \/ In (q, (z, true)) (heap_blocks s)) /\
    (forall q z, In (q, (z, true)) (heap_blocks s) -> q + z <= p \/ p + sz <= q) /\
    (forall q z a, In (q, (z, true)) (heap_blocks s) ->
                   q <= a < q + z - DSIZE -> mem s' a = mem s a).
Proof.
  intros R E1 (K & la & sz & lb & fl' & (R' & _) & Ep & Hsz & AB).
  pose proof (rep_sizes _ _ _ R') as SZ'.
  exists sz. split; [exact Hsz|].
  assert (Set' : forall q z, In (q, (z, true)) (heap_blocks s') <->
                   (q = p /\ z = sz) \/ In (q, (z, true)) (heap_blocks s)).
  { intros q z. rewrite (rep_allocated _ _ _ _ _ R'), (rep_allocated _ _ _ _ _ R).
    rewrite E1, alloc_blocks_insert, AB, <- Ep. reflexivity. }
  split; [exact Set'|]. split.
  - intros q z Hq.
    assert (H1 : In (q, z) (alloc_blocks (mem_lo s + 24) (la ++ (sz, true) :: lb))).
    { rewrite <- E1. apply (rep_allocated _ _ _ _ _ R'). apply Set'. right. exact Hq. }
    assert (H2 : In (p, sz) (alloc_blocks (mem_lo s + 24) (la ++ (sz, true) :: lb))).
    { apply alloc_blocks_insert. left. split; [exact Ep | reflexivity]. }
    destruct (alloc_blocks_sep _ _ _ _ _ _ SZ' H1 H2) as [[X _] | X]; [|lia].
    exfalso. apply (rep_allocated _ _ _ _ _ R) in Hq. rewrite AB in Hq.
    replace (p + sz) with (mem_lo s + 24 + total la + sz) in Hq by lia.
    apply (alloc_blocks_remove _ la sz lb q z SZ') in Hq. destruct Hq as [_ Hq]. lia.
  - intros q z a Hq Ha. apply K. eapply rep_in_use; eassumption.
Qed.

(** X10. A block returned by [mm_malloc] (nonzero request that does not
    wrap, in a state reached by requests that do not wrap) is a new allocated block of the arena walk: its
    size is the adjusted size, or up to 15 bytes more when the rest of the
    free block could not stand alone; it overlaps no block that was
    allocated before; and those blocks stay allocated, with their sizes
    and every byte of their payload. *)
Theorem malloc_new_block s n p s' :
  reachable s -> request_ok n -> n <> 0 ->
  mm_malloc n s = Some (p, s') -> p <> NULL ->
  exists sz,
    adj_size n <= sz < adj_size n + MIN_BLKSIZE /\
    (forall q z, In (q, (z, true)) (heap_blocks s') <->
                 (q = p /\ z = sz) \/ In (q, (z, true)) (heap_blocks s)) /\
    (forall q z, In (q, (z, true)) (heap_blocks s) -> q + z <= p \/ p + sz <= q) /\
    (forall q z a, In (q, (z, true)) (heap_blocks s) ->
                   q <= a < q + z - DSIZE -> mem s' a = mem s a).
Proof.
  intros H [Hn Hb] Hnz E Hp. destruct (reachable_inv s H) as (bl & fl & HI).
  pose proof (wp_elim _ _ _ _ _ (mm_malloc_placed s bl fl n HI ltac:(lia) Hb) E)
    as [[X _] | (_ & G & P)]; [contradiction|].
  apply (placed_blocks s bl fl n p s' (proj1 HI) (proj1 G) P).
Qed.

(** X11. The policy of [mm_malloc] (nonzero request that does not wrap,
    in a state reached by requests that do not wrap, with free list [fl]): when some node of the list holds
    the adjusted size, the first such node in list order is returned and
    the arena keeps its size; when none does and the backing store has
    room, the arena grows by the larger of the adjusted size and
    [CHUNKSIZE] and a block is returned; otherwise null is returned and the
    state only gains the message. *)
Theorem malloc_policy s fl n :
  reachable s -> request_ok n -> n <> 0 -> free_list s fl ->
  exists p s',
    mm_malloc n s = Some (p, s') /\
    let r := first_fit (mem s) (adj_size n) fl in
    let ext := MAX (adj_size n) CHUNKSIZE in
    if negb (r =? NULL) then p = r /\ same_meta s s'
    else if mem_brk s + ext <=? mem_max s
         then p <> NULL /\ mem_brk s' = mem_brk s + ext
         else p = NULL /\ s' = add_out s extend_heap_failed.
Proof.
  intros H [Hn Hb] Hnz L. destruct (reachable_inv s H) as (bl & fl0 & HI).
  assert (fl0 = fl) as -> by (apply (free_list_unique s); [apply (rep_list _ _ _ (proj1 HI)) | exact L]).
  destruct (mm_malloc_spec s bl fl n HI ltac:(lia) Hb) as (p & s' & E & P).
  exists p, s'. split; [exact E|]. cbv zeta in P |- *.
  destruct P as [(Hr & -> & M & _) | [(Hr & Hroom & Hp & _ & Eb & _) | (Hr & Hroom & -> & ->)]].
  - destruct (Z.eqb_spec (first_fit (mem s) (adj_size n) fl) NULL) as [X|_];
      [contradiction|]. split; [reflexivity | exact M].
  - rewrite Hr. cbn [NULL Z.eqb negb].
    destruct (Z.leb_spec (mem_brk s + MAX (adj_size n) CHUNKSIZE) (mem_max s)); [|lia].
    split; assumption.
  - rewrite Hr. cbn [NULL Z.eqb negb].
    destruct (Z.leb_spec (mem_brk s + MAX (adj_size n) CHUNKSIZE) (mem_max s)); [lia|].
    split; reflexivity.
Qed.

(** ** [mm_realloc] *)

(** X12. In a state reached by requests that do not wrap, [mm_realloc]
    of an allocated block with a nonzero size that does not wrap returns.  When it returns a block, that
    block is not the old one, its first bytes are the bytes of the old
    payload, as many as the request and the old payload both hold; the old
    block is no longer allocated; the new block is; and the other allocated
    blocks keep their sizes and their payload. *)
Theorem realloc_moves_block s p osz n :
  reachable s -> In (p, (osz, true)) (heap_blocks s) ->
  request_ok n -> n <> 0 ->
  exists r s',
    mm_realloc p n s = Some (r, s') /\
    (r <> NULL ->
     r <> p /\
     (forall i, 0 <= i < n -> i < osz - DSIZE ->
                mem s' (r + i) = byte_at (mem s) (p + i)) /\
     (exists sz, n + DSIZE <= sz /\
        forall q z, In (q, (z, true)) (heap_blocks s') <->
                    (q = r /\ z = sz) \/
                    (In (q, (z, true)) (heap_blocks s) /\ q <> p)) /\
     (forall q z a, In (q, (z, true)) (heap_blocks s) -> q <> p ->
                    q <= a < q + z - DSIZE -> mem s' a = mem s a)).
Proof.
  intros H Hin [Hn Hb] Hnz. destruct (reachable_inv s H) as (bl & fl & HI).
  pose proof HI as (R & _). pose proof (rep_sizes _ _ _ R) as SZ.
  pose proof Hin as Hin'. rewrite (rep_heap_blocks _ _ _ R) in Hin'.
  apply In_layout in Hin'. destruct Hin' as (l1 & l2 & -> & Ep).
  destruct (mm_realloc_spec s l1 osz l2 fl p n HI Ep ltac:(lia) Hb) as (r & s' & E & P).
  exists r, s'. split; [exact E|]. intros Hr.
  destruct P as [[X _] | (_ & Hrp & G & Hc & K & bl' & fl' & sz & HI' & Hsz & Set')];
    [contradiction|].
  destruct (ALIGN_facts n ltac:(lia) Hb) as [_ LA].
  destruct (adj_size_facts n ltac:(lia) Hb) as (_ & _ & _ & A3 & _).
  split; [exact Hrp|]. split; [|split].
  - intros i Hi Hi'. apply Hc; lia.
  - exists sz. split; [unfold DSIZE; lia|]. intros q z.
    rewrite (rep_allocated _ _ _ _ _ (proj1 HI')), (rep_allocated _ _ _ _ _ R).
    rewrite (proj1 G). apply Set'.
  - intros q z a Hq Hne Ha. apply K. unfold DSIZE in Ha.
    apply (in_use_other _ l1 osz l2 q z a SZ); [|lia | exact Ha].
    apply (rep_allocated _ _ _ _ _ R). exact Hq.
Qed.

(** X13. When [mm_realloc] cannot get a new block (nonzero size that does
    not wrap, in a state reached by requests that do not wrap) it returns null and the state only gains the message of
    [mm_malloc]: the old block is still allocated and holds its bytes. *)
Theorem realloc_failure_keeps_block s p osz n s' :
  reachable s -> In (p, (osz, true)) (heap_blocks s) ->
  request_ok n -> n <> 0 ->
  mm_realloc p n s = Some (NULL, s') ->
  s' = add_out s extend_heap_failed /\
  In (p, (osz, true)) (heap_blocks s') /\ mem s' = mem s.
Proof.
  intros H Hin [Hn Hb] Hnz E. destruct (reachable_inv s H) as (bl & fl & HI).
  pose proof HI as (R & _).
  pose proof Hin as Hin'. rewrite (rep_heap_blocks _ _ _ R) in Hin'.
  apply In_layout in Hin'. destruct Hin' as (l1 & l2 & -> & Ep).
  pose proof (wp_elim _ _ _ _ _ (mm_realloc_spec s l1 osz l2 fl p n HI Ep ltac:(lia) Hb) E)
    as [[_ ->] | (X & _)]; [|contradiction].
  split; [reflexivity|]. split; [exact Hin | reflexivity].
Qed.

(** X14. First fit and last-in-first-out insertion together, in a state
    reached by requests that do not wrap: a request that fits the block
    just freed is served from the free block that now
    holds it, the first node of the list, and the arena does not grow. *)
Theorem free_then_malloc_reuses s p sz s1 n :
  reachable s -> In (p, (sz, true)) (heap_blocks s) ->
  mm_free p s = Some (tt, s1) ->
  request_ok n -> n <> 0 -> adj_size n <= sz ->
  exists r s2,
    mm_malloc n s1 = Some (r, s2) /\
    r = load32 (mem s1) (heap_p s1) /\ r <> NULL /\ r <= p /\
    same_meta s1 s2.
Proof.
  intros H Hin E [Hn Hb] Hnz Hfit. destruct (reachable_inv s H) as (bl & fl & HI).
  pose proof HI as (R & _).
  pose proof Hin as Hin'. rewrite (rep_heap_blocks _ _ _ R) in Hin'.
  apply In_layout in Hin'. destruct Hin' as (l1 & l2 & -> & Ep).
  pose proof (wp_elim _ _ _ _ _ (mm_free_spec s l1 sz l2 fl p HI Ep) E) as (M & P).
  destruct (coalesce_result l1 sz l2 p fl) as [[bl' fl'] r].
  destruct P as (HI' & _ & _ & la & z & lb & Ebl & Er & Hz & Hr1 & _ & Hh).
  pose proof HI' as (R' & _). pose proof M as (M1 & _).
  destruct fl' as [|r0 rest]; [discriminate|]. injection Hh as ->.
  assert (Hs : size_at (mem s1) r = z).
  { rewrite Ebl in R'. pose proof (rep_size_at _ _ _ _ _ R') as X.
    rewrite M1, <- Er in X. exact X. }
  assert (FF : first_fit (mem s1) (adj_size n) (r :: rest) = r).
  { unfold first_fit. cbn [find]. rewrite Hs.
    destruct (Z.leb_spec (adj_size n) z); [reflexivity | lia]. }
  assert (Hrz : r <> NULL).
  { pose proof (rep_fl_bounds _ _ _ r R' (or_introl eq_refl)). unfold NULL. lia. }
  destruct (mm_malloc_spec s1 bl' (r :: rest) n HI' ltac:(lia) Hb) as (q & s2 & E2 & Q).
  cbv zeta in Q. rewrite FF in Q.
  destruct Q as [(_ & -> & M2 & _) | [(X & _) | (X & _)]]; try contradiction.
  exists r, s2. split; [exact E2|]. split; [|split; [exact Hrz | split; [exact Hr1 | exact M2]]].
  rewrite (lseg_hd _ _ _ _ (rep_list _ _ _ R')). reflexivity.
Qed.

(** ** The list primitives *)

(** X15. [rmv_from_list] undoes [insert_front_list]: inserting a free
    block that is not on the list and removing it again leaves the list
    with the nodes it had, in the same order, and the payload of the
    allocated blocks is not written. *)
Theorem remove_undoes_insert s bl fl q :
  rep s bl fl -> In q (free_ptrs (mem_lo s + 24) bl) -> ~ In q fl ->
  exists s',
    (insert_front_list q ;;; rmv_from_list q) s = Some (tt, s') /\
    free_list s' fl /\ rep s' bl fl /\ same_meta s s' /\ keeps bl s s'.
Proof.
  intros R Hq Hn.
  assert (W : wp (insert_front_list q ;;; rmv_from_list q) s
                (fun _ s' => rep s' bl fl /\ same_meta s s' /\ keeps bl s s')).
  { apply wp_bind. eapply wp_conseq; [apply insert_front_list_spec; eassumption|].
    intros [] s1 (R1 & M1 & K1). cbv beta.
    eapply wp_conseq; [apply (rmv_from_list_spec s1 bl [] q fl); exact R1|].
    intros [] s2 (R2 & M2 & K2). cbn [app] in R2.
    split; [exact R2|]. split; [eapply same_meta_trans; eassumption|].
    eapply keeps_trans; [exact (proj1 M1) | exact K1 | exact K2]. }
  destruct W as ([] & s' & E & R' & M & K).
  exists s'. split; [exact E|]. split; [apply (rep_list _ _ _ R')|]. tauto.
Qed.

(** ** Content round trip *)

Lemma set_mem_set_mem s m1 m2 : set_mem (set_mem s m1) m2 = set_mem s m2.
Proof. reflexivity. Qed.

Lemma write_bytes_mem pat : forall s a,
  exists m', write_bytes s a pat = set_mem s m' /\
    (forall x, a <= x < a + Z.of_nat (List.length pat) ->
               m' x = nth (Z.to_nat (x - a)) pat 0) /\
    (forall x, x < a \/ a + Z.of_nat (List.length pat) <= x -> m' x = mem s x).
Proof.
  induction pat as [|b pat IH]; intros s a.
  - exists (mem s). split; [destruct s; reflexivity|]. cbn [List.length]. split; intros; [lia | reflexivity].
  - cbn [write_bytes]. destruct (IH (poke s a b) (a + 1)) as (m' & E & H1 & H2).
    exists m'. split; [rewrite E; reflexivity|].
    cbn [List.length]. split.
    + intros x Hx. destruct (Z.eq_dec x a) as [-> | Hne].
      * rewrite H2 by lia. replace (a - a) with 0 by lia. cbn.
        rewrite Z.eqb_refl. reflexivity.
      * rewrite H1 by lia.
        replace (Z.to_nat (x - a)) with (S (Z.to_nat (x - (a + 1)))) by lia.
        reflexivity.
    + intros x Hx. rewrite H2 by lia. cbn.
      destruct (Z.eqb_spec x a); [lia | reflexivity].
Qed.

Lemma map_seq_ext {A} (f : nat -> A) (g : Z -> A) (l : list Z) : forall a,
  (forall k, (k < List.length l)%nat -> f (a + k)%nat = g (nth k l 0)) ->
  map f (seq a (List.length l)) = map g l.
Proof.
  induction l as [|b l IH]; intros a H; cbn [List.length seq map]; [reflexivity|].
  f_equal.
  - specialize (H 0%nat ltac:(cbn; lia)). cbn [nth] in H. rewrite <- H. f_equal. lia.
  - apply IH. intros k Hk. specialize (H (S k) ltac:(cbn; lia)). cbn [nth] in H.
    rewrite <- H. f_equal. lia.
Qed.

(** X16. The content round trip, for sizes that do not wrap, from a state
    reached by requests that do not wrap: allocate
    [n] bytes, write a pattern of [n] bytes, reallocate to [m >= n] bytes;
    when both calls return a block, the first [n] bytes of the new block
    are the pattern. *)
Theorem roundtrip_content s n m pat q bytes :
  reachable s -> 0 < n -> Z.of_nat (List.length pat) = n ->
  n <= m -> m + 15 < 2 ^ 32 ->
  roundtrip s n m pat = Some (q, bytes) ->
  bytes = map (fun b => b mod 256) pat.
Proof.
  intros H Hn Hlen Hm Hb E. destruct (reachable_inv s H) as (bl & fl & HI).
  unfold roundtrip in E.
  destruct (mm_malloc n s) as [[p s1]|] eqn:E1; [|discriminate].
  destruct (Z.eqb_spec p NULL) as [|Hp]; [discriminate|].
  pose proof (wp_elim _ _ _ _ _ (mm_malloc_placed s bl fl n HI Hn ltac:(lia)) E1)
    as [[X _] | (_ & G & _ & la & sz & lb & fl1 & HI1 & Ep & Hsz & _)]; [contradiction|].
  destruct (adj_size_facts n Hn ltac:(lia)) as (_ & _ & _ & A3 & _).
  destruct (ALIGN_facts m ltac:(lia) Hb) as [_ LA].
  destruct (write_bytes_mem pat s1 p) as (mw & Ew & W1 & W2).
  rewrite Ew in E. rewrite <- (proj1 G) in Ep.
  assert (HIw : heap_inv (set_mem s1 mw) (la ++ (sz, true) :: lb) fl1).
  { apply heap_inv_alloc_frame; [exact HI1|]. intros a.
    destruct (Z.lt_ge_cases a p); [right; apply W2; lia|].
    destruct (Z.lt_ge_cases a (p + n)); [left; lia | right; apply W2; lia]. }
  destruct (mm_realloc p m (set_mem s1 mw)) as [[r s3]|] eqn:E3; [|discriminate].
  destruct (Z.eqb_spec r NULL) as [|Hr]; [discriminate|].
  injection E as <- <-.
  pose proof (wp_elim _ _ _ _ _
                (mm_realloc_spec (set_mem s1 mw) la sz lb fl1 p m HIw Ep ltac:(lia) Hb) E3)
    as [[X _] | (_ & _ & _ & Hc & _)]; [contradiction|].
  unfold read_bytes. unfold DSIZE in *.
  apply map_seq_ext. intros k Hk. cbn [Nat.add].
  unfold byte_at at 1. rewrite Hc by lia. cbn [mem set_mem]. unfold byte_at.
  rewrite W1 by lia.
  replace (Z.to_nat (p + Z.of_nat k - p)) with k by lia.
  apply Z.mod_mod. lia.
Qed.

(** ** Invariants of every block and of the sentinels *)

(** X17. In every state reached by requests that do not wrap
    ([size + 15 < 2^32] in every call of [mm_malloc] and [mm_realloc]) each
    block of the arena walk, free or allocated, starts at a multiple of 8 inside the arena, has a size that
    is a multiple of 8 and at least the minimum block, and carries the same
    word in its header and in its footer: its size with its allocated
    bit. *)
Theorem blocks_well_formed s bp sz al :
  reachable s -> In (bp, (sz, al)) (heap_blocks s) ->
  bp mod 8 = 0 /\ sz mod 8 = 0 /\ MIN_BLKSIZE <= sz /\
  mem_lo s + 6 * WSIZE <= bp /\ bp + sz <= mem_brk s /\
  load32 (mem s) (HDRP bp) = PACK sz (b2z al) /\
  load32 (mem s) (bp + sz - DSIZE) = PACK sz (b2z al).
Proof.
  intros H Hin. destruct (reachable_inv s H) as (bl & fl & R & _).
  rewrite (rep_heap_blocks _ _ _ R) in Hin. apply In_layout in Hin.
  destruct Hin as (l1 & l2 & -> & ->).
  pose proof (rep_block _ _ _ _ _ R) as B. cbv zeta in B. cbn [fst snd] in B.
  destruct B as (B1 & B2 & B3 & B4 & B5 & B6 & B7).
  pose proof (rep_sizes _ _ _ R) as SZ. apply sizes_ok_app in SZ.
  pose proof (sizes_ok_total_mod _ (proj1 SZ)) as T.
  pose proof (rep_align _ _ _ R) as A.
  unfold HDRP, WSIZE, DSIZE.
  split; [|repeat split; try assumption; lia].
  rewrite Z.add_mod, (Z.add_mod (mem_lo s) 24), A, T by lia. reflexivity.
Qed.

(** X18. In every state reached by requests that do not wrap
    ([size + 15 < 2^32] in every call of [mm_malloc] and [mm_realloc]) the
    sentinels are in place: [heap_p]
    points into the prologue, 8 bytes after the arena start; the prologue
    header and footer hold the minimum block size with the allocated bit;
    the last word of the arena is the epilogue header, size 0 with the
    allocated bit; and the arena lies within the backing store. *)
Theorem sentinels_in_place s :
  reachable s ->
  heap_p s = mem_lo s + DSIZE /\
  load32 (mem s) (HDRP (heap_p s)) = PACK MIN_BLKSIZE 1 /\
  load32 (mem s) (heap_p s + DSIZE) = PACK MIN_BLKSIZE 1 /\
  load32 (mem s) (HDRP (mem_brk s)) = PACK 0 1 /\
  mem_lo s + 6 * WSIZE <= mem_brk s <= mem_max s.
Proof.
  intros H. destruct (reachable_inv s H) as (bl & fl & R & _).
  pose proof (rep_hp _ _ _ R) as Hhp. pose proof (rep_brk_lo _ _ _ R) as Hb.
  unfold HDRP, WSIZE, DSIZE. rewrite Hhp.
  replace (mem_lo s + 8 - 4) with (mem_lo s + 4) by lia.
  replace (mem_lo s + 8 + 8) with (mem_lo s + 16) by lia.
  split; [reflexivity|]. split; [apply (rep_pro_h _ _ _ R)|].
  split; [apply (rep_pro_f _ _ _ R)|]. split; [apply (rep_epi _ _ _ R)|].
  pose proof (rep_brk _ _ _ R). lia.
Qed.

(** ** Concrete runs of the further properties *)

Lemma demo_a_reachable : reachable demo_a.
Proof.
  apply (reach_malloc demo_init 1 4120 demo_a demo_init_reachable).
  - unfold request_ok. conc.
  - vm_compute. reflexivity.
Qed.

Lemma demo_ab_reachable : reachable demo_ab.
Proof.
  apply (reach_malloc demo_a 1 4136 demo_ab demo_a_reachable).
  - unfold request_ok. conc.
  - vm_compute. reflexivity.
Qed.

Lemma demo_small_a_reachable : reachable demo_small_a.
Proof.
  apply (reach_malloc demo_small 1 4120 demo_small_a demo_small_reachable).
  - unfold request_ok. conc.
  - vm_compute. reflexivity.
Qed.

Lemma tag_roundtrip_witness :
  mem_lo demo_init <= 4116 /\ 4116 + 4 <= mem_brk demo_init /\
  0 <= 256 < 2 ^ 32 /\ 256 mod 8 = 0 /\
  (PUT 4116 (PACK 256 (b2z false)) ;;;
   x <- GET_SIZE 4116 ;; y <- GET_ALLOC 4116 ;; ret (x, y)) demo_init
  = Some ((256, b2z false), put demo_init 4116 (PACK 256 (b2z false))).
Proof.
  assert (H1 : mem_lo demo_init <= 4116) by conc.
  assert (H2 : 4116 + 4 <= mem_brk demo_init) by conc.
  assert (H3 : 0 <= 256 < 2 ^ 32) by conc.
  assert (H4 : 256 mod 8 = 0) by reflexivity.
  split; [exact H1|]. split; [exact H2|]. split; [exact H3|]. split; [exact H4|].
  exact (tag_roundtrip demo_init 4116 256 false H1 H2 H3 H4).
Defined.

Lemma ALIGN_round_up_witness :
  0 <= 13 <= 2 ^ 32 - 8 /\ ALIGN 13 mod 8 = 0 /\ 13 <= ALIGN 13 < 13 + 8.
Proof.
  assert (H : 0 <= 13 <= 2 ^ 32 - 8) by conc.
  split; [exact H|]. exact (ALIGN_round_up 13 H).
Defined.

Lemma ALIGN_wraps_to_zero_witness :
  2 ^ 32 - 8 < SIZE_MAX < 2 ^ 32 /\ ALIGN SIZE_MAX = 0.
Proof.
  assert (H : 2 ^ 32 - 8 < SIZE_MAX < 2 ^ 32) by conc.
  split; [exact H|]. exact (ALIGN_wraps_to_zero SIZE_MAX H).
Defined.

Lemma blkp_inverse_witness :
  reachable demo_init /\ In (4120, (256, false)) (heap_blocks demo_init) /\
  (nb <- NEXT_BLKP 4120 ;; PREV_BLKP nb) demo_init = Some (4120, demo_init) /\
  (pb <- PREV_BLKP 4120 ;; NEXT_BLKP pb) demo_init = Some (4120, demo_init).
Proof.
  assert (H : In (4120, (256, false)) (heap_blocks demo_init))
    by (vm_compute; left; reflexivity).
  split; [exact demo_init_reachable|]. split; [exact H|].
  exact (blkp_inverse demo_init 4120 256 false demo_init_reachable H).
Defined.

Lemma extend_heap_out_of_memory_witness :
  0 <= 64 /\ 64 mod 2 = 0 /\ 64 * WSIZE < 2 ^ 32 /\
  mem_max demo_small < mem_brk demo_small + 64 * WSIZE /\
  extend_heap 64 demo_small = Some (NULL, demo_small).
Proof.
  assert (H1 : 0 <= 64) by conc.
  assert (H2 : 64 mod 2 = 0) by reflexivity.
  assert (H3 : 64 * WSIZE < 2 ^ 32) by conc.
  assert (H4 : mem_max demo_small < mem_brk demo_small + 64 * WSIZE) by conc.
  split; [exact H1|]. split; [exact H2|]. split; [exact H3|]. split; [exact H4|].
  exact (extend_heap_out_of_memory 64 demo_small H1 H2 H3 H4).
Defined.

Lemma mm_init_outcome_witness :
  fresh demo_fresh /\
  exists r s',
    mm_init demo_fresh = Some (r, s') /\
    if mem_lo demo_fresh + 6 * WSIZE + CHUNKSIZE <=? mem_max demo_fresh
    then r = 0 /\
         heap_blocks s' = [(mem_lo demo_fresh + 6 * WSIZE, (CHUNKSIZE, false))] /\
         free_list s' [mem_lo demo_fresh + 6 * WSIZE] /\
         mem_brk s' = mem_lo demo_fresh + 6 * WSIZE + CHUNKSIZE
    else r = -1.
Proof.
  split; [exact demo_fresh_ok|]. exact (mm_init_outcome demo_fresh demo_fresh_ok).
Defined.

Lemma extend_heap_grows_witness :
  reachable demo_init /\ MIN_BLKSIZE <= 16 < 2 ^ 32 /\ 16 mod 8 = 0 /\
  mem_brk demo_init + 16 <= mem_max demo_init /\
  exists r s' sz,
    extend_heap (16 / WSIZE) demo_init = Some (r, s') /\
    mem_lo s' = mem_lo demo_init /\ mem_brk s' = mem_brk demo_init + 16 /\
    In (r, (sz, false)) (heap_blocks s') /\ 16 <= sz /\ r + sz = mem_brk s' /\
    load32 (mem s') (heap_p s') = r /\
    (forall q z, In (q, (z, true)) (heap_blocks s') <->
                 In (q, (z, true)) (heap_blocks demo_init)) /\
    (forall q z a, In (q, (z, true)) (heap_blocks demo_init) ->
                   q <= a < q + z - DSIZE -> mem s' a = mem demo_init a).
Proof.
  assert (H1 : MIN_BLKSIZE <= 16 < 2 ^ 32) by conc.
  assert (H2 : 16 mod 8 = 0) by reflexivity.
  assert (H3 : mem_brk demo_init + 16 <= mem_max demo_init) by conc.
  split; [exact demo_init_reachable|]. split; [exact H1|]. split; [exact H2|].
  split; [exact H3|].
  exact (extend_heap_grows demo_init 16 demo_init_reachable H1 H2 H3).
Defined.

Lemma free_releases_block_witness :
  reachable demo_a /\ In (4120, (16, true)) (heap_blocks demo_a) /\
  exists s',
    mm_free 4120 demo_a = Some (tt, s') /\ same_meta demo_a s' /\
    (forall q z, In (q, (z, true)) (heap_blocks s') <->
                 In (q, (z, true)) (heap_blocks demo_a) /\ q <> 4120) /\
    (forall q z a, In (q, (z, true)) (heap_blocks demo_a) -> q <> 4120 ->
                   q <= a < q + z - DSIZE -> mem s' a = mem demo_a a) /\
    exists r z, In (r, (z, false)) (heap_blocks s') /\
                r <= 4120 /\ 4120 + 16 <= r + z /\
                load32 (mem s') (heap_p s') = r.
Proof.
  assert (H : In (4120, (16, true)) (heap_blocks demo_a))
    by (vm_compute; left; reflexivity).
  split; [exact demo_a_reachable|]. split; [exact H|].
  exact (free_releases_block demo_a 4120 16 demo_a_reachable H).
Defined.

Lemma malloc_new_block_witness :
  reachable demo_a /\ request_ok 1 /\ 1 <> 0 /\
  mm_malloc 1 demo_a = Some (4136, demo_ab) /\ 4136 <> NULL /\
  exists sz,
    adj_size 1 <= sz < adj_size 1 + MIN_BLKSIZE /\
    (forall q z, In (q, (z, true)) (heap_blocks demo_ab) <->
                 (q = 4136 /\ z = sz) \/ In (q, (z, true)) (heap_blocks demo_a)) /\
    (forall q z, In (q, (z, true)) (heap_blocks demo_a) ->
                 q + z <= 4136 \/ 4136 + sz <= q) /\
    (forall q z a, In (q, (z, true)) (heap_blocks demo_a) ->
                   q <= a < q + z - DSIZE -> mem demo_ab a = mem demo_a a).
Proof.
  assert (H1 : request_ok 1) by (unfold request_ok; conc).
  assert (H2 : 1 <> 0) by discriminate.
  assert (H3 : mm_malloc 1 demo_a = Some (4136, demo_ab)) by (vm_compute; reflexivity).
  assert (H4 : 4136 <> NULL) by discriminate.
  split; [exact demo_a_reachable|]. split; [exact H1|]. split; [exact H2|].
  split; [exact H3|]. split; [exact H4|].
  exact (malloc_new_block demo_a 1 4136 demo_ab demo_a_reachable H1 H2 H3 H4).
Defined.

Lemma malloc_policy_witness :
  reachable demo_init /\ request_ok 1 /\ 1 <> 0 /\ free_list demo_init [4120] /\
  exists p s',
    mm_malloc 1 demo_init = Some (p, s') /\
    let r := first_fit (mem demo_init) (adj_size 1) [4120] in
    let ext := MAX (adj_size 1) CHUNKSIZE in
    if negb (r =? NULL) then p = r /\ same_meta demo_init s'
    else if mem_brk demo_init + ext <=? mem_max demo_init
         then p <> NULL /\ mem_brk s' = mem_brk demo_init + ext
         else p = NULL /\ s' = add_out demo_init extend_heap_failed.
Proof.
  assert (H1 : request_ok 1) by (unfold request_ok; conc).
  assert (H2 : 1 <> 0) by discriminate.
  assert (H3 : free_list demo_init [4120]) by (unfold free_list; conc).
  split; [exact demo_init_reachable|]. split; [exact H1|]. split; [exact H2|].
  split; [exact H3|].
  exact (malloc_policy demo_init [4120] 1 demo_init_reachable H1 H2 H3).
Defined.

Lemma realloc_moves_block_witness :
  reachable demo_a /\ In (4120, (16, true)) (heap_blocks demo_a) /\
  request_ok 20 /\ 20 <> 0 /\
  exists r s',
    mm_realloc 4120 20 demo_a = Some (r, s') /\
    (r <> NULL ->
     r <> 4120 /\
     (forall i, 0 <= i < 20 -> i < 16 - DSIZE ->
                mem s' (r + i) = byte_at (mem demo_a) (4120 + i)) /\
     (exists sz, 20 + DSIZE <= sz /\
        forall q z, In (q, (z, true)) (heap_blocks s') <->
                    (q = r /\ z = sz) \/
                    (In (q, (z, true)) (heap_blocks demo_a) /\ q <> 4120)) /\
     (forall q z a, In (q, (z, true)) (heap_blocks demo_a) -> q <> 4120 ->
                    q <= a < q + z - DSIZE -> mem s' a = mem demo_a a)).
Proof.
  assert (H1 : In (4120, (16, true)) (heap_blocks demo_a))
    by (vm_compute; left; reflexivity).
  assert (H2 : request_ok 20) by (unfold request_ok; conc).
  assert (H3 : 20 <> 0) by discriminate.
  split; [exact demo_a_reachable|]. split; [exact H1|]. split; [exact H2|].
  split; [exact H3|].
  exact (realloc_moves_block demo_a 4120 16 20 demo_a_reachable H1 H2 H3).
Defined.

Lemma realloc_failure_keeps_block_witness :
  reachable demo_small_a /\ In (4120, (16, true)) (heap_blocks demo_small_a) /\
  request_ok 1000 /\ 1000 <> 0 /\
  mm_realloc 4120 1000 demo_small_a = Some (NULL, demo_small_fail) /\
  demo_small_fail = add_out demo_small_a extend_heap_failed /\
  In (4120, (16, true)) (heap_blocks demo_small_fail) /\
  mem demo_small_fail = mem demo_small_a.
Proof.
  assert (H1 : In (4120, (16, true)) (heap_blocks demo_small_a))
    by (vm_compute; left; reflexivity).
  assert (H2 : request_ok 1000) by (unfold request_ok; conc).
  assert (H3 : 1000 <> 0) by discriminate.
  assert (H4 : mm_realloc 4120 1000 demo_small_a = Some (NULL, demo_small_fail))
    by (vm_compute; reflexivity).
  split; [exact demo_small_a_reachable|]. split; [exact H1|]. split; [exact H2|].
  split; [exact H3|]. split; [exact H4|].
  exact (realloc_failure_keeps_block demo_small_a 4120 16 1000 demo_small_fail
           demo_small_a_reachable H1 H2 H3 H4).
Defined.

Lemma free_then_malloc_reuses_witness :
  reachable demo_ab /\ In (4120, (16, true)) (heap_blocks demo_ab) /\
  mm_free 4120 demo_ab = Some (tt, demo_hole) /\
  request_ok 1 /\ 1 <> 0 /\ adj_size 1 <= 16 /\
  exists r s2,
    mm_malloc 1 demo_hole = Some (r, s2) /\
    r = load32 (mem demo_hole) (heap_p demo_hole) /\ r <> NULL /\ r <= 4120 /\
    same_meta demo_hole s2.
Proof.
  assert (H1 : In (4120, (16, true)) (heap_blocks demo_ab))
    by (vm_compute; left; reflexivity).
  assert (H2 : mm_free 4120 demo_ab = Some (tt, demo_hole)) by (vm_compute; reflexivity).
  assert (H3 : request_ok 1) by (unfold request_ok; conc).
  assert (H4 : 1 <> 0) by discriminate.
  assert (H5 : adj_size 1 <= 16) by conc.
  split; [exact demo_ab_reachable|]. split; [exact H1|]. split; [exact H2|].
  split; [exact H3|]. split; [exact H4|]. split; [exact H5|].
  exact (free_then_malloc_reuses demo_ab 4120 16 demo_hole 1
           demo_ab_reachable H1 H2 H3 H4 H5).
Defined.

Lemma remove_undoes_insert_witness :
  rep demo_pre [(16, false); (240, false)] [4136] /\
  In 4120 (free_ptrs (mem_lo demo_pre + 24) [(16, false); (240, false)]) /\
  ~ In 4120 [4136] /\
  exists s',
    (insert_front_list 4120 ;;; rmv_from_list 4120) demo_pre = Some (tt, s') /\
    free_list s' [4136] /\ rep s' [(16, false); (240, false)] [4136] /\
    same_meta demo_pre s' /\ keeps [(16, false); (240, false)] demo_pre s'.
Proof.
  assert (H1 : rep demo_pre [(16, false); (240, false)] [4136])
    by exact (proj1 demo_pre_ok).
  assert (H2 : In 4120 (free_ptrs (mem_lo demo_pre + 24) [(16, false); (240, false)]))
    by (vm_compute; left; reflexivity).
  assert (H3 : ~ In 4120 [4136]) by (intros [X | []]; discriminate X).
  split; [exact H1|]. split; [exact H2|]. split; [exact H3|].
  exact (remove_undoes_insert demo_pre [(16, false); (240, false)] [4136] 4120 H1 H2 H3).
Defined.

Lemma roundtrip_content_witness :
  reachable demo_hole /\ 0 < 9 /\
  Z.of_nat (List.length [170; 170; 170; 170; 170; 170; 170; 170; 170]) = 9 /\
  9 <= 100 /\ 100 + 15 < 2 ^ 32 /\
  roundtrip demo_hole 9 100 [170; 170; 170; 170; 170; 170; 170; 170; 170]
  = Some (4176, [170; 170; 170; 170; 170; 170; 170; 170; 170]) /\
  [170; 170; 170; 170; 170; 170; 170; 170; 170]
  = map (fun b => b mod 256) [170; 170; 170; 170; 170; 170; 170; 170; 170].
Proof.
  assert (H1 : 0 < 9) by reflexivity.
  assert (H2 : Z.of_nat (List.length [170; 170; 170; 170; 170; 170; 170; 170; 170]) = 9)
    by reflexivity.
  assert (H3 : 9 <= 100) by conc.
  assert (H4 : 100 + 15 < 2 ^ 32) by conc.
  assert (H5 : roundtrip demo_hole 9 100 [170; 170; 170; 170; 170; 170; 170; 170; 170]
               = Some (4176, [170; 170; 170; 170; 170; 170; 170; 170; 170]))
    by (vm_compute; reflexivity).
  split; [exact demo_hole_reachable|]. split; [exact H1|]. split; [exact H2|].
  split; [exact H3|]. split; [exact H4|]. split; [exact H5|].
  exact (roundtrip_content demo_hole 9 100 _ 4176 _ demo_hole_reachable H1 H2 H3 H4 H5).
Defined.

Lemma blocks_well_formed_witness :
  reachable demo_ab /\ In (4136, (16, true)) (heap_blocks demo_ab) /\
  4136 mod 8 = 0 /\ 16 mod 8 = 0 /\ MIN_BLKSIZE <= 16 /\
  mem_lo demo_ab + 6 * WSIZE <= 4136 /\ 4136 + 16 <= mem_brk demo_ab /\
  load32 (mem demo_ab) (HDRP 4136) = PACK 16 (b2z true) /\
  load32 (mem demo_ab) (4136 + 16 - DSIZE) = PACK 16 (b2z true).
Proof.
  assert (H : In (4136, (16, true)) (heap_blocks demo_ab))
    by (vm_compute; right; left; reflexivity).
  split; [exact demo_ab_reachable|]. split; [exact H|].
  exact (blocks_well_formed demo_ab 4136 16 true demo_ab_reachable H).
Defined.

Lemma sentinels_in_place_witness :
  reachable demo_ab /\
  heap_p demo_ab = mem_lo demo_ab + DSIZE /\
  load32 (mem demo_ab) (HDRP (heap_p demo_ab)) = PACK MIN_BLKSIZE 1 /\
  load32 (mem demo_ab) (heap_p demo_ab + DSIZE) = PACK MIN_BLKSIZE 1 /\
  load32 (mem demo_ab) (HDRP (mem_brk demo_ab)) = PACK 0 1 /\
  mem_lo demo_ab + 6 * WSIZE <= mem_brk demo_ab <= mem_max demo_ab.
Proof.
  split; [exact demo_ab_reachable|].
  exact (sentinels_in_place demo_ab demo_ab_reachable).
Defined.
